(** * A generic chained hash map in C: model and verification

    The development embeds [hashmap.c] (the revision with settable load
    balance thresholds) and its header.  The table engine is modelled by
    explicit state passing: every operation takes the [hashmap_t] record and
    the memory it runs in, and returns its result together with the updated
    record and memory.

    - [size_t] is [unsigned long], 64 bits wide; its values are integers in
      [0, 2^64) and every arithmetic operation wraps ([wrap]).
    - [float] is IEEE 754 binary32, evaluated in that format
      ([SpecFloat] with a 24-bit mantissa).
    - Memory is a finite map from block addresses to the bytes of the block.
      A key or value pointer names a block.  Allocation may fail; whether the
      next allocation succeeds is read from an oracle carried by the memory.
    - A bucket chain (the [next] links of [node_t]) is a list of nodes, the
      head of the list being the head of the chain, and the bucket array is
      the list of its chains. *)

From Stdlib Require Import ZArith List Lia Strings.Byte.
From Stdlib Require Import Floats.SpecFloat.
From stdpp Require Import base numbers option list gmap.

Local Open Scope Z_scope.

(** ** Machine integers and floats *)

Definition size_bits : Z := 64.

Definition wrap (z : Z) : Z := z mod 2 ^ size_bits.

Definition float : Type := spec_float.
Definition float_prec : Z := 24.
Definition float_emax : Z := 128.

(** Conversion [(float) n] of an unsigned integer, to nearest even. *)
Definition float_of_size (n : Z) : float :=
  binary_normalize float_prec float_emax n 0 false.

Definition float_div (x y : float) : float := SFdiv float_prec float_emax x y.

(** [x < y] on floats; false as soon as one side is a NaN. *)
Definition float_lt (x y : float) : bool := SFltb x y.

(** The literal [n / 2^k] written as a float constant. *)
Definition float_lit (n k : Z) : float :=
  binary_normalize float_prec float_emax n (- k) false.

(** ** Memory *)

(** Block addresses; [NULL] addresses no block. *)
Abbreviation ptr := N (only parsing).
Definition NULL : ptr := 0%N.

Record mem : Type := Mem {
  heap : gmap N (list byte);
  oracle : list bool
}.

(** The bytes a pointer addresses; nothing for a pointer to no block. *)
Definition load (m : mem) (p : ptr) : list byte := default [] (heap m !! p).

(** Overwriting the block a pointer addresses. *)
Definition store (p : ptr) (bs : list byte) (m : mem) : mem :=
  Mem (<[p := bs]> (heap m)) (oracle m).

(** One allocation request: consumes the next oracle answer; an exhausted
    oracle grants every request. *)
Definition alloc_ok (m : mem) : bool * mem :=
  match oracle m with
  | [] => (true, m)
  | b :: rest => (b, Mem (heap m) rest)
  end.

(** The address handed out by a successful allocation: unused and not NULL. *)
Definition fresh_ptr (m : mem) : ptr := fresh ({[NULL]} ∪ dom (heap m)).

(** [malloc] followed by initialisation of the block with [bs]. *)
Definition malloc_init (bs : list byte) (m : mem) : ptr * mem :=
  let '(ok, m) := alloc_ok m in
  if ok then
    let p := fresh_ptr m in
    (p, Mem (<[p := bs]> (heap m)) (oracle m))
  else (NULL, m).

Definition free (p : ptr) (m : mem) : mem :=
  Mem (delete p (heap m)) (oracle m).

(** ** Characters *)

Definition uchar (c : byte) : Z := Z.of_N (Byte.to_N c).

(** Plain [char] is signed on the platform the Makefile targets (gcc, LP64). *)
Definition plain_char_signed : bool := true.

(** The value of [*str] for a plain [char], after the integer promotions. *)
Definition char_value (c : byte) : Z :=
  if plain_char_signed && (128 <=? uchar c) then uchar c - 256 else uchar c.

Definition is_nul (c : byte) : bool := uchar c =? 0.

(** ** Strategy function types

    Read-only callbacks ([hash_fn_t], [compare_fn_t]) are applied to the bytes
    their pointer arguments address.  Callbacks that allocate or release
    ([alloc_copy_fn_t], [destroy_fn_t]) are memory transformers. *)

Definition hash_fn_t : Type := list byte → Z → Z.
Definition compare_fn_t : Type := list byte → list byte → Z → Z.
Definition destroy_fn_t : Type := ptr → mem → mem.
Definition alloc_copy_fn_t : Type := ptr → Z → mem → ptr * mem.

(** The characters of a block before its first NUL byte, when it has one. *)
Fixpoint c_string (bs : list byte) : option (list byte) :=
  match bs with
  | [] => None
  | c :: bs' => if is_nul c then Some [] else cons c <$> c_string bs'
  end.

(** ** Hash functions *)

(** The loop of [hashmap_fn_hash_djb2]: as long as the current character is
    not NUL, [hash = ((hash << 5) + hash) + c] and the pointer advances.
    Running off the end of the block before a NUL byte is met has no defined
    result. *)
Fixpoint djb2_loop (str : list byte) (hash : Z) : option Z :=
  match str with
  | [] => None
  | c :: str' =>
      if is_nul c then Some hash
      else djb2_loop str' (wrap (wrap (wrap (Z.shiftl hash 5) + hash) + char_value c))
  end.

Definition hashmap_fn_hash_djb2 (key : list byte) (size : Z) : option Z :=
  djb2_loop key 5381.

(** [hash_str] of [main.c]: [for (i = 0; i < size; i++) hash = hash * 31 + ptr[i]]. *)
Definition hash_str (key : list byte) (size : Z) : Z :=
  fold_left (λ hash c, wrap (wrap (hash * 31) + char_value c))
            (take (Z.to_nat size) key) 0.

(** The djb2 hash as a table strategy. *)
Definition HASH_FUNC_DJB2 : hash_fn_t :=
  λ key size, default 0 (hashmap_fn_hash_djb2 key size).

Definition HASH_FUNC_DEFAULT : hash_fn_t := HASH_FUNC_DJB2.

(** ** Default strategies *)

(** [memcmp]: the first differing byte among the first [n] decides. *)
Fixpoint memcmp_loop (a b : list byte) (n : nat) {struct n} : Z :=
  match n with
  | O => 0
  | S n' =>
      match a, b with
      | ca :: a', cb :: b' =>
          if uchar ca =? uchar cb then memcmp_loop a' b' n' else uchar ca - uchar cb
      | [], [] => 0
      | [], _ :: _ => -1
      | _ :: _, [] => 1
      end
  end.

Definition default_fn_compare : compare_fn_t :=
  λ a b size, memcmp_loop a b (Z.to_nat size).

Definition default_fn_destroy : destroy_fn_t := free.

(** [malloc(size)] then [memcpy(copy, element, size)]. *)
Definition default_fn_alloc_copy : alloc_copy_fn_t :=
  λ element size m, malloc_init (take (Z.to_nat size) (load m element)) m.

(** ** The table *)

Definition HASHMAP_DEFAULT_CAPACITY : Z := 16.
Definition HASHMAP_MINIMAL_CAPACITY : Z := 2.
Definition HASHMAP_DEFAULT_LOAD_BALANCE_THRESHOLD_MAX : float := float_lit 3 2.
Definition HASHMAP_DEFAULT_LOAD_BALANCE_THRESHOLD_MIN : float := float_lit 1 2.

Record node_t : Type := Node {
  node_key : ptr;
  node_value : ptr
}.

Record hashmap_t : Type := Hashmap {
  capacity : Z;
  key_size : Z;
  value_size : Z;
  count : Z;
  load_balance_threshold_min : float;
  load_balance_threshold_max : float;
  fn_hash : hash_fn_t;
  fn_compare : compare_fn_t;
  fn_destroy_key : destroy_fn_t;
  fn_destroy_value : destroy_fn_t;
  fn_alloc_copy_key : alloc_copy_fn_t;
  fn_alloc_copy_value : alloc_copy_fn_t;
  table : list (list node_t)
}.

Definition set_count (hm : hashmap_t) (c : Z) : hashmap_t :=
  Hashmap (capacity hm) (key_size hm) (value_size hm) c
    (load_balance_threshold_min hm) (load_balance_threshold_max hm)
    (fn_hash hm) (fn_compare hm) (fn_destroy_key hm) (fn_destroy_value hm)
    (fn_alloc_copy_key hm) (fn_alloc_copy_value hm) (table hm).

Definition set_table (hm : hashmap_t) (t : list (list node_t)) : hashmap_t :=
  Hashmap (capacity hm) (key_size hm) (value_size hm) (count hm)
    (load_balance_threshold_min hm) (load_balance_threshold_max hm)
    (fn_hash hm) (fn_compare hm) (fn_destroy_key hm) (fn_destroy_value hm)
    (fn_alloc_copy_key hm) (fn_alloc_copy_value hm) t.

Definition set_capacity (hm : hashmap_t) (c : Z) : hashmap_t :=
  Hashmap c (key_size hm) (value_size hm) (count hm)
    (load_balance_threshold_min hm) (load_balance_threshold_max hm)
    (fn_hash hm) (fn_compare hm) (fn_destroy_key hm) (fn_destroy_value hm)
    (fn_alloc_copy_key hm) (fn_alloc_copy_value hm) (table hm).

(** A call that can stop the program on a failed [assert]. *)
Inductive outcome (A : Type) : Type :=
  | Aborted : outcome A
  | Returned : A → outcome A.
Arguments Aborted {A}.
Arguments Returned {A} _.

(** [hm->table[index]]. *)
Definition bucket (hm : hashmap_t) (index : Z) : list node_t :=
  table hm !!! Z.to_nat index.

(** [hm->fn_hash(key, hm->key_size) % capacity] for the key bytes [key]. *)
Definition bucket_index (hm : hashmap_t) (key : list byte) (capacity : Z) : Z :=
  fn_hash hm key (key_size hm) mod capacity.

Definition get_auto_growth_new_capacity (hm : hashmap_t) : Z :=
  wrap (capacity hm + Z.shiftr (capacity hm) 1).

Definition get_auto_shrink_new_capacity (hm : hashmap_t) : Z :=
  Z.shiftr (capacity hm) 1.

(** [(float)hm->count / hm->capacity]. *)
Definition load_balance (hm : hashmap_t) : float :=
  float_div (float_of_size (count hm)) (float_of_size (capacity hm)).

(** One step of the inner loop of [resize]: the node is pushed on the front of
    its chain in the new array. *)
Definition relink (hm : hashmap_t) (m : mem) (new_capacity : Z)
    (new_table : list (list node_t)) (current : node_t) : list (list node_t) :=
  let index := Z.to_nat (bucket_index hm (load m (node_key current)) new_capacity) in
  <[index := current :: new_table !!! index]> new_table.

Definition rehash (hm : hashmap_t) (m : mem) (new_capacity : Z) : list (list node_t) :=
  fold_left (λ new_table chain, fold_left (relink hm m new_capacity) chain new_table)
            (table hm) (replicate (Z.to_nat new_capacity) []).

Definition resize (hm : hashmap_t) (new_capacity : Z) (m : mem) : hashmap_t * mem :=
  let new_capacity :=
    if new_capacity <? HASHMAP_MINIMAL_CAPACITY then HASHMAP_MINIMAL_CAPACITY
    else new_capacity in
  let '(ok, m) := alloc_ok m in
  if ok then (set_capacity (set_table hm (rehash hm m new_capacity)) new_capacity, m)
  else (hm, m).

Definition auto_grow (hm : hashmap_t) (m : mem) : hashmap_t * mem :=
  if float_lt (load_balance_threshold_max hm) (load_balance hm)
  then resize hm (get_auto_growth_new_capacity hm) m
  else (hm, m).

Definition auto_shrink (hm : hashmap_t) (m : mem) : hashmap_t * mem :=
  if float_lt (load_balance hm) (load_balance_threshold_min hm)
  then resize hm (get_auto_shrink_new_capacity hm) m
  else (hm, m).

Definition node_create (hm : hashmap_t) (key value : ptr) (m : mem)
    : option node_t * mem :=
  let '(ok, m) := alloc_ok m in
  if ok then
    let '(k, m) := fn_alloc_copy_key hm key (key_size hm) m in
    if (k =? NULL)%N then (None, m)
    else
      let '(v, m) := fn_alloc_copy_value hm value (value_size hm) m in
      if (v =? NULL)%N then (None, fn_destroy_key hm k m)
      else (Some (Node k v), m)
  else (None, m).

Definition node_destroy (hm : hashmap_t) (node : node_t) (m : mem) : mem :=
  fn_destroy_value hm (node_value node) (fn_destroy_key hm (node_key node) m).

Definition hashmap_create (initial_capacity : Z) (hash_fn : option hash_fn_t)
    (key_size value_size : Z) (m : mem) : outcome (option hashmap_t * mem) :=
  if (0 <? key_size) && (0 <? value_size) then
    let initial_capacity :=
      if initial_capacity =? 0 then HASHMAP_DEFAULT_CAPACITY else initial_capacity in
    let initial_capacity :=
      if initial_capacity <? HASHMAP_MINIMAL_CAPACITY then HASHMAP_MINIMAL_CAPACITY
      else initial_capacity in
    let hash_fn := default HASH_FUNC_DEFAULT hash_fn in
    let '(ok, m) := alloc_ok m in
    if ok then
      let '(ok, m) := alloc_ok m in
      if ok then
        Returned
          (Some (Hashmap initial_capacity key_size value_size 0
                   HASHMAP_DEFAULT_LOAD_BALANCE_THRESHOLD_MIN
                   HASHMAP_DEFAULT_LOAD_BALANCE_THRESHOLD_MAX
                   hash_fn default_fn_compare
                   default_fn_destroy default_fn_destroy
                   default_fn_alloc_copy default_fn_alloc_copy
                   (replicate (Z.to_nat initial_capacity) [])), m)
      else Returned (None, m)
    else Returned (None, m)
  else Aborted.

(** The scan of a chain in [hashmap_get]: the first node whose key compares
    equal to [key]. *)
Fixpoint chain_find (hm : hashmap_t) (m : mem) (key : list byte)
    (current : list node_t) : option node_t :=
  match current with
  | [] => None
  | node :: next =>
      if fn_compare hm key (load m (node_key node)) (key_size hm) =? 0
      then Some node
      else chain_find hm m key next
  end.

Definition hashmap_get (hm : hashmap_t) (key : ptr) (m : mem) : ptr :=
  let index := bucket_index hm (load m key) (capacity hm) in
  match chain_find hm m (load m key) (bucket hm index) with
  | Some node => node_value node
  | None => NULL
  end.

Definition hashmap_add (hm : hashmap_t) (key value : ptr) (m : mem)
    : ptr * hashmap_t * mem :=
  let existing_value := hashmap_get hm key m in
  if negb (existing_value =? NULL)%N then (existing_value, hm, m)
  else
    let hm := set_count hm (wrap (count hm + 1)) in
    let '(hm, m) := auto_grow hm m in
    let index := bucket_index hm (load m key) (capacity hm) in
    match node_create hm key value m with
    | (None, m) => (NULL, set_count hm (wrap (count hm - 1)), m)
    | (Some node, m) =>
        (node_value node,
         set_table hm (<[Z.to_nat index := node :: bucket hm index]> (table hm)),
         m)
    end.

(** The walk of [hashmap_remove] with its [prev] pointer: the first node whose
    key compares equal to [key], and the chain without it. *)
Fixpoint chain_unlink (hm : hashmap_t) (m : mem) (key : list byte)
    (current : list node_t) : option (node_t * list node_t) :=
  match current with
  | [] => None
  | node :: next =>
      if fn_compare hm key (load m (node_key node)) (key_size hm) =? 0
      then Some (node, next)
      else
        match chain_unlink hm m key next with
        | Some (found, rest) => Some (found, node :: rest)
        | None => None
        end
  end.

Definition hashmap_remove (hm : hashmap_t) (key : ptr) (m : mem)
    : bool * hashmap_t * mem :=
  let index := bucket_index hm (load m key) (capacity hm) in
  match chain_unlink hm m (load m key) (bucket hm index) with
  | None => (false, hm, m)
  | Some (current, rest) =>
      let hm := set_table hm (<[Z.to_nat index := rest]> (table hm)) in
      let m := node_destroy hm current m in
      let hm := set_count hm (wrap (count hm - 1)) in
      let '(hm, m) := auto_shrink hm m in
      (true, hm, m)
  end.

Definition hashmap_count (hm : hashmap_t) : Z := count hm.

Definition hashmap_capacity (hm : hashmap_t) : Z := capacity hm.

Definition hashmap_set_load_balance_threshold (hm : hashmap_t) (min max : float)
    : hashmap_t :=
  Hashmap (capacity hm) (key_size hm) (value_size hm) (count hm) min max
    (fn_hash hm) (fn_compare hm) (fn_destroy_key hm) (fn_destroy_value hm)
    (fn_alloc_copy_key hm) (fn_alloc_copy_value hm) (table hm).

(** ** Invariants *)

(** All the live entries, bucket after bucket. *)
Definition nodes (hm : hashmap_t) : list node_t := concat (table hm).

(** The buffers the table owns: the key and the value of every live entry. *)
Definition owned (hm : hashmap_t) : list ptr :=
  nodes hm ≫= λ node, [node_key node; node_value node].

(** Equality of two keys under the table's compare strategy. *)
Definition key_eq (hm : hashmap_t) (a b : list byte) : Prop :=
  fn_compare hm a b (key_size hm) = 0.

(** What a copy strategy owes the table: it fails and leaves the blocks as
    they are, or it returns a block that did not exist before, whose bytes
    are [same] as the source's. *)
Definition copy_ok (f : alloc_copy_fn_t) (size : Z)
    (same : list byte → list byte → Prop) : Prop :=
  ∀ src m r m', f src size m = (r, m') →
    (r = NULL ∧ heap m' = heap m) ∨
    (r ≠ NULL ∧ heap m !! r = None ∧
     ∃ c, heap m' = <[r := c]> (heap m) ∧ same (load m src) c).

Definition destroy_ok (f : destroy_fn_t) : Prop :=
  ∀ p m, heap (f p m) = delete p (heap m).

(** The contract between the table and its strategy set, for the keys the
    caller may present, described by [valid] (for the default djb2 hash: the
    keys whose first [key_size] bytes hold the NUL terminator).  The compare
    strategy is an equivalence, valid keys that compare equal hash alike, and
    the copy of a valid key is a valid key that compares equal to it. *)
Record strategies_ok (valid : list byte → Prop) (hm : hashmap_t) : Prop := {
  compare_sym : ∀ a b, key_eq hm a b → key_eq hm b a;
  compare_trans : ∀ a b c, key_eq hm a b → key_eq hm b c → key_eq hm a c;
  compare_hash : ∀ a b, valid a → valid b → key_eq hm a b →
    fn_hash hm a (key_size hm) = fn_hash hm b (key_size hm);
  copy_key_ok :
    copy_ok (fn_alloc_copy_key hm) (key_size hm)
            (λ a c, key_eq hm a c ∧ (valid a → valid c));
  copy_value_ok : copy_ok (fn_alloc_copy_value hm) (value_size hm) (λ _ _, True);
  destroy_key_ok : destroy_ok (fn_destroy_key hm);
  destroy_value_ok : destroy_ok (fn_destroy_value hm)
}.
Arguments compare_sym {valid}.
Arguments compare_trans {valid}.
Arguments compare_hash {valid}.
Arguments copy_key_ok {valid}.
Arguments copy_value_ok {valid}.
Arguments destroy_key_ok {valid}.
Arguments destroy_value_ok {valid}.

(** Every node of the bucket array [t] hangs from the bucket its key hashes
    to, for an array of [c] buckets. *)
Definition placed (hm : hashmap_t) (m : mem) (c : Z) (t : list (list node_t)) : Prop :=
  ∀ (i : nat) chain node,
    t !! i = Some chain → node ∈ chain →
    Z.to_nat (bucket_index hm (load m (node_key node)) c) = i.

(** The shape of the bucket array and of the entries hanging from it. *)
Record table_inv (valid : list byte → Prop) (hm : hashmap_t) (m : mem) : Prop := {
  inv_capacity : HASHMAP_MINIMAL_CAPACITY ≤ capacity hm < 2 ^ size_bits;
  inv_length : length (table hm) = Z.to_nat (capacity hm);
  inv_bucket : placed hm m (capacity hm) (table hm);
  inv_unique : ∀ n1 n2,
    n1 ∈ nodes hm → n2 ∈ nodes hm →
    key_eq hm (load m (node_key n1)) (load m (node_key n2)) → n1 = n2;
  inv_owned_nodup : NoDup (owned hm);
  inv_owned_live : ∀ p, p ∈ owned hm → p ≠ NULL ∧ is_Some (heap m !! p);
  inv_valid : ∀ node, node ∈ nodes hm → valid (load m (node_key node));
  inv_strategies : strategies_ok valid hm
}.
Arguments inv_capacity {valid}.
Arguments inv_length {valid}.
Arguments inv_bucket {valid}.
Arguments inv_unique {valid}.
Arguments inv_owned_nodup {valid}.
Arguments inv_owned_live {valid}.
Arguments inv_valid {valid}.
Arguments inv_strategies {valid}.

Record hashmap_inv (valid : list byte → Prop) (hm : hashmap_t) (m : mem) : Prop := {
  inv_table : table_inv valid hm m;
  inv_count : count hm = wrap (Z.of_nat (length (nodes hm)))
}.
Arguments inv_table {valid}.
Arguments inv_count {valid}.

(** The keys the default djb2 hash and the default byte-wise compare agree
    on: those whose first [key_size] bytes hold the NUL terminator. *)
Definition text_key (key_size : Z) (key : list byte) : Prop :=
  is_Some (c_string (take (Z.to_nat key_size) key)).

(** The entry of the table whose key equals [key], if there is one. *)
Definition lookup_entry (hm : hashmap_t) (m : mem) (key : ptr) : option node_t :=
  chain_find hm m (load m key) (nodes hm).

(** Two tables with the same strategies and settings. *)
Definition same_settings (hm hm' : hashmap_t) : Prop :=
  key_size hm' = key_size hm ∧ value_size hm' = value_size hm ∧
  load_balance_threshold_min hm' = load_balance_threshold_min hm ∧
  load_balance_threshold_max hm' = load_balance_threshold_max hm ∧
  fn_hash hm' = fn_hash hm ∧ fn_compare hm' = fn_compare hm ∧
  fn_destroy_key hm' = fn_destroy_key hm ∧
  fn_destroy_value hm' = fn_destroy_value hm ∧
  fn_alloc_copy_key hm' = fn_alloc_copy_key hm ∧
  fn_alloc_copy_value hm' = fn_alloc_copy_value hm.

(** The capacity a resize request ends with. *)
Definition clamp_capacity (new_capacity : Z) : Z :=
  Z.max HASHMAP_MINIMAL_CAPACITY new_capacity.

(** ** Notions used by the statements *)

(** A run of [hashmap_add] calls, in order. *)
Fixpoint hashmap_add_all (hm : hashmap_t) (pairs : list (N * N)) (m : mem)
    : hashmap_t * mem :=
  match pairs with
  | [] => (hm, m)
  | (key, value) :: rest =>
      let '(_, hm, m) := hashmap_add hm key value m in
      hashmap_add_all hm rest m
  end.

(** [m'] differs from [m] at most in the blocks [ps]: they may have been
    overwritten, released or reused in any way. *)
Definition only_changed (ps : list N) (m m' : mem) : Prop :=
  ∀ p, p ∉ ps → heap m' !! p = heap m !! p.

(** Folding [hash = hash * 33 + c] over characters, from the seed 5381, in
    64-bit unsigned arithmetic. *)
Definition djb2_fold (s : list byte) : Z :=
  fold_left (λ hash c, wrap (hash * 33 + char_value c)) s 5381.

(** The resize rule in the words of the specification, for the default
    thresholds: [n] entries after the mutation, [c] buckets before it and [c']
    buckets after it. *)
Definition resize_policy_as_specified (n c c' : Z) : Prop :=
  (3 * c < 4 * n → c' = Z.max HASHMAP_MINIMAL_CAPACITY (c + c / 2)) ∧
  (4 * n < c → c' = Z.max HASHMAP_MINIMAL_CAPACITY (c / 2)).


(** The same blocks with the allocation oracle [o]. *)
Definition with_oracle (o : list bool) (m : mem) : mem := Mem (heap m) o.

(** ** Sample data *)

(** Four caller blocks: the keys "a", "b", "c" as NUL-terminated text, and a
    value of four bytes. *)
Definition sample_mem : mem :=
  Mem (<[1%N := ["a"; "000"]%byte]> (<[2%N := ["b"; "000"]%byte]>
      (<[3%N := ["c"; "000"]%byte]> (<[4%N := ["*"; "000"; "000"; "000"]%byte]> ∅))))
      [].

(** An empty table of [c] buckets over keys of two bytes and values of four,
    with the default hash and settings, as [hashmap_create] builds it. *)
Definition sample_table (c : Z) : hashmap_t :=
  Hashmap c 2 4 0
    HASHMAP_DEFAULT_LOAD_BALANCE_THRESHOLD_MIN HASHMAP_DEFAULT_LOAD_BALANCE_THRESHOLD_MAX
    HASH_FUNC_DEFAULT default_fn_compare default_fn_destroy default_fn_destroy
    default_fn_alloc_copy default_fn_alloc_copy
    (replicate (Z.to_nat c) []).

(** The sample table after the insertion of the key "a". *)
Definition sample_one : N * hashmap_t * mem :=
  hashmap_add (sample_table 2) 1%N 4%N sample_mem.

(** A table of four buckets after the insertion of the key "a". *)
Definition sample_wide : N * hashmap_t * mem :=
  hashmap_add (sample_table 4) 1%N 4%N sample_mem.

(** ** The scenario of the specification *)

(** What the scenario observes. *)
Record scenario_result : Type := Scenario {
  capacity_after_second_add : Z;
  capacity_after_third_add : Z;
  found_after_third_add : list N;
  capacity_after_removals : Z;
  removed : list bool;
  found_after_removals : list N
}.

(** A table created with capacity 2 and the default settings; the keys
    [k1], [k2], [k3] are added with the value [v]; then [k1] and [k2] are
    removed.  The lookups are those of [k1], [k2], [k3], in this order. *)
Definition scenario (hash_fn : option hash_fn_t) (key_size value_size : Z)
    (k1 k2 k3 v : N) (m : mem) : option scenario_result :=
  match hashmap_create 2 hash_fn key_size value_size m with
  | Returned (Some hm, m) =>
      let '(_, hm, m) := hashmap_add hm k1 v m in
      let '(_, hm, m) := hashmap_add hm k2 v m in
      let c2 := hashmap_capacity hm in
      let '(_, hm, m) := hashmap_add hm k3 v m in
      let c3 := hashmap_capacity hm in
      let found := [hashmap_get hm k1 m; hashmap_get hm k2 m; hashmap_get hm k3 m] in
      let '(b1, hm, m) := hashmap_remove hm k1 m in
      let '(b2, hm, m) := hashmap_remove hm k2 m in
      Some (Scenario c2 c3 found (hashmap_capacity hm) [b1; b2]
              [hashmap_get hm k1 m; hashmap_get hm k2 m; hashmap_get hm k3 m])
  | _ => None
  end.

(** The outcome the specification states for the scenario. *)
Definition scenario_as_specified (r : scenario_result) : Prop :=
  capacity_after_third_add r = 3 ∧
  Forall (λ p, p ≠ NULL) (found_after_third_add r) ∧
  capacity_after_removals r = 2 ∧
  (∃ p, found_after_removals r !! 2%nat = Some p ∧ p ≠ NULL).

(** The entries of a table, told by the caller's keys.  [bindings] pairs
    each key the caller added, a block of the starting memory [m0], with the
    entry that holds its copy; every allocation is granted, the caller's
    blocks are as they were in [m0] and the buffers of the table are blocks
    that [m0] did not have. *)
Definition tracks (valid : list byte → Prop) (hm0 : hashmap_t) (m0 : mem)
    (hm : hashmap_t) (m : mem) (bindings : list (ptr * node_t)) : Prop :=
  hashmap_inv valid hm m ∧ same_settings hm0 hm ∧ oracle m = [] ∧
  nodes hm ≡ₚ bindings.*2 ∧
  (∀ p, is_Some (heap m0 !! p) → heap m !! p = heap m0 !! p) ∧
  (∀ p, p ∈ owned hm → heap m0 !! p = None) ∧
  Forall (λ b, key_eq hm0 (load m0 b.1) (load m (node_key b.2))) bindings.

(** The table runs with the default compare, copy and destroy strategies. *)
Definition default_strategies (hm : hashmap_t) : Prop :=
  fn_compare hm = default_fn_compare ∧
  fn_alloc_copy_key hm = default_fn_alloc_copy ∧
  fn_alloc_copy_value hm = default_fn_alloc_copy ∧
  fn_destroy_key hm = default_fn_destroy ∧
  fn_destroy_value hm = default_fn_destroy.

(** ** The rest of the interface *)

(** [hashmap_destroy]: the nodes of every chain are destroyed, bucket after
    bucket, before the bucket array and the table record are released.  The
    array and the record are not blocks of the modelled memory; what remains
    is the memory without the buffers of the entries. *)
Definition hashmap_destroy (hm : hashmap_t) (m : mem) : mem :=
  fold_left
    (λ m i, fold_left (λ m tmp, node_destroy hm tmp m) (bucket hm (Z.of_nat i)) m)
    (seq 0 (Z.to_nat (capacity hm))) m.

Definition hashmap_set_fn_compare (hm : hashmap_t) (compare_fn : compare_fn_t)
    : hashmap_t :=
  Hashmap (capacity hm) (key_size hm) (value_size hm) (count hm)
    (load_balance_threshold_min hm) (load_balance_threshold_max hm)
    (fn_hash hm) compare_fn (fn_destroy_key hm) (fn_destroy_value hm)
    (fn_alloc_copy_key hm) (fn_alloc_copy_value hm) (table hm).

Definition hashmap_set_fn_alloc_copy_key (hm : hashmap_t) (key_alloc_fn : alloc_copy_fn_t)
    : hashmap_t :=
  Hashmap (capacity hm) (key_size hm) (value_size hm) (count hm)
    (load_balance_threshold_min hm) (load_balance_threshold_max hm)
    (fn_hash hm) (fn_compare hm) (fn_destroy_key hm) (fn_destroy_value hm)
    key_alloc_fn (fn_alloc_copy_value hm) (table hm).

Definition hashmap_set_fn_alloc_copy_value (hm : hashmap_t)
    (value_alloc_fn : alloc_copy_fn_t) : hashmap_t :=
  Hashmap (capacity hm) (key_size hm) (value_size hm) (count hm)
    (load_balance_threshold_min hm) (load_balance_threshold_max hm)
    (fn_hash hm) (fn_compare hm) (fn_destroy_key hm) (fn_destroy_value hm)
    (fn_alloc_copy_key hm) value_alloc_fn (table hm).

Definition hashmap_set_fn_destroy_key (hm : hashmap_t) (key_destroy_fn : destroy_fn_t)
    : hashmap_t :=
  Hashmap (capacity hm) (key_size hm) (value_size hm) (count hm)
    (load_balance_threshold_min hm) (load_balance_threshold_max hm)
    (fn_hash hm) (fn_compare hm) key_destroy_fn (fn_destroy_value hm)
    (fn_alloc_copy_key hm) (fn_alloc_copy_value hm) (table hm).

Definition hashmap_set_fn_destroy_value (hm : hashmap_t) (value_destroy_fn : destroy_fn_t)
    : hashmap_t :=
  Hashmap (capacity hm) (key_size hm) (value_size hm) (count hm)
    (load_balance_threshold_min hm) (load_balance_threshold_max hm)
    (fn_hash hm) (fn_compare hm) (fn_destroy_key hm) value_destroy_fn
    (fn_alloc_copy_key hm) (fn_alloc_copy_value hm) (table hm).

(** ** The other hash functions *)

(** The loop of [hashmap_fn_hash_sdbm]: as long as the current character is
    not NUL, [hash = c + (hash << 6) + (hash << 16) - hash]. *)
Fixpoint sdbm_loop (str : list byte) (hash : Z) : option Z :=
  match str with
  | [] => None
  | c :: str' =>
      if is_nul c then Some hash
      else sdbm_loop str'
             (wrap (wrap (wrap (wrap (char_value c) + wrap (Z.shiftl hash 6))
                          + wrap (Z.shiftl hash 16)) - hash))
  end.

Definition hashmap_fn_hash_sdbm (key : list byte) (size : Z) : option Z :=
  sdbm_loop key 0.

Definition HASH_FUNC_SDBM : hash_fn_t :=
  λ key size, default 0 (hashmap_fn_hash_sdbm key size).

(** Folding [hash = hash * 65599 + c] over characters, from 0. *)
Definition sdbm_fold (s : list byte) : Z :=
  fold_left (λ hash c, wrap (hash * 65599 + char_value c)) s 0.

(** The bytes of an object of type [size_t]. *)
Definition size_bytes : nat := 8.

(** The integer a sequence of bytes stores, least significant byte first
    (the byte order of the x86-64 target). *)
Fixpoint le_value (bs : list byte) : Z :=
  match bs with
  | [] => 0
  | b :: bs' => uchar b + 256 * le_value bs'
  end.

(** [hashmap_fn_hash_id]: the [size_t] read at [key]; a block too short to
    hold one has no defined result. *)
Definition hashmap_fn_hash_id (key : list byte) (size : Z) : option Z :=
  if decide (size_bytes ≤ length key)%nat then Some (le_value (take size_bytes key))
  else None.

Definition HASH_FUNC_ID : hash_fn_t :=
  λ key size, default 0 (hashmap_fn_hash_id key size).

(** ** The string strategies *)

(** The characters of a block up to its first NUL byte; the whole block when
    it has none. *)
Definition string_of (bs : list byte) : list byte := default bs (c_string bs).

(** [strcmp]: the first differing character decides, as [unsigned char];
    the end of a block is read as a terminator. *)
Fixpoint strcmp (a b : list byte) : Z :=
  match a, b with
  | ca :: a', cb :: b' =>
      if uchar ca =? uchar cb then (if is_nul ca then 0 else strcmp a' b')
      else uchar ca - uchar cb
  | [], cb :: _ => 0 - uchar cb
  | ca :: _, [] => uchar ca
  | [], [] => 0
  end.

Definition hashmap_fn_compare_str : compare_fn_t := λ a b size, strcmp a b.

(** [strdup]: a new block with the characters of the string and its
    terminator. *)
Definition hashmap_fn_alloc_copy_str : alloc_copy_fn_t :=
  λ element size m, malloc_init (string_of (load m element) ++ ["000"%byte]) m.

Definition HASHMAP_COMPARE_STRING : compare_fn_t := hashmap_fn_compare_str.
Definition HASHMAP_ALLOC_COPY_STRING : alloc_copy_fn_t := hashmap_fn_alloc_copy_str.

(** The keys of a table that runs with the string strategies: blocks that
    hold a terminated string. *)
Definition string_key (key : list byte) : Prop := is_Some (c_string key).

(** The table runs with the string compare and key copy, and the default
    value copy and destroy strategies. *)
Definition string_strategies (hm : hashmap_t) : Prop :=
  fn_compare hm = HASHMAP_COMPARE_STRING ∧
  fn_alloc_copy_key hm = HASHMAP_ALLOC_COPY_STRING ∧
  fn_alloc_copy_value hm = default_fn_alloc_copy ∧
  fn_destroy_key hm = default_fn_destroy ∧
  fn_destroy_value hm = default_fn_destroy.

(** The key configuration of [demo.c]: string compare and string copy for
    the keys of a table. *)
Definition string_table (hm : hashmap_t) : hashmap_t :=
  hashmap_set_fn_alloc_copy_key
    (hashmap_set_fn_compare hm HASHMAP_COMPARE_STRING) HASHMAP_ALLOC_COPY_STRING.

(** The keys that hold at least [n] bytes. *)
Definition wide_key (n : Z) (key : list byte) : Prop := (Z.to_nat n ≤ length key)%nat.

(** The float constants [0.0f] and [INFINITY]. *)
Definition float_zero : float := S754_zero false.
Definition float_infinity : float := S754_infinity false.

(** A float that is not negative: a zero, a number or an infinity with the
    sign bit clear, or a NaN. *)
Definition unsigned_float (f : float) : Prop :=
  match f with
  | S754_zero s | S754_infinity s | S754_finite s _ _ => s = false
  | S754_nan => True
  end.

(** The thresholds are 0 and infinity, and the capacity is not negative. *)
Definition pinned (hm : hashmap_t) : Prop :=
  load_balance_threshold_min hm = float_zero ∧
  load_balance_threshold_max hm = float_infinity ∧
  0 ≤ capacity hm.

(** ** The first revision of the table

    The revision of [hashmap.c] that [main.c] is written for: the compare is
    [memcmp], the copies are [malloc] and [memcpy], the destroy callbacks may
    be NULL and there is no resizing yet. *)

Module Initial.

Record hashmap_t : Type := Hashmap {
  capacity : Z;
  key_size : Z;
  value_size : Z;
  count : Z;
  table : list (list node_t);
  hash_fn : hash_fn_t;
  key_destroy_fn : option destroy_fn_t;
  value_destroy_fn : option destroy_fn_t
}.

Definition minimal_capacity : Z := 1.

Definition set_table (hm : hashmap_t) (t : list (list node_t)) (c : Z) : hashmap_t :=
  Hashmap (capacity hm) (key_size hm) (value_size hm) c t
    (hash_fn hm) (key_destroy_fn hm) (value_destroy_fn hm).

Definition bucket (hm : hashmap_t) (index : Z) : list node_t :=
  table hm !!! Z.to_nat index.

Definition hashmap_create (initial_capacity key_size value_size : Z)
    (hash_fn : option hash_fn_t) (key_destroy_fn value_destroy_fn : option destroy_fn_t)
    (m : mem) : outcome (option hashmap_t * mem) :=
  match hash_fn with
  | Some hash_fn =>
      if (0 <? key_size) && (0 <? value_size) then
        let initial_capacity :=
          if initial_capacity <? minimal_capacity then minimal_capacity
          else initial_capacity in
        let '(ok, m) := alloc_ok m in
        if ok then
          let '(ok, m) := alloc_ok m in
          if ok then
            Returned
              (Some (Hashmap initial_capacity key_size value_size 0
                       (replicate (Z.to_nat initial_capacity) [])
                       hash_fn key_destroy_fn value_destroy_fn), m)
          else Returned (None, m)
        else Returned (None, m)
      else Aborted
  | None => Aborted
  end.

(** [node_create]: the node, the key block and the value block are
    allocated, then the two [memcpy] calls fill the blocks. *)
Definition node_create (key value : ptr) (key_size value_size : Z) (m : mem)
    : option node_t * mem :=
  let '(ok, m) := alloc_ok m in
  if ok then
    let '(k, m) := malloc_init [] m in
    if (k =? NULL)%N then (None, m)
    else
      let '(v, m) := malloc_init [] m in
      if (v =? NULL)%N then (None, free k m)
      else
        let m := store k (take (Z.to_nat key_size) (load m key)) m in
        let m := store v (take (Z.to_nat value_size) (load m value)) m in
        (Some (Node k v), m)
  else (None, m).

Definition node_destroy (node : node_t) (m : mem) : mem :=
  free (node_value node) (free (node_key node) m).

(** The scan of a chain: the first node whose key equals [key] under
    [memcmp] over [key_size] bytes. *)
Fixpoint chain_find (hm : hashmap_t) (m : mem) (key : list byte)
    (current : list node_t) : option node_t :=
  match current with
  | [] => None
  | node :: next =>
      if default_fn_compare key (load m (node_key node)) (key_size hm) =? 0
      then Some node
      else chain_find hm m key next
  end.

(** [hashmap_get] returns the node it stops at, not its value. *)
Definition hashmap_get (hm : hashmap_t) (key : ptr) (m : mem) : option node_t :=
  let index := hash_fn hm (load m key) (key_size hm) mod capacity hm in
  chain_find hm m (load m key) (bucket hm index).

(** [hashmap_add]: the bucket index is the hash of the bytes at [value]; the
    new node goes to the end of the chain. *)
Definition hashmap_add (hm : hashmap_t) (key value : ptr) (m : mem) : hashmap_t * mem :=
  let index := hash_fn hm (load m value) (key_size hm) mod capacity hm in
  match node_create key value (key_size hm) (value_size hm) m with
  | (None, m) => (hm, m)
  | (Some node, m) =>
      (set_table hm (<[Z.to_nat index := bucket hm index ++ [node]]> (table hm))
                 (wrap (count hm + 1)), m)
  end.

Fixpoint chain_unlink (hm : hashmap_t) (m : mem) (key : list byte)
    (current : list node_t) : option (node_t * list node_t) :=
  match current with
  | [] => None
  | node :: next =>
      if default_fn_compare key (load m (node_key node)) (key_size hm) =? 0
      then Some (node, next)
      else
        match chain_unlink hm m key next with
        | Some (found, rest) => Some (found, node :: rest)
        | None => None
        end
  end.

Definition call_destroy (f : option destroy_fn_t) (p : ptr) (m : mem) : mem :=
  match f with
  | Some f => f p m
  | None => m
  end.

Definition hashmap_remove (hm : hashmap_t) (key : ptr) (m : mem)
    : bool * hashmap_t * mem :=
  let index := hash_fn hm (load m key) (key_size hm) mod capacity hm in
  match chain_unlink hm m (load m key) (bucket hm index) with
  | None => (false, hm, m)
  | Some (current, rest) =>
      let m := call_destroy (key_destroy_fn hm) (node_key current) m in
      let m := call_destroy (value_destroy_fn hm) (node_value current) m in
      let m := node_destroy current m in
      (true, set_table hm (<[Z.to_nat index := rest]> (table hm)) (wrap (count hm - 1)), m)
  end.

Definition hashmap_destroy (hm : hashmap_t) (m : mem) : mem :=
  fold_left
    (λ m i,
       fold_left
         (λ m tmp,
            node_destroy tmp
              (call_destroy (value_destroy_fn hm) (node_value tmp)
                 (call_destroy (key_destroy_fn hm) (node_key tmp) m)))
         (bucket hm (Z.of_nat i)) m)
    (seq 0 (Z.to_nat (capacity hm))) m.

(** [resize] stops at [assert(false)]. *)
Definition resize (hm : hashmap_t) (capacity : Z) : outcome hashmap_t := Aborted.

End Initial.

(** ** The table as a finite map *)

#[global] Instance byte_eq_dec : EqDecision byte := Byte.byte_eq_dec.

#[global] Instance byte_countable : Countable byte :=
  inj_countable Byte.to_N Byte.of_N Byte.of_to_N.

(** The bytes an entry stands for: the first [key_size] bytes of its key
    buffer, which are the ones the default compare reads, and its value
    buffer. *)
Definition entry_of (hm : hashmap_t) (m : mem) (node : node_t)
    : list byte * list byte :=
  (take (Z.to_nat (key_size hm)) (load m (node_key node)), load m (node_value node)).

(** The finite map a table stands for under the default compare. *)
Definition abstraction (hm : hashmap_t) (m : mem) : gmap (list byte) (list byte) :=
  list_to_map (entry_of hm m <$> nodes hm).

(** The key bytes a lookup with the pointer [key] asks for. *)
Definition key_bytes (hm : hashmap_t) (m : mem) (key : ptr) : list byte :=
  take (Z.to_nat (key_size hm)) (load m key).

(** A mutation requested by the caller. *)
Inductive operation : Type :=
  | Add (key value : N)
  | Remove (key : N).

Definition step (hm : hashmap_t) (o : operation) (m : mem) : hashmap_t * mem :=
  match o with
  | Add key value => let '(_, hm, m) := hashmap_add hm key value m in (hm, m)
  | Remove key => let '(_, hm, m) := hashmap_remove hm key m in (hm, m)
  end.

Fixpoint run (hm : hashmap_t) (ops : list operation) (m : mem) : hashmap_t * mem :=
  match ops with
  | [] => (hm, m)
  | o :: rest => let '(hm, m) := step hm o m in run hm rest m
  end.

(** What the operations mean for a finite map, the keys and values being
    read in the memory [m0]: insertion unless the key is bound, deletion. *)
Definition model_step (ks vs : Z) (m0 : mem) (M : gmap (list byte) (list byte))
    (o : operation) : gmap (list byte) (list byte) :=
  match o with
  | Add key value =>
      let kb := take (Z.to_nat ks) (load m0 key) in
      match M !! kb with
      | Some _ => M
      | None => <[kb := take (Z.to_nat vs) (load m0 value)]> M
      end
  | Remove key => delete (take (Z.to_nat ks) (load m0 key)) M
  end.

Definition model (ks vs : Z) (m0 : mem) (ops : list operation)
    (M : gmap (list byte) (list byte)) : gmap (list byte) (list byte) :=
  fold_left (model_step ks vs m0) ops M.

(** The blocks an operation reads are blocks of [m], and its key is valid. *)
Definition readable (valid : list byte → Prop) (m : mem) (o : operation) : Prop :=
  match o with
  | Add key value =>
      is_Some (heap m !! key) ∧ valid (load m key) ∧ is_Some (heap m !! value)
  | Remove key => is_Some (heap m !! key) ∧ valid (load m key)
  end.

(** The buffers of the table are no blocks of [m0], and [m] is [m0] with
    these buffers added: the blocks of the caller are as they were. *)
Definition apart (m0 : mem) (hm : hashmap_t) (m : mem) : Prop :=
  (∀ p, p ∉ owned hm → heap m !! p = heap m0 !! p) ∧
  (∀ p, p ∈ owned hm → heap m0 !! p = None).

(** ** Keys wider than the key size *)

(** Two keys of six bytes, 01 01 01 01 05 00 and 01 01 01 01 06 00, that
    differ after their fourth byte, and two values of four bytes. *)
Definition fixed_width_mem : mem :=
  Mem (<[1%N := ["001"; "001"; "001"; "001"; "005"; "000"]%byte]>
      (<[2%N := ["001"; "001"; "001"; "001"; "006"; "000"]%byte]>
      (<[3%N := ["v"; "1"; "000"; "000"]%byte]>
      (<[4%N := ["v"; "2"; "000"; "000"]%byte]> ∅)))) [].

(** The table [hashmap_create] builds for 16 buckets, the default hash and
    keys and values of four bytes. *)
Definition fixed_width_table : hashmap_t :=
  Hashmap 16 4 4 0
    HASHMAP_DEFAULT_LOAD_BALANCE_THRESHOLD_MIN HASHMAP_DEFAULT_LOAD_BALANCE_THRESHOLD_MAX
    HASH_FUNC_DEFAULT default_fn_compare default_fn_destroy default_fn_destroy
    default_fn_alloc_copy default_fn_alloc_copy
    (replicate 16 []).

(** This table after the insertion of the first key. *)
Definition fixed_width_one : N * hashmap_t * mem :=
  hashmap_add fixed_width_table 1%N 3%N fixed_width_mem.

(** The specification's reading of insert-if-absent, for every key: after
    the insertions [pairs], an insertion with a key that equals the key of an
    entry under the compare strategy returns the value of that entry and
    leaves the table and the memory as they are. *)
Definition add_keeps_binding_as_specified (hm0 : hashmap_t) (pairs : list (N * N))
    (m0 : mem) (key value : N) : Prop :=
  ∀ node,
    node ∈ nodes (fst (hashmap_add_all hm0 pairs m0)) →
    key_eq (fst (hashmap_add_all hm0 pairs m0))
           (load (snd (hashmap_add_all hm0 pairs m0)) key)
           (load (snd (hashmap_add_all hm0 pairs m0)) (node_key node)) →
    hashmap_add (fst (hashmap_add_all hm0 pairs m0)) key value
                (snd (hashmap_add_all hm0 pairs m0))
    = (node_value node, fst (hashmap_add_all hm0 pairs m0),
       snd (hashmap_add_all hm0 pairs m0)).

(** The specification's reading of the round trip, for every key: after a
    successful insertion, a lookup with a key that equals the inserted one
    under the compare strategy returns the pointer the insertion returned. *)
Definition round_trip_as_specified (hm : hashmap_t) (key value : N) (m : mem)
    (key' : N) : Prop :=
  ∀ r hm1 m1,
    hashmap_add hm key value m = (r, hm1, m1) → r ≠ NULL →
    key_eq hm (load m1 key') (load m key) →
    hashmap_get hm1 key' m1 = r.

(** The specification's reading of removal, for every key: the call returns
    true exactly when the table holds an entry whose key equals the key
    under the compare strategy. *)
Definition remove_finds_key_as_specified (hm : hashmap_t) (key : N) (m : mem) : Prop :=
  fst (fst (hashmap_remove hm key m)) = true ↔
  ∃ node, node ∈ nodes hm ∧ key_eq hm (load m key) (load m (node_key node)).

(** ** The thresholds in integers *)

(** The tests of [auto_grow] and [auto_shrink] with the default thresholds
    give, for [n] entries and [c] buckets, what the integer comparisons
    [3 * c < 4 * n] and [4 * n < c] give. *)
Definition thresholds_agree (n c : Z) : bool :=
  Bool.eqb (float_lt HASHMAP_DEFAULT_LOAD_BALANCE_THRESHOLD_MAX
              (float_div (float_of_size n) (float_of_size c)))
           (3 * c <? 4 * n)
  && Bool.eqb (float_lt (float_div (float_of_size n) (float_of_size c))
                 HASHMAP_DEFAULT_LOAD_BALANCE_THRESHOLD_MIN)
              (4 * n <? c).

(** The sizes up to which the agreement is checked, one by one. *)
Definition small_size : nat := 127.

Definition thresholds_agree_upto (b : nat) : bool :=
  forallb (λ n, forallb (λ c, thresholds_agree (Z.of_nat n) (Z.of_nat c)) (seq 1 b))
          (seq 0 (S b)).

(** The table runs with the default thresholds. *)
Definition default_thresholds (hm : hashmap_t) : Prop :=
  load_balance_threshold_min hm = HASHMAP_DEFAULT_LOAD_BALANCE_THRESHOLD_MIN ∧
  load_balance_threshold_max hm = HASHMAP_DEFAULT_LOAD_BALANCE_THRESHOLD_MAX.

(** A small table that is not overloaded, with room for [budget] more
    insertions: the count is the number of entries, at most three quarters
    of the capacity. *)
Definition light (hm : hashmap_t) (budget : Z) : Prop :=
  default_thresholds hm ∧
  count hm = Z.of_nat (length (nodes hm)) ∧
  count hm + budget ≤ 63 ∧
  capacity hm ≤ 127 ∧
  4 * count hm ≤ 3 * capacity hm.

(** ** More sample data *)

(** A table of the first revision as [main.c] sets it up, with three
    buckets, keys of two bytes and values of four. *)
Definition initial_sample : Initial.hashmap_t :=
  Initial.Hashmap 3 2 4 0 (replicate 3 []) hash_str None None.

(** A hash that reads the second byte of the key, for a table whose compare
    reads one byte: the two strategies disagree on keys of two bytes. *)
Definition second_byte_hash : hash_fn_t :=
  λ key size, match key with
              | _ :: c :: _ => uchar c
              | _ => 0
              end.

(** The keys on which they agree: those without a second byte, or with a
    NUL byte there. *)
Definition one_byte_key (key : list byte) : Prop :=
  match key with
  | _ :: c :: _ => is_nul c = true
  | _ => True
  end.

(** The keys "a" followed by NUL and "ac", and a value of four bytes. *)
Definition odd_mem : mem :=
  Mem (<[1%N := ["a"; "000"]%byte]> (<[2%N := ["a"; "c"]%byte]>
      (<[4%N := ["*"; "000"; "000"; "000"]%byte]> ∅))) [].

Definition odd_table : hashmap_t :=
  Hashmap 2 1 4 0
    HASHMAP_DEFAULT_LOAD_BALANCE_THRESHOLD_MIN HASHMAP_DEFAULT_LOAD_BALANCE_THRESHOLD_MAX
    second_byte_hash default_fn_compare default_fn_destroy default_fn_destroy
    default_fn_alloc_copy default_fn_alloc_copy
    (replicate 2 []).

(** The table after the insertion of the first key. *)
Definition odd_one : N * hashmap_t * mem := hashmap_add odd_table 1%N 4%N odd_mem.

(** An empty table of two buckets over keys of one byte, with the default
    hash, and the same table configured for string keys. *)
Definition narrow_table : hashmap_t :=
  Hashmap 2 1 4 0
    HASHMAP_DEFAULT_LOAD_BALANCE_THRESHOLD_MIN HASHMAP_DEFAULT_LOAD_BALANCE_THRESHOLD_MAX
    HASH_FUNC_DEFAULT default_fn_compare default_fn_destroy default_fn_destroy
    default_fn_alloc_copy default_fn_alloc_copy
    (replicate 2 []).

Definition narrow_one : N * hashmap_t * mem :=
  hashmap_add (string_table narrow_table) 1%N 4%N sample_mem.

(** ** Basic facts *)

Section Engine.

Context {valid : list byte → Prop}.

Lemma wrap_range z : 0 ≤ wrap z < 2 ^ size_bits.
Proof. unfold wrap. apply Z.mod_pos_bound. reflexivity. Qed.

Lemma wrap_small z : 0 ≤ z < 2 ^ size_bits → wrap z = z.
Proof. intros. unfold wrap. apply Z.mod_small. assumption. Qed.

Lemma wrap_succ_pred z : wrap (wrap (wrap z + 1) - 1) = wrap z.
Proof.
  unfold wrap. rewrite Zminus_mod_idemp_l.
  replace (z mod 2 ^ size_bits + 1 - 1) with (z mod 2 ^ size_bits) by lia.
  apply Z.mod_mod. discriminate.
Qed.

Lemma wrap_succ z : wrap (wrap z + 1) = wrap (z + 1).
Proof. unfold wrap. apply Zplus_mod_idemp_l. Qed.

Lemma wrap_pred_succ z : wrap (wrap (z + 1) - 1) = wrap z.
Proof. unfold wrap. rewrite Zminus_mod_idemp_l. f_equal. lia. Qed.

Lemma alloc_ok_heap m : heap (snd (alloc_ok m)) = heap m.
Proof. unfold alloc_ok. destruct (oracle m); reflexivity. Qed.

Lemma load_heap_eq m m' p : heap m' !! p = heap m !! p → load m' p = load m p.
Proof. unfold load. intros ->. reflexivity. Qed.

Lemma fresh_ptr_fresh m : fresh_ptr m ≠ NULL ∧ heap m !! fresh_ptr m = None.
Proof.
  unfold fresh_ptr.
  pose proof (is_fresh ({[NULL]} ∪ dom (heap m))) as Hf.
  revert Hf. generalize (fresh ({[NULL]} ∪ dom (heap m))). intros p Hf.
  split.
  - intros ->. set_solver.
  - apply not_elem_of_dom. set_solver.
Qed.

Lemma bucket_index_range hm key c : 0 < c → 0 ≤ bucket_index hm key c < c.
Proof. intros. unfold bucket_index. apply Z.mod_pos_bound. assumption. Qed.

Lemma bucket_index_lt hm key c :
  0 < c → (Z.to_nat (bucket_index hm key c) < Z.to_nat c)%nat.
Proof. intros Hc. pose proof (bucket_index_range hm key c Hc). lia. Qed.

Lemma bucket_index_key_eq hm a b c :
  strategies_ok valid hm → valid a → valid b → key_eq hm a b →
  bucket_index hm a c = bucket_index hm b c.
Proof.
  intros Hs Ha Hb Hab. unfold bucket_index.
  rewrite (compare_hash hm Hs a b Ha Hb Hab). reflexivity.
Qed.

(** ** Chains *)

Lemma chain_find_Some hm m key chain node :
  chain_find hm m key chain = Some node →
  node ∈ chain ∧ key_eq hm key (load m (node_key node)).
Proof.
  induction chain as [|n chain IH]; simpl; [discriminate|].
  destruct (Z.eqb_spec (fn_compare hm key (load m (node_key n)) (key_size hm)) 0) as [E|E].
  - intros [= <-]. split; [left | exact E].
  - intros H. destruct (IH H) as [Hin Heq]. split; [right; exact Hin | exact Heq].
Qed.

Lemma chain_find_None hm m key chain :
  chain_find hm m key chain = None ↔
  ∀ node, node ∈ chain → ¬ key_eq hm key (load m (node_key node)).
Proof.
  induction chain as [|n chain IH]; simpl.
  - split; [|reflexivity]. intros _ node Hin. inversion Hin.
  - destruct (Z.eqb_spec (fn_compare hm key (load m (node_key n)) (key_size hm)) 0) as [E|E].
    + split; [discriminate|]. intros H. exfalso. apply (H n); [left | exact E].
    + rewrite IH. split.
      * intros H node Hin. apply elem_of_cons in Hin as [->|Hin]; [exact E | apply H, Hin].
      * intros H node Hin. apply H. right. exact Hin.
Qed.

(** The scan only looks at the keys of the chain: it is the same in two
    memories that agree on them. *)
Lemma chain_find_ext hm hm' m m' key chain :
  fn_compare hm' = fn_compare hm → key_size hm' = key_size hm →
  (∀ node, node ∈ chain → load m' (node_key node) = load m (node_key node)) →
  chain_find hm' m' key chain = chain_find hm m key chain.
Proof.
  intros Hc Hk. induction chain as [|n chain IH]; simpl; [reflexivity|].
  intros H. rewrite Hc, Hk, (H n) by left. rewrite IH; [reflexivity|].
  intros node Hin. apply H. right. exact Hin.
Qed.

Lemma chain_unlink_Some hm m key chain found rest :
  chain_unlink hm m key chain = Some (found, rest) →
  ∃ before after,
    chain = before ++ found :: after ∧ rest = before ++ after ∧
    chain_find hm m key chain = Some found.
Proof.
  revert found rest. induction chain as [|n chain IH]; simpl; [discriminate|].
  intros found rest.
  destruct (Z.eqb_spec (fn_compare hm key (load m (node_key n)) (key_size hm)) 0) as [E|E].
  - intros [= <- <-]. exists [], chain. auto.
  - destruct (chain_unlink hm m key chain) as [[f r]|] eqn:Hu; [|discriminate].
    intros [= <- <-]. destruct (IH f r eq_refl) as (before & after & -> & -> & Hf).
    exists (n :: before), after. auto.
Qed.

Lemma chain_unlink_None hm m key chain :
  chain_unlink hm m key chain = None ↔ chain_find hm m key chain = None.
Proof.
  induction chain as [|n chain IH]; simpl; [tauto|].
  destruct (Z.eqb_spec (fn_compare hm key (load m (node_key n)) (key_size hm)) 0) as [E|E].
  - split; discriminate.
  - rewrite <- IH. destruct (chain_unlink hm m key chain) as [[f r]|]; split; congruence.
Qed.

(** ** The bucket array as a list of chains *)

Lemma concat_insert_cons {A} (l : list (list A)) (i : nat) (x : A) :
  (i < length l)%nat → concat (<[i := x :: l !!! i]> l) ≡ₚ x :: concat l.
Proof.
  revert i. induction l as [|c l IH]; intros i Hi; simpl in *; [lia|].
  destruct i as [|i]; simpl.
  - reflexivity.
  - rewrite IH by lia. symmetry. apply Permutation_middle.
Qed.

Lemma concat_insert_unlink {A} (l : list (list A)) (i : nat) (x : A) before after :
  l !! i = Some (before ++ x :: after) →
  concat l ≡ₚ x :: concat (<[i := before ++ after]> l).
Proof.
  revert i. induction l as [|c l IH]; intros i Hi; [inversion Hi|].
  destruct i as [|i]; simpl in *.
  - injection Hi as ->. rewrite <- !app_assoc. simpl.
    rewrite <- Permutation_middle. reflexivity.
  - rewrite (IH i Hi). symmetry. apply Permutation_middle.
Qed.

Lemma elem_of_insert_chain {A} (l : list (list A)) (i j : nat) (c chain : list A) (x : A) :
  <[i := c]> l !! j = Some chain → x ∈ chain →
  (j = i ∧ chain = c) ∨ (j ≠ i ∧ l !! j = Some chain).
Proof.
  intros Hl Hx. destruct (decide (j = i)) as [->|Hne].
  - left. split; [reflexivity|].
    destruct (decide (i < length l)%nat) as [Hlt|Hge].
    + rewrite list_lookup_insert_eq in Hl by exact Hlt. congruence.
    + rewrite list_insert_ge in Hl by lia.
      apply lookup_lt_Some in Hl. lia.
  - right. split; [exact Hne|]. rewrite list_lookup_insert_ne in Hl by congruence.
    exact Hl.
Qed.

Lemma elem_of_nodes hm node :
  node ∈ nodes hm ↔ ∃ (i : nat) chain, table hm !! i = Some chain ∧ node ∈ chain.
Proof.
  unfold nodes. rewrite list_elem_of_In, in_concat. split.
  - intros (chain & Hc & Hn). apply list_elem_of_In, list_elem_of_lookup in Hc as [i Hi].
    exists i, chain. split; [exact Hi | apply list_elem_of_In, Hn].
  - intros (i & chain & Hi & Hn). exists chain. split.
    + apply list_elem_of_In. eapply list_elem_of_lookup_2. exact Hi.
    + apply list_elem_of_In, Hn.
Qed.

Lemma bucket_lookup hm (i : nat) chain :
  table hm !! i = Some chain → bucket hm (Z.of_nat i) = chain.
Proof.
  intros H. unfold bucket. rewrite Nat2Z.id. apply list_lookup_total_correct. exact H.
Qed.

Lemma bucket_lookup_lt hm index :
  (Z.to_nat index < length (table hm))%nat →
  table hm !! Z.to_nat index = Some (bucket hm index).
Proof. intros H. unfold bucket. apply list_lookup_lookup_total_lt. exact H. Qed.

(** ** Rehashing *)

Lemma fold_left_concat {A B} (f : B → A → B) (t : list (list A)) (acc : B) :
  fold_left (λ acc chain, fold_left f chain acc) t acc = fold_left f (concat t) acc.
Proof.
  revert acc. induction t as [|c t IH]; simpl; intros acc; [reflexivity|].
  rewrite fold_left_app. apply IH.
Qed.

Lemma rehash_nodes hm m c :
  rehash hm m c = fold_left (relink hm m c) (nodes hm) (replicate (Z.to_nat c) []).
Proof. unfold rehash, nodes. apply fold_left_concat. Qed.

Lemma relink_placed hm m c t node :
  0 < c → length t = Z.to_nat c → placed hm m c t →
  length (relink hm m c t node) = Z.to_nat c ∧
  placed hm m c (relink hm m c t node) ∧
  concat (relink hm m c t node) ≡ₚ node :: concat t.
Proof.
  intros Hc Hlen Hp. unfold relink.
  pose proof (bucket_index_lt hm (load m (node_key node)) c Hc) as Hlt.
  set (i := Z.to_nat (bucket_index hm (load m (node_key node)) c)) in *.
  split; [|split].
  - rewrite length_insert. exact Hlen.
  - intros j chain x Hj Hx.
    destruct (elem_of_insert_chain _ _ _ _ _ _ Hj Hx) as [[-> ->]|[Hne Hj']].
    + apply elem_of_cons in Hx as [->|Hx]; [reflexivity|].
      apply (Hp i (t !!! i) x); [|exact Hx].
      apply list_lookup_lookup_total_lt. lia.
    + apply (Hp j chain x Hj' Hx).
  - apply concat_insert_cons. lia.
Qed.

Lemma relink_all hm m c l :
  0 < c → ∀ t, length t = Z.to_nat c → placed hm m c t →
  length (fold_left (relink hm m c) l t) = Z.to_nat c ∧
  placed hm m c (fold_left (relink hm m c) l t) ∧
  concat (fold_left (relink hm m c) l t) ≡ₚ l ++ concat t.
Proof.
  intros Hc. induction l as [|node l IH]; intros t Hlen Hp; simpl.
  - auto.
  - destruct (relink_placed hm m c t node Hc Hlen Hp) as (Hlen1 & Hp1 & Hperm1).
    destruct (IH _ Hlen1 Hp1) as (Hlen2 & Hp2 & Hperm2).
    split; [exact Hlen2|]. split; [exact Hp2|].
    rewrite Hperm2, Hperm1. symmetry. apply Permutation_middle.
Qed.

Lemma placed_replicate hm m c n : placed hm m c (replicate n []).
Proof.
  intros i chain node Hi Hn. apply lookup_replicate in Hi as [-> _]. inversion Hn.
Qed.

Lemma concat_replicate_nil {A} n : concat (replicate n (@nil A)) = [].
Proof. induction n as [|n IH]; simpl; [reflexivity | exact IH]. Qed.

Lemma rehash_spec hm m c :
  0 < c →
  length (rehash hm m c) = Z.to_nat c ∧
  placed hm m c (rehash hm m c) ∧
  concat (rehash hm m c) ≡ₚ nodes hm.
Proof.
  intros Hc. rewrite rehash_nodes.
  destruct (relink_all hm m c (nodes hm) Hc (replicate (Z.to_nat c) []))
    as (Hlen & Hp & Hperm).
  - apply length_replicate.
  - apply placed_replicate.
  - split; [exact Hlen|]. split; [exact Hp|].
    rewrite Hperm, concat_replicate_nil, app_nil_r. reflexivity.
Qed.

(** ** Entries and the buffers they own *)

Lemma owned_elem hm p :
  p ∈ owned hm ↔ ∃ node, node ∈ nodes hm ∧ (p = node_key node ∨ p = node_value node).
Proof.
  unfold owned. rewrite list_elem_of_bind. split.
  - intros (node & Hp & Hn). exists node. split; [exact Hn|].
    apply elem_of_cons in Hp as [->|Hp]; [left; reflexivity|].
    apply list_elem_of_singleton in Hp. right. exact Hp.
  - intros (node & Hn & [->| ->]); exists node; (split; [|exact Hn]).
    + left.
    + right. left.
Qed.

Lemma owned_perm hm hm' : nodes hm' ≡ₚ nodes hm → owned hm' ≡ₚ owned hm.
Proof. intros H. unfold owned. rewrite H. reflexivity. Qed.

Lemma owned_cons hm hm' node :
  nodes hm' ≡ₚ node :: nodes hm →
  owned hm' ≡ₚ node_key node :: node_value node :: owned hm.
Proof. intros H. unfold owned. rewrite H. reflexivity. Qed.

Lemma nodes_NoDup hm : NoDup (owned hm) → NoDup (nodes hm).
Proof.
  unfold owned. generalize (nodes hm). intros l. induction l as [|n l IH]; simpl.
  - intros _. constructor.
  - intros H. apply NoDup_cons in H as [Hk H]. apply NoDup_cons in H as [_ H].
    constructor; [|apply IH, H].
    intros Hin. apply Hk. right. apply list_elem_of_bind. exists n. split; [left | exact Hin].
Qed.

Lemma strategies_ok_same hm hm' :
  same_settings hm hm' → strategies_ok valid hm → strategies_ok valid hm'.
Proof.
  intros (Hk & Hv & _ & _ & Hh & Hc & Hdk & Hdv & Hck & Hcv) [s1 s2 s3 s4 s5 s6 s7].
  constructor; unfold key_eq in *; rewrite ?Hk, ?Hv, ?Hh, ?Hc, ?Hdk, ?Hdv, ?Hck, ?Hcv;
    assumption.
Qed.

Lemma same_settings_refl hm : same_settings hm hm.
Proof. repeat split. Qed.

Lemma same_settings_trans hm1 hm2 hm3 :
  same_settings hm1 hm2 → same_settings hm2 hm3 → same_settings hm1 hm3.
Proof.
  unfold same_settings. intros H1 H2. destruct_and!. repeat split; congruence.
Qed.

Lemma key_eq_same hm hm' a b : same_settings hm hm' → key_eq hm' a b ↔ key_eq hm a b.
Proof.
  intros (Hk & _ & _ & _ & _ & Hc & _). unfold key_eq. rewrite Hk, Hc. reflexivity.
Qed.

Lemma bucket_index_same hm hm' key c :
  same_settings hm hm' → bucket_index hm' key c = bucket_index hm key c.
Proof.
  intros (Hk & _ & _ & _ & Hh & _). unfold bucket_index. rewrite Hk, Hh. reflexivity.
Qed.

(** Moving the invariant to a table with the same entries, hung from a
    well-formed bucket array, in a memory that kept the owned buffers. *)
Lemma table_inv_transfer hm m hm' m' :
  table_inv valid hm m →
  same_settings hm hm' →
  HASHMAP_MINIMAL_CAPACITY ≤ capacity hm' < 2 ^ size_bits →
  length (table hm') = Z.to_nat (capacity hm') →
  placed hm' m' (capacity hm') (table hm') →
  nodes hm' ≡ₚ nodes hm →
  (∀ p, p ∈ owned hm → heap m' !! p = heap m !! p) →
  table_inv valid hm' m'.
Proof.
  intros Hinv Hsame Hcap Hlen Hplaced Hperm Hheap.
  assert (Hload : ∀ node, node ∈ nodes hm →
            load m' (node_key node) = load m (node_key node)).
  { intros node Hn. apply load_heap_eq, Hheap, owned_elem. eauto. }
  constructor; try assumption.
  - intros n1 n2 H1 H2 Heq. rewrite Hperm in H1, H2.
    apply (inv_unique hm m Hinv n1 n2 H1 H2).
    rewrite <- (Hload n1 H1), <- (Hload n2 H2). apply (key_eq_same hm hm'); assumption.
  - rewrite (owned_perm hm hm' Hperm). apply (inv_owned_nodup hm m Hinv).
  - intros p Hp. rewrite (owned_perm hm hm' Hperm) in Hp.
    rewrite (Hheap p Hp). apply (inv_owned_live hm m Hinv p Hp).
  - intros node Hn. rewrite Hperm in Hn. rewrite (Hload node Hn).
    apply (inv_valid hm m Hinv node Hn).
  - apply (strategies_ok_same hm hm' Hsame), (inv_strategies hm m Hinv).
Qed.

(** ** Lookup *)

Lemma hashmap_get_absent hm m key :
  (∀ node, node ∈ nodes hm → ¬ key_eq hm (load m key) (load m (node_key node))) →
  hashmap_get hm key m = NULL.
Proof.
  intros Habs. unfold hashmap_get.
  destruct (chain_find hm m (load m key) _) as [node|] eqn:Hf; [|reflexivity].
  apply chain_find_Some in Hf as [Hin Heq]. exfalso. apply (Habs node); [|exact Heq].
  unfold bucket in Hin. apply elem_of_nodes.
  destruct (table hm !! Z.to_nat (bucket_index hm (load m key) (capacity hm)))
    as [chain|] eqn:Hl.
  - rewrite (list_lookup_total_correct _ _ _ Hl) in Hin. eauto.
  - rewrite list_lookup_total_alt, Hl in Hin. inversion Hin.
Qed.

Lemma hashmap_get_found hm m key node :
  table_inv valid hm m → valid (load m key) → node ∈ nodes hm →
  key_eq hm (load m key) (load m (node_key node)) →
  hashmap_get hm key m = node_value node.
Proof.
  intros Hinv Hvalid Hin Heq.
  pose proof (inv_strategies hm m Hinv) as Hs.
  pose proof (inv_valid hm m Hinv node Hin) as Hvnode.
  apply elem_of_nodes in Hin as (i & chain & Hi & Hc).
  pose proof (inv_bucket hm m Hinv i chain node Hi Hc) as Hidx.
  rewrite <- (bucket_index_key_eq hm _ _ _ Hs Hvalid Hvnode Heq) in Hidx.
  unfold hashmap_get, bucket. rewrite Hidx, (list_lookup_total_correct _ _ _ Hi).
  destruct (chain_find hm m (load m key) chain) as [found|] eqn:Hf.
  - apply chain_find_Some in Hf as [Hfin Hfeq]. f_equal.
    apply (inv_unique hm m Hinv).
    + apply elem_of_nodes. eauto.
    + apply elem_of_nodes. eauto.
    + apply (compare_trans hm Hs _ (load m key)); [|exact Heq].
      apply (compare_sym hm Hs). exact Hfeq.
  - exfalso. rewrite chain_find_None in Hf. apply (Hf node Hc Heq).
Qed.

Lemma hashmap_get_lookup hm m key :
  table_inv valid hm m → valid (load m key) →
  hashmap_get hm key m =
    match lookup_entry hm m key with Some node => node_value node | None => NULL end.
Proof.
  intros Hinv Hvalid. unfold lookup_entry.
  destruct (chain_find hm m (load m key) (nodes hm)) as [node|] eqn:Hf.
  - apply chain_find_Some in Hf as [Hin Heq]. apply hashmap_get_found; assumption.
  - apply hashmap_get_absent. apply chain_find_None. exact Hf.
Qed.

Lemma node_value_not_NULL hm m node :
  table_inv valid hm m → node ∈ nodes hm → node_value node ≠ NULL.
Proof.
  intros Hinv Hin. apply (inv_owned_live hm m Hinv). apply owned_elem. eauto.
Qed.

Lemma hashmap_get_NULL hm m key :
  table_inv valid hm m → valid (load m key) → hashmap_get hm key m = NULL →
  ∀ node, node ∈ nodes hm → ¬ key_eq hm (load m key) (load m (node_key node)).
Proof.
  intros Hinv Hvalid Hget node Hin Heq.
  rewrite (hashmap_get_found hm m key node Hinv Hvalid Hin Heq) in Hget.
  apply (node_value_not_NULL hm m node Hinv Hin Hget).
Qed.

Lemma placed_ext hm m hm' m' c t :
  same_settings hm hm' →
  (∀ node, node ∈ concat t → load m' (node_key node) = load m (node_key node)) →
  placed hm m c t → placed hm' m' c t.
Proof.
  intros Hsame Hload Hp i chain node Hi Hn.
  rewrite (bucket_index_same hm hm') by exact Hsame.
  rewrite Hload; [apply (Hp i chain node Hi Hn)|].
  apply list_elem_of_In, in_concat. exists chain. split; apply list_elem_of_In.
  - eapply list_elem_of_lookup_2. exact Hi.
  - exact Hn.
Qed.

Lemma owned_load hm m m' :
  (∀ p, p ∈ owned hm → heap m' !! p = heap m !! p) →
  ∀ node, node ∈ nodes hm → load m' (node_key node) = load m (node_key node).
Proof. intros Hheap node Hn. apply load_heap_eq, Hheap, owned_elem. eauto. Qed.

(** The invariant only reads the buffers the table owns. *)
Lemma table_inv_heap hm m m' :
  table_inv valid hm m →
  (∀ p, p ∈ owned hm → heap m' !! p = heap m !! p) →
  table_inv valid hm m'.
Proof.
  intros Hinv Hheap.
  apply (table_inv_transfer hm m hm m' Hinv (same_settings_refl hm)).
  - apply (inv_capacity hm m Hinv).
  - apply (inv_length hm m Hinv).
  - apply (placed_ext hm m hm m'); [apply same_settings_refl | |apply (inv_bucket hm m Hinv)].
    apply (owned_load hm m m' Hheap).
  - reflexivity.
  - exact Hheap.
Qed.


(** ** Resizing *)

Lemma clamp_capacity_eq c :
  (if c <? HASHMAP_MINIMAL_CAPACITY then HASHMAP_MINIMAL_CAPACITY else c) = clamp_capacity c.
Proof.
  unfold clamp_capacity. destruct (Z.ltb_spec c HASHMAP_MINIMAL_CAPACITY); lia.
Qed.

Lemma resize_failed hm c m :
  fst (alloc_ok m) = false → resize hm c m = (hm, snd (alloc_ok m)).
Proof. unfold resize. destruct (alloc_ok m) as [ok m1]. simpl. intros ->. reflexivity. Qed.

Lemma resize_done hm c m :
  fst (alloc_ok m) = true →
  resize hm c m =
    (set_capacity (set_table hm (rehash hm (snd (alloc_ok m)) (clamp_capacity c)))
                  (clamp_capacity c),
     snd (alloc_ok m)).
Proof.
  unfold resize. rewrite clamp_capacity_eq.
  destruct (alloc_ok m) as [ok m1]. simpl. intros ->. reflexivity.
Qed.

(** What every call of [resize] keeps: the settings, the count, the entries
    and the memory blocks; and the invariant holds again afterwards. *)
Lemma resize_inv hm c m :
  table_inv valid hm m → c < 2 ^ size_bits →
  table_inv valid (fst (resize hm c m)) (snd (resize hm c m)) ∧
  nodes (fst (resize hm c m)) ≡ₚ nodes hm ∧
  heap (snd (resize hm c m)) = heap m ∧
  same_settings hm (fst (resize hm c m)) ∧
  count (fst (resize hm c m)) = count hm.
Proof.
  intros Hinv Hc.
  assert (Hheap : ∀ p, p ∈ owned hm → heap (snd (alloc_ok m)) !! p = heap m !! p).
  { intros p _. rewrite alloc_ok_heap. reflexivity. }
  destruct (fst (alloc_ok m)) eqn:Hok.
  - rewrite (resize_done hm c m Hok). simpl.
    assert (Hpos : 0 < clamp_capacity c) by (unfold clamp_capacity, HASHMAP_MINIMAL_CAPACITY; lia).
    destruct (rehash_spec hm (snd (alloc_ok m)) (clamp_capacity c) Hpos)
      as (Hlen & Hplaced & Hperm).
    assert (Hsame : same_settings hm
              (set_capacity (set_table hm (rehash hm (snd (alloc_ok m)) (clamp_capacity c)))
                 (clamp_capacity c))) by (repeat split).
    split; [|split; [exact Hperm|split; [apply alloc_ok_heap|split; [exact Hsame|reflexivity]]]].
    apply (table_inv_transfer hm m _ _ Hinv Hsame); simpl.
    + unfold clamp_capacity, HASHMAP_MINIMAL_CAPACITY.
      assert (2 < 2 ^ size_bits) by reflexivity. lia.
    + exact Hlen.
    + intros i chain node Hi Hn. apply (Hplaced i chain node Hi Hn).
    + exact Hperm.
    + exact Hheap.
  - rewrite (resize_failed hm c m Hok). simpl.
    split; [apply (table_inv_heap hm m _ Hinv Hheap)|].
    split; [reflexivity|]. split; [apply alloc_ok_heap|].
    split; [apply same_settings_refl | reflexivity].
Qed.

Lemma auto_grow_inv hm m :
  table_inv valid hm m →
  table_inv valid (fst (auto_grow hm m)) (snd (auto_grow hm m)) ∧
  nodes (fst (auto_grow hm m)) ≡ₚ nodes hm ∧
  heap (snd (auto_grow hm m)) = heap m ∧
  same_settings hm (fst (auto_grow hm m)) ∧
  count (fst (auto_grow hm m)) = count hm.
Proof.
  intros Hinv. unfold auto_grow.
  destruct (float_lt (load_balance_threshold_max hm) (load_balance hm)).
  - apply resize_inv; [exact Hinv|]. apply wrap_range.
  - simpl. split; [exact Hinv|]. split; [reflexivity|]. split; [reflexivity|].
    split; [apply same_settings_refl | reflexivity].
Qed.

Lemma auto_shrink_inv hm m :
  table_inv valid hm m →
  table_inv valid (fst (auto_shrink hm m)) (snd (auto_shrink hm m)) ∧
  nodes (fst (auto_shrink hm m)) ≡ₚ nodes hm ∧
  heap (snd (auto_shrink hm m)) = heap m ∧
  same_settings hm (fst (auto_shrink hm m)) ∧
  count (fst (auto_shrink hm m)) = count hm.
Proof.
  intros Hinv. unfold auto_shrink.
  destruct (float_lt (load_balance hm) (load_balance_threshold_min hm)).
  - apply resize_inv; [exact Hinv|]. unfold get_auto_shrink_new_capacity.
    pose proof (inv_capacity hm m Hinv) as Hcap.
    rewrite Z.shiftr_div_pow2 by lia. unfold HASHMAP_MINIMAL_CAPACITY in Hcap.
    change (2 ^ 1) with 2.
    apply Z.le_lt_trans with (capacity hm); [|lia].
    apply Z.div_le_upper_bound; lia.
  - simpl. split; [exact Hinv|]. split; [reflexivity|]. split; [reflexivity|].
    split; [apply same_settings_refl | reflexivity].
Qed.

(** ** Entry creation and destruction *)

Lemma node_create_spec hm key value m :
  strategies_ok valid hm →
  match node_create hm key value m with
  | (None, m') => heap m' = heap m
  | (Some node, m') =>
      node_key node ≠ NULL ∧ node_value node ≠ NULL ∧
      node_key node ≠ node_value node ∧
      heap m !! node_key node = None ∧ heap m !! node_value node = None ∧
      ∃ kc vc,
        heap m' = <[node_value node := vc]> (<[node_key node := kc]> (heap m)) ∧
        key_eq hm (load m key) kc ∧ (valid (load m key) → valid kc)
  end.
Proof.
  intros Hs. unfold node_create.
  pose proof (alloc_ok_heap m) as Hm1.
  destruct (alloc_ok m) as [[|] m1]; simpl in Hm1; [|exact Hm1].
  destruct (fn_alloc_copy_key hm key (key_size hm) m1) as [k m2] eqn:Hk.
  destruct (copy_key_ok hm Hs key m1 k m2 Hk)
    as [[-> Hm2]|(Hk0 & Hkfresh & kc & Hm2 & Hkeq & Hkvalid)].
  - simpl. congruence.
  - destruct (N.eqb_spec k NULL) as [|_]; [contradiction|].
    destruct (fn_alloc_copy_value hm value (value_size hm) m2) as [v m3] eqn:Hv.
    destruct (copy_value_ok hm Hs value m2 v m3 Hv)
      as [[-> Hm3]|(Hv0 & Hvfresh & vc & Hm3 & _)].
    + simpl. rewrite (destroy_key_ok hm Hs), Hm3, Hm2, <- Hm1.
      apply delete_insert_id. exact Hkfresh.
    + destruct (N.eqb_spec v NULL) as [|_]; [contradiction|]. simpl.
      rewrite Hm2 in Hvfresh. apply lookup_insert_None in Hvfresh as [Hvf Hkv].
      rewrite <- Hm1. repeat split; try assumption.
      exists kc, vc. split; [rewrite Hm3, Hm2; reflexivity|].
      rewrite <- (load_heap_eq m m1 key) by (rewrite Hm1; reflexivity).
      split; assumption.
Qed.

(** With the default value copy, the stored value holds the first
    [value_size] bytes of the caller's buffer. *)
Lemma node_create_default_value hm key value m node m' :
  strategies_ok valid hm →
  fn_alloc_copy_value hm = default_fn_alloc_copy →
  is_Some (heap m !! value) →
  node_create hm key value m = (Some node, m') →
  load m' (node_value node) = take (Z.to_nat (value_size hm)) (load m value).
Proof.
  intros Hs Hdef Hlive. unfold node_create.
  pose proof (alloc_ok_heap m) as Hm1.
  destruct (alloc_ok m) as [[|] m1]; simpl in Hm1; [|discriminate].
  destruct (fn_alloc_copy_key hm key (key_size hm) m1) as [k m2] eqn:Hk.
  destruct (copy_key_ok hm Hs key m1 k m2 Hk) as [[-> Hm2]|(Hk0 & Hkfresh & kc & Hm2 & Hkeq)].
  - simpl. discriminate.
  - destruct (N.eqb_spec k NULL) as [|_]; [contradiction|].
    rewrite Hdef. unfold default_fn_alloc_copy, malloc_init.
    pose proof (alloc_ok_heap m2) as Hm3.
    destruct (alloc_ok m2) as [[|] m3]; simpl in Hm3.
    + destruct (N.eqb_spec (fresh_ptr m3) NULL) as [E|_].
      { destruct (fresh_ptr_fresh m3) as [Hne _]. contradiction. }
      intros [= <- <-]. unfold load at 1. simpl. rewrite lookup_insert_eq. simpl.
      f_equal. apply load_heap_eq. rewrite Hm2, Hm1. apply lookup_insert_ne.
      intros ->. rewrite Hm1 in Hkfresh. rewrite Hkfresh in Hlive.
      destruct Hlive as [? [=]].
    + destruct (N.eqb_spec NULL NULL) as [_|E]; [discriminate | contradiction].
Qed.

Lemma node_destroy_heap hm node m :
  strategies_ok valid hm →
  heap (node_destroy hm node m) = delete (node_value node) (delete (node_key node) (heap m)).
Proof.
  intros Hs. unfold node_destroy.
  rewrite (destroy_value_ok hm Hs), (destroy_key_ok hm Hs). reflexivity.
Qed.

(** ** Insertion *)

Lemma table_inv_set_count hm m c : table_inv valid hm m → table_inv valid (set_count hm c) m.
Proof.
  intros Hinv. apply (table_inv_transfer hm m _ m Hinv).
  - repeat split.
  - apply (inv_capacity hm m Hinv).
  - apply (inv_length hm m Hinv).
  - intros i chain node Hi Hn. apply (inv_bucket hm m Hinv i chain node Hi Hn).
  - reflexivity.
  - reflexivity.
Qed.

(** Pushing a freshly created entry on the front of the bucket of its key. *)
Lemma table_inv_push hm m m' key node kc vc :
  table_inv valid hm m →
  (∀ x, x ∈ nodes hm → ¬ key_eq hm key (load m (node_key x))) →
  valid key → valid kc →
  key_eq hm key kc →
  node_key node ≠ NULL → node_value node ≠ NULL →
  node_key node ≠ node_value node →
  heap m !! node_key node = None → heap m !! node_value node = None →
  heap m' = <[node_value node := vc]> (<[node_key node := kc]> (heap m)) →
  let index := bucket_index hm key (capacity hm) in
  let hm' := set_table hm (<[Z.to_nat index := node :: bucket hm index]> (table hm)) in
  table_inv valid hm' m' ∧ nodes hm' ≡ₚ node :: nodes hm ∧
  table hm' !! Z.to_nat index = Some (node :: bucket hm index).
Proof.
  intros Hinv Habs Hvkey Hvkc Hkeq Hk0 Hv0 Hkv Hkf Hvf Hm' index hm'.
  pose proof (inv_strategies hm m Hinv) as Hs.
  pose proof (inv_capacity hm m Hinv) as Hcap. unfold HASHMAP_MINIMAL_CAPACITY in Hcap.
  assert (Hlt : (Z.to_nat index < length (table hm))%nat).
  { rewrite (inv_length hm m Hinv). apply bucket_index_lt. lia. }
  assert (Hperm : nodes hm' ≡ₚ node :: nodes hm).
  { unfold nodes, hm', bucket. simpl. apply concat_insert_cons. exact Hlt. }
  assert (Hold : ∀ p, p ∈ owned hm → heap m' !! p = heap m !! p).
  { intros p Hp. destruct (inv_owned_live hm m Hinv p Hp) as [_ Hlive].
    rewrite Hm'. rewrite !lookup_insert_ne; [reflexivity| |].
    - intros <-. rewrite Hkf in Hlive. destruct Hlive as [? [=]].
    - intros <-. rewrite Hvf in Hlive. destruct Hlive as [? [=]]. }
  assert (Hnew : load m' (node_key node) = kc).
  { unfold load. rewrite Hm', lookup_insert_ne by congruence.
    rewrite lookup_insert_eq. reflexivity. }
  pose proof (owned_load hm m m' Hold) as Hload.
  assert (Hsame : same_settings hm hm') by (repeat split).
  split; [|split; [exact Hperm|]].
  - constructor.
    + exact Hcap.
    + unfold hm'. simpl. rewrite length_insert. apply (inv_length hm m Hinv).
    + intros j chain x Hj Hx. unfold hm' in Hj. simpl in Hj.
      rewrite (bucket_index_same hm hm') by exact Hsame.
      change (capacity hm') with (capacity hm).
      destruct (elem_of_insert_chain _ _ _ _ _ _ Hj Hx) as [[-> ->]|[Hne Hj']].
      * apply elem_of_cons in Hx as [->|Hx].
        -- rewrite Hnew.
           rewrite <- (bucket_index_key_eq hm key kc _ Hs Hvkey Hvkc Hkeq). reflexivity.
        -- assert (Hb : table hm !! Z.to_nat index = Some (bucket hm index))
             by (apply bucket_lookup_lt, Hlt).
           rewrite Hload by (apply elem_of_nodes; eauto).
           apply (inv_bucket hm m Hinv _ _ x Hb Hx).
      * rewrite Hload by (apply elem_of_nodes; eauto).
        apply (inv_bucket hm m Hinv _ _ x Hj' Hx).
    + assert (Hfresh : ∀ x, x ∈ nodes hm →
                ¬ key_eq hm kc (load m (node_key x))).
      { intros x Hx Hc. apply (Habs x Hx).
        apply (compare_trans hm Hs _ kc); assumption. }
      intros n1 n2 H1 H2 Heq. rewrite Hperm in H1, H2.
      apply (key_eq_same hm hm' _ _ Hsame) in Heq.
      apply elem_of_cons in H1 as [->|H1]; apply elem_of_cons in H2 as [->|H2].
      * reflexivity.
      * exfalso. rewrite Hnew, (Hload n2 H2) in Heq. apply (Hfresh n2 H2 Heq).
      * exfalso. rewrite Hnew, (Hload n1 H1) in Heq.
        apply (Hfresh n1 H1). apply (compare_sym hm Hs). exact Heq.
      * rewrite (Hload n1 H1), (Hload n2 H2) in Heq.
        apply (inv_unique hm m Hinv n1 n2 H1 H2 Heq).
    + rewrite (owned_cons hm hm' node Hperm).
      assert (Hnot : ∀ p, heap m !! p = None → p ∉ owned hm).
      { intros p Hp Hin. destruct (inv_owned_live hm m Hinv p Hin) as [_ [? Hl]].
        congruence. }
      constructor.
      * intros Hin. apply elem_of_cons in Hin as [Hin|Hin]; [congruence|].
        apply (Hnot _ Hkf Hin).
      * constructor; [apply (Hnot _ Hvf) | apply (inv_owned_nodup hm m Hinv)].
    + intros p Hp. apply owned_elem in Hp as (x & Hx & Hp). rewrite Hperm in Hx.
      apply elem_of_cons in Hx as [->|Hx].
      * destruct Hp as [-> | ->]; (split; [assumption|]); rewrite Hm'.
        -- rewrite lookup_insert_ne by congruence. rewrite lookup_insert_eq. eauto.
        -- rewrite lookup_insert_eq. eauto.
      * assert (Hpo : p ∈ owned hm) by (apply owned_elem; eauto).
        rewrite (Hold p Hpo). apply (inv_owned_live hm m Hinv p Hpo).
    + intros x Hx. rewrite Hperm in Hx. apply elem_of_cons in Hx as [->|Hx].
      * rewrite Hnew. exact Hvkc.
      * rewrite (Hload x Hx). apply (inv_valid hm m Hinv x Hx).
    + apply (strategies_ok_same hm hm' Hsame Hs).
  - unfold hm'. simpl. apply list_lookup_insert_eq. exact Hlt.
Qed.

Lemma hashmap_add_present hm key value m :
  hashmap_get hm key m ≠ NULL →
  hashmap_add hm key value m = (hashmap_get hm key m, hm, m).
Proof.
  intros H. unfold hashmap_add.
  destruct (N.eqb_spec (hashmap_get hm key m) NULL) as [E|_]; [contradiction|reflexivity].
Qed.

Lemma hashmap_add_absent hm key value m :
  hashmap_get hm key m = NULL →
  hashmap_add hm key value m =
    let grown := auto_grow (set_count hm (wrap (count hm + 1))) m in
    let index := bucket_index (fst grown) (load (snd grown) key) (capacity (fst grown)) in
    match node_create (fst grown) key value (snd grown) with
    | (None, m2) => (NULL, set_count (fst grown) (wrap (count (fst grown) - 1)), m2)
    | (Some node, m2) =>
        (node_value node,
         set_table (fst grown)
           (<[Z.to_nat index := node :: bucket (fst grown) index]> (table (fst grown))),
         m2)
    end.
Proof.
  intros H. unfold hashmap_add. rewrite H. simpl.
  destruct (auto_grow (set_count hm (wrap (count hm + 1))) m) as [hm1 m1]. reflexivity.
Qed.

(** The three ways a call of [hashmap_add] can end. *)
Lemma hashmap_add_spec hm key value m r hm' m' :
  hashmap_inv valid hm m →
  valid (load m key) →
  hashmap_add hm key value m = (r, hm', m') →
  hashmap_inv valid hm' m' ∧ same_settings hm hm' ∧
  ((∃ node, node ∈ nodes hm ∧ key_eq hm (load m key) (load m (node_key node)) ∧
            r = node_value node ∧ hm' = hm ∧ m' = m)
   ∨ ((∀ x, x ∈ nodes hm → ¬ key_eq hm (load m key) (load m (node_key x))) ∧
      r = NULL ∧ nodes hm' ≡ₚ nodes hm ∧ count hm' = count hm ∧ heap m' = heap m)
   ∨ ((∀ x, x ∈ nodes hm → ¬ key_eq hm (load m key) (load m (node_key x))) ∧
      ∃ node kc vc,
        r = node_value node ∧ r ≠ NULL ∧ nodes hm' ≡ₚ node :: nodes hm ∧
        count hm' = wrap (count hm + 1) ∧
        heap m !! node_key node = None ∧ heap m !! node_value node = None ∧
        node_key node ≠ node_value node ∧
        heap m' = <[node_value node := vc]> (<[node_key node := kc]> (heap m)) ∧
        key_eq hm (load m key) kc)).
Proof.
  intros [Hinv Hcount] Hvalid Hadd.
  destruct (decide (hashmap_get hm key m = NULL)) as [Hget|Hget].
  2:{ rewrite (hashmap_add_present hm key value m Hget) in Hadd.
      injection Hadd as <- <- <-.
      split; [split; assumption|]. split; [apply same_settings_refl|]. left.
      rewrite (hashmap_get_lookup hm m key Hinv Hvalid) in Hget |- *.
      unfold lookup_entry in *.
      destruct (chain_find hm m (load m key) (nodes hm)) as [node|] eqn:Hf; [|contradiction].
      apply chain_find_Some in Hf as [Hin Heq]. exists node. auto. }
  pose proof (hashmap_get_NULL hm m key Hinv Hvalid Hget) as Habs.
  rewrite (hashmap_add_absent hm key value m Hget) in Hadd. simpl in Hadd.
  pose proof (table_inv_set_count hm m (wrap (count hm + 1)) Hinv) as Hinvc.
  destruct (auto_grow_inv _ m Hinvc) as (Hinv1 & Hperm1 & Hheap1 & Hsame1 & Hcount1).
  destruct (auto_grow (set_count hm (wrap (count hm + 1))) m) as [hm1 m1].
  simpl in *. change (nodes (set_count hm (wrap (count hm + 1)))) with (nodes hm) in Hperm1.
  assert (Hsame : same_settings hm hm1).
  { apply (same_settings_trans hm (set_count hm (wrap (count hm + 1)))); [|exact Hsame1].
    repeat split. }
  pose proof (inv_strategies hm1 m1 Hinv1) as Hs1.
  assert (Hld : ∀ p, load m1 p = load m p).
  { intros p. apply load_heap_eq. rewrite Hheap1. reflexivity. }
  pose proof (node_create_spec hm1 key value m1 Hs1) as Hnc.
  destruct (node_create hm1 key value m1) as [[node|] m2].
  - destruct Hnc as (Hk0 & Hv0 & Hkv & Hkf & Hvf & kc & vc & Hm2 & Hkeq & Hkvalid).
    injection Hadd as <- <- <-.
    rewrite Hld in Hkvalid. specialize (Hkvalid Hvalid).
    assert (Hvalid1 : valid (load m1 key)) by (rewrite Hld; exact Hvalid).
    assert (Habs1 : ∀ x, x ∈ nodes hm1 →
              ¬ key_eq hm1 (load m1 key) (load m1 (node_key x))).
    { intros x Hx Hc. rewrite Hperm1 in Hx. apply (Habs x Hx).
      apply (key_eq_same hm hm1 _ _ Hsame) in Hc. rewrite !Hld in Hc. exact Hc. }
    destruct (table_inv_push hm1 m1 m2 (load m1 key) node kc vc
                Hinv1 Habs1 Hvalid1 Hkvalid Hkeq Hk0 Hv0 Hkv Hkf Hvf Hm2)
      as (Hinv2 & Hperm2 & _).
    assert (Hperm : nodes (set_table hm1
              (<[Z.to_nat (bucket_index hm1 (load m1 key) (capacity hm1)) :=
                   node :: bucket hm1 (bucket_index hm1 (load m1 key) (capacity hm1))]>
                 (table hm1))) ≡ₚ node :: nodes hm).
    { rewrite Hperm2, Hperm1. reflexivity. }
    split; [split; [exact Hinv2|]|].
    + simpl. rewrite (Permutation_length Hperm). simpl length.
      rewrite Hcount1, Hcount, wrap_succ. f_equal. lia.
    + split; [exact Hsame|]. right. right. split; [exact Habs|].
      exists node, kc, vc. rewrite Hheap1 in Hkf, Hvf, Hm2.
      repeat split; try assumption.
      apply (key_eq_same hm hm1 _ _ Hsame). rewrite <- (Hld key). exact Hkeq.
  - injection Hadd as <- <- <-.
    assert (Hsame2 : same_settings hm1 (set_count hm1 (wrap (count hm1 - 1))))
      by (repeat split).
    split; [split|].
    + apply (table_inv_heap _ m1); [apply table_inv_set_count, Hinv1|].
      intros p _. rewrite Hnc. reflexivity.
    + simpl. change (nodes (set_count hm1 (wrap (count hm1 - 1)))) with (nodes hm1).
      rewrite (Permutation_length Hperm1), Hcount1, Hcount. apply wrap_succ_pred.
    + split; [apply (same_settings_trans hm hm1); assumption|].
      right. left. split; [exact Habs|]. split; [reflexivity|].
      split; [exact Hperm1|]. split; [|rewrite Hnc; exact Hheap1].
      simpl. rewrite Hcount1, Hcount. apply wrap_succ_pred.
Qed.

(** ** Removal *)

(** Unlinking the first entry of a bucket whose key matches, and releasing its
    buffers. *)
Lemma table_inv_unlink hm m key current rest :
  table_inv valid hm m →
  let index := bucket_index hm key (capacity hm) in
  chain_unlink hm m key (bucket hm index) = Some (current, rest) →
  let hm1 := set_table hm (<[Z.to_nat index := rest]> (table hm)) in
  let m1 := node_destroy hm1 current m in
  table_inv valid hm1 m1 ∧ nodes hm ≡ₚ current :: nodes hm1 ∧
  key_eq hm key (load m (node_key current)) ∧
  heap m1 = delete (node_value current) (delete (node_key current) (heap m)).
Proof.
  intros Hinv index Hun hm1 m1.
  pose proof (inv_strategies hm m Hinv) as Hs.
  pose proof (inv_capacity hm m Hinv) as Hcap. unfold HASHMAP_MINIMAL_CAPACITY in Hcap.
  assert (Hsame : same_settings hm hm1) by (repeat split).
  pose proof (strategies_ok_same hm hm1 Hsame Hs) as Hs1.
  assert (Hlt : (Z.to_nat index < length (table hm))%nat).
  { rewrite (inv_length hm m Hinv). apply bucket_index_lt. lia. }
  pose proof (bucket_lookup_lt hm index Hlt) as Hb.
  apply chain_unlink_Some in Hun as (before & after & Hchain & -> & Hfind).
  apply chain_find_Some in Hfind as [_ Hkeq].
  rewrite Hchain in Hb.
  assert (Hperm : nodes hm ≡ₚ current :: nodes hm1).
  { unfold nodes, hm1. simpl. apply concat_insert_unlink. exact Hb. }
  assert (Hm1 : heap m1 = delete (node_value current) (delete (node_key current) (heap m))).
  { apply node_destroy_heap. exact Hs1. }
  pose proof (inv_owned_nodup hm m Hinv) as Hnd.
  rewrite (owned_cons hm1 hm current Hperm) in Hnd.
  apply NoDup_cons in Hnd as [Hk Hnd]. apply NoDup_cons in Hnd as [Hv Hnd].
  assert (Hsub : ∀ p, p ∈ owned hm1 → p ∈ owned hm).
  { intros p Hp. rewrite (owned_cons hm1 hm current Hperm). right. right. exact Hp. }
  assert (Hold : ∀ p, p ∈ owned hm1 → heap m1 !! p = heap m !! p).
  { intros p Hp. rewrite Hm1. rewrite !lookup_delete_ne; [reflexivity| |].
    - intros <-. apply Hk. right. exact Hp.
    - intros <-. apply Hv. exact Hp. }
  pose proof (owned_load hm1 m m1 Hold) as Hload.
  assert (Hnodes : ∀ x, x ∈ nodes hm1 → x ∈ nodes hm).
  { intros x Hx. rewrite Hperm. right. exact Hx. }
  split; [|auto].
  constructor.
  - exact Hcap.
  - unfold hm1. simpl. rewrite length_insert. apply (inv_length hm m Hinv).
  - intros j chain x Hj Hx.
    rewrite (bucket_index_same hm hm1) by exact Hsame.
    change (capacity hm1) with (capacity hm).
    rewrite Hload by (apply elem_of_nodes; eauto).
    unfold hm1 in Hj. simpl in Hj.
    destruct (elem_of_insert_chain _ _ _ _ _ _ Hj Hx) as [[-> ->]|[Hne Hj']].
    + apply (inv_bucket hm m Hinv _ _ x Hb).
      apply elem_of_app in Hx as [Hx|Hx]; apply elem_of_app; [left|right; right]; exact Hx.
    + apply (inv_bucket hm m Hinv _ _ x Hj' Hx).
  - intros n1 n2 H1 H2 Heq. apply (key_eq_same hm hm1 _ _ Hsame) in Heq.
    rewrite (Hload n1 H1), (Hload n2 H2) in Heq.
    apply (inv_unique hm m Hinv n1 n2 (Hnodes n1 H1) (Hnodes n2 H2) Heq).
  - exact Hnd.
  - intros p Hp. rewrite (Hold p Hp). apply (inv_owned_live hm m Hinv p (Hsub p Hp)).
  - intros x Hx. rewrite (Hload x Hx). apply (inv_valid hm m Hinv x (Hnodes x Hx)).
  - exact Hs1.
Qed.

Lemma hashmap_remove_absent hm key m :
  chain_find hm m (load m key) (bucket hm (bucket_index hm (load m key) (capacity hm))) = None →
  hashmap_remove hm key m = (false, hm, m).
Proof.
  intros H. unfold hashmap_remove.
  apply chain_unlink_None in H. rewrite H. reflexivity.
Qed.

(** The two ways a call of [hashmap_remove] can end. *)
Lemma hashmap_remove_spec hm key m b hm' m' :
  hashmap_inv valid hm m →
  valid (load m key) →
  hashmap_remove hm key m = (b, hm', m') →
  hashmap_inv valid hm' m' ∧ same_settings hm hm' ∧
  ((b = false ∧
    (∀ x, x ∈ nodes hm → ¬ key_eq hm (load m key) (load m (node_key x))) ∧
    hm' = hm ∧ m' = m)
   ∨ (b = true ∧
      ∃ current,
        current ∈ nodes hm ∧
        key_eq hm (load m key) (load m (node_key current)) ∧
        nodes hm ≡ₚ current :: nodes hm' ∧
        count hm' = wrap (count hm - 1) ∧
        heap m' = delete (node_value current) (delete (node_key current) (heap m)))).
Proof.
  intros [Hinv Hcount] Hvalid Hrem. unfold hashmap_remove in Hrem.
  destruct (chain_unlink hm m (load m key)
              (bucket hm (bucket_index hm (load m key) (capacity hm))))
    as [[current rest]|] eqn:Hun.
  - destruct (table_inv_unlink hm m (load m key) current rest Hinv Hun)
      as (Hinv1 & Hperm & Hkeq & Hm1).
    set (hm1 := set_table hm _) in *. set (m1 := node_destroy hm1 current m) in *.
    pose proof (table_inv_set_count hm1 m1 (wrap (count hm1 - 1)) Hinv1) as Hinvc.
    destruct (auto_shrink_inv _ m1 Hinvc) as (Hinv2 & Hperm2 & Hheap2 & Hsame2 & Hcount2).
    destruct (auto_shrink (set_count hm1 (wrap (count hm1 - 1))) m1) as [hm2 m2].
    injection Hrem as <- <- <-. simpl in *.
    change (nodes (set_count hm1 (wrap (count hm1 - 1)))) with (nodes hm1) in Hperm2.
    change (count hm1) with (count hm) in Hcount2.
    split; [split; [exact Hinv2|]|].
    + rewrite Hcount2, Hcount, (Permutation_length Hperm), (Permutation_length Hperm2).
      simpl length. rewrite Nat2Z.inj_succ. unfold Z.succ. apply wrap_pred_succ.
    + split.
      * apply (same_settings_trans hm (set_count hm1 (wrap (count hm - 1)))); [|exact Hsame2].
        repeat split.
      * right. split; [reflexivity|]. exists current.
        split; [rewrite Hperm; left|]. split; [exact Hkeq|].
        split; [rewrite Hperm2; exact Hperm|]. split; [exact Hcount2|].
        rewrite Hheap2. exact Hm1.
  - injection Hrem as <- <- <-.
    split; [split; assumption|]. split; [apply same_settings_refl|]. left.
    split; [reflexivity|]. split; [|auto].
    apply (hashmap_get_NULL hm m key Hinv Hvalid). unfold hashmap_get.
    apply chain_unlink_None in Hun. rewrite Hun. reflexivity.
Qed.

(** ** The default strategy set *)

Lemma uchar_inj a b : uchar a = uchar b → a = b.
Proof.
  unfold uchar. intros H. apply N2Z.inj in H.
  pose proof (Byte.of_to_N a) as Ha. pose proof (Byte.of_to_N b) as Hb.
  rewrite H in Ha. congruence.
Qed.

Lemma memcmp_loop_eq a b n : memcmp_loop a b n = 0 ↔ take n a = take n b.
Proof.
  revert a b. induction n as [|n IH]; intros a b; simpl; [split; reflexivity|].
  destruct a as [|ca a], b as [|cb b]; simpl; try (split; [lia|discriminate]);
    [split; reflexivity|].
  destruct (Z.eqb_spec (uchar ca) (uchar cb)) as [E|E].
  - apply uchar_inj in E as ->. rewrite IH. split; [congruence|]. intros [=]. assumption.
  - split; [lia|]. intros [= -> _]. contradiction.
Qed.

Lemma default_copy_ok size (same : list byte → list byte → Prop) :
  (∀ a, same a (take (Z.to_nat size) a)) →
  copy_ok default_fn_alloc_copy size same.
Proof.
  intros Hsame src m r m'. unfold default_fn_alloc_copy, malloc_init.
  pose proof (alloc_ok_heap m) as Hm1.
  destruct (alloc_ok m) as [[|] m1]; simpl in Hm1; intros [= <- <-].
  - right. destruct (fresh_ptr_fresh m1) as [Hne Hf]. rewrite Hm1 in Hf.
    split; [exact Hne|]. split; [exact Hf|].
    exists (take (Z.to_nat size) (load m src)). simpl. rewrite Hm1.
    split; [reflexivity | apply Hsame].
  - left. split; [reflexivity | exact Hm1].
Qed.

Lemma default_destroy_ok : destroy_ok default_fn_destroy.
Proof. intros p m. reflexivity. Qed.

(** A table with the default compare, copy and destroy strategies honours the
    contract as soon as, on valid keys, its hash only depends on the first
    [key_size] bytes, and these bytes alone make a valid key. *)
Lemma default_strategies_ok hm :
  fn_compare hm = default_fn_compare →
  fn_alloc_copy_key hm = default_fn_alloc_copy →
  fn_alloc_copy_value hm = default_fn_alloc_copy →
  fn_destroy_key hm = default_fn_destroy →
  fn_destroy_value hm = default_fn_destroy →
  (∀ a b, valid a → valid b →
          take (Z.to_nat (key_size hm)) a = take (Z.to_nat (key_size hm)) b →
          fn_hash hm a (key_size hm) = fn_hash hm b (key_size hm)) →
  (∀ a, valid a → valid (take (Z.to_nat (key_size hm)) a)) →
  strategies_ok valid hm.
Proof.
  intros Hc Hck Hcv Hdk Hdv Hh Htake.
  assert (Heq : ∀ a b, key_eq hm a b ↔
            take (Z.to_nat (key_size hm)) a = take (Z.to_nat (key_size hm)) b).
  { intros a b. unfold key_eq. rewrite Hc. apply memcmp_loop_eq. }
  constructor.
  - intros a b. rewrite !Heq. congruence.
  - intros a b c. rewrite !Heq. congruence.
  - intros a b Ha Hb. rewrite Heq. apply Hh; assumption.
  - rewrite Hck. apply default_copy_ok. intros a. split; [|apply Htake].
    apply Heq. rewrite take_take, Nat.min_id. reflexivity.
  - rewrite Hcv. apply default_copy_ok. auto.
  - rewrite Hdk. apply default_destroy_ok.
  - rewrite Hdv. apply default_destroy_ok.
Qed.

Lemma hash_str_take key key' size :
  take (Z.to_nat size) key = take (Z.to_nat size) key' →
  hash_str key size = hash_str key' size.
Proof. unfold hash_str. intros ->. reflexivity. Qed.

(** ** Construction *)

Lemma hashmap_create_inv c hash_fn ks vs m hm m' :
  0 ≤ c < 2 ^ size_bits →
  (∀ a b, valid a → valid b → take (Z.to_nat ks) a = take (Z.to_nat ks) b →
          default HASH_FUNC_DEFAULT hash_fn a ks = default HASH_FUNC_DEFAULT hash_fn b ks) →
  (∀ a, valid a → valid (take (Z.to_nat ks) a)) →
  hashmap_create c hash_fn ks vs m = Returned (Some hm, m') →
  hashmap_inv valid hm m' ∧ nodes hm = [] ∧ count hm = 0 ∧
  capacity hm = clamp_capacity (if c =? 0 then HASHMAP_DEFAULT_CAPACITY else c).
Proof.
  intros Hc Hh Htake. unfold hashmap_create.
  destruct ((0 <? ks) && (0 <? vs)); [|discriminate].
  rewrite clamp_capacity_eq.
  destruct (alloc_ok m) as [[|] m1]; [|discriminate].
  destruct (alloc_ok m1) as [[|] m2]; [|discriminate].
  intros [= <- <-].
  assert (Hn : ∀ n, concat (replicate n (@nil node_t)) = []) by apply concat_replicate_nil.
  split; [|split; [apply Hn|split; reflexivity]].
  split.
  - constructor; simpl.
    + unfold clamp_capacity, HASHMAP_MINIMAL_CAPACITY, HASHMAP_DEFAULT_CAPACITY.
      assert (16 < 2 ^ size_bits) by reflexivity.
      destruct (Z.eqb_spec c 0); lia.
    + apply length_replicate.
    + apply placed_replicate.
    + unfold nodes. simpl. rewrite Hn. intros n1 n2 H1. inversion H1.
    + unfold owned, nodes. simpl. rewrite Hn. constructor.
    + unfold owned, nodes. simpl. rewrite Hn. intros p Hp. inversion Hp.
    + unfold nodes. simpl. rewrite Hn. intros node Hnode. inversion Hnode.
    + apply default_strategies_ok; try reflexivity; assumption.
  - unfold nodes. simpl. rewrite Hn. reflexivity.
Qed.

(** An insertion leaves every block that was live as it is. *)
Lemma hashmap_add_live hm key value m r hm' m' :
  hashmap_inv valid hm m →
  valid (load m key) →
  hashmap_add hm key value m = (r, hm', m') →
  ∀ p, is_Some (heap m !! p) → heap m' !! p = heap m !! p.
Proof.
  intros Hinv Hvalid Hadd p [bs Hp].
  destruct (hashmap_add_spec hm key value m r hm' m' Hinv Hvalid Hadd)
    as (_ & _ & [Hcase|[Hcase|Hcase]]).
  - destruct Hcase as (_ & _ & _ & _ & _ & ->). reflexivity.
  - destruct Hcase as (_ & _ & _ & _ & ->). reflexivity.
  - destruct Hcase as (_ & node & kc & vc & _ & _ & _ & _ & Hkf & Hvf & _ & -> & _).
    rewrite !lookup_insert_ne; [reflexivity| |]; intros <-; congruence.
Qed.

Lemma hashmap_add_all_inv hm pairs m :
  hashmap_inv valid hm m →
  Forall (λ kv, is_Some (heap m !! fst kv) ∧ valid (load m (fst kv))) pairs →
  hashmap_inv valid (fst (hashmap_add_all hm pairs m)) (snd (hashmap_add_all hm pairs m)).
Proof.
  revert hm m. induction pairs as [|[key value] rest IH]; intros hm m Hinv Hkeys; simpl.
  - exact Hinv.
  - apply Forall_cons in Hkeys as [[Hlive Hvalid] Hrest]. simpl in Hlive, Hvalid.
    destruct (hashmap_add hm key value m) as [[r hm1] m1] eqn:E.
    apply IH; [apply (hashmap_add_spec _ _ _ _ _ _ _ Hinv Hvalid E)|].
    pose proof (hashmap_add_live hm key value m r hm1 m1 Hinv Hvalid E) as Hkeep.
    eapply Forall_impl; [exact Hrest|]. intros [k v] [Hl Hv]. simpl in *.
    rewrite (load_heap_eq m m1 k), (Hkeep k Hl) by (apply Hkeep, Hl). auto.
Qed.

(** ** Insert-if-absent *)

(** C1, as the code has it.  Start from any well-formed table and run any
    sequence of [hashmap_add] calls on live, valid keys: keys on which the
    hash agrees with the compare strategy (for the default hash and compare,
    keys whose NUL terminator lies within their first [key_size] bytes).  If
    the table then holds an entry whose key equals the valid key [key] under
    the compare strategy, [hashmap_add] with [key] returns the value pointer
    of that entry and leaves the table record (its count, capacity and
    chains) and the memory (so the stored value) exactly as they were. *)
Theorem add_existing_key_keeps_binding hm0 m0 pairs hm m key value node :
  hashmap_inv valid hm0 m0 →
  Forall (λ kv, is_Some (heap m0 !! fst kv) ∧ valid (load m0 (fst kv))) pairs →
  hashmap_add_all hm0 pairs m0 = (hm, m) →
  valid (load m key) →
  node ∈ nodes hm →
  key_eq hm (load m key) (load m (node_key node)) →
  hashmap_add hm key value m = (node_value node, hm, m) ∧
  hashmap_count (snd (fst (hashmap_add hm key value m))) = hashmap_count hm ∧
  load (snd (hashmap_add hm key value m)) (node_value node) = load m (node_value node).
Proof.
  intros Hinv0 Hkeys Hrun Hvalid Hin Heq.
  pose proof (hashmap_add_all_inv hm0 pairs m0 Hinv0 Hkeys) as Hinv.
  rewrite Hrun in Hinv. simpl in Hinv. destruct Hinv as [Hinv _].
  assert (Hget : hashmap_get hm key m = node_value node)
    by (apply hashmap_get_found; assumption).
  assert (Hadd : hashmap_add hm key value m = (node_value node, hm, m)).
  { rewrite <- Hget. apply hashmap_add_present. rewrite Hget.
    apply (node_value_not_NULL hm m node Hinv Hin). }
  rewrite Hadd. auto.
Qed.

(** ** Round trip *)

Lemma hashmap_add_default_value hm key value m r hm1 m1 :
  hashmap_inv valid hm m →
  hashmap_get hm key m = NULL →
  is_Some (heap m !! value) →
  fn_alloc_copy_value hm = default_fn_alloc_copy →
  hashmap_add hm key value m = (r, hm1, m1) → r ≠ NULL →
  load m1 r = take (Z.to_nat (value_size hm)) (load m value).
Proof.
  intros [Hinv _] Hget Hlive Hdef Hadd Hr.
  rewrite (hashmap_add_absent hm key value m Hget) in Hadd. simpl in Hadd.
  pose proof (table_inv_set_count hm m (wrap (count hm + 1)) Hinv) as Hinvc.
  destruct (auto_grow_inv _ m Hinvc) as (Hinv1 & _ & Hheap1 & Hsame1 & _).
  destruct (auto_grow (set_count hm (wrap (count hm + 1))) m) as [hm1' m1'].
  simpl in *. destruct Hsame1 as (_ & Hvs & _ & _ & _ & _ & _ & _ & _ & Hcv).
  simpl in Hvs, Hcv.
  destruct (node_create hm1' key value m1') as [[node|] m2] eqn:Hnc.
  - injection Hadd as <- <- <-.
    rewrite (node_create_default_value hm1' key value m1' node m2
               (inv_strategies _ _ Hinv1)); try assumption.
    + rewrite Hvs. f_equal. apply load_heap_eq. rewrite Hheap1. reflexivity.
    + congruence.
    + rewrite Hheap1. exact Hlive.
  - injection Hadd as <- <- <-. contradiction.
Qed.

Lemma not_owned_fresh hm m p : table_inv valid hm m → heap m !! p = None → p ∉ owned hm.
Proof.
  intros Hinv Hp Hin. destruct (inv_owned_live hm m Hinv p Hin) as [_ [x Hx]]. congruence.
Qed.

(** After an insertion, a lookup with a key equal to the inserted one finds
    the new entry, in any memory that kept the buffers the table owns. *)
Lemma hashmap_get_inserted hm m key value r hm1 m1 :
  hashmap_inv valid hm m →
  valid (load m key) →
  hashmap_get hm key m = NULL →
  hashmap_add hm key value m = (r, hm1, m1) → r ≠ NULL →
  ∀ m2 key',
    (∀ p, p ∈ owned hm1 → heap m2 !! p = heap m1 !! p) →
    valid (load m2 key') →
    key_eq hm (load m2 key') (load m key) →
    hashmap_get hm1 key' m2 = r.
Proof.
  intros Hinv Hvalid Hget Hadd Hr m2 key' Hown Hvalid' Hkey'.
  destruct (hashmap_add_spec hm key value m r hm1 m1 Hinv Hvalid Hadd)
    as ([Hinv1 _] & Hsame & [Hcase|[Hcase|Hcase]]).
  { destruct Hcase as (node & Hin & Heq & _).
    exfalso.
    apply (hashmap_get_NULL hm m key (inv_table _ _ Hinv) Hvalid Hget node Hin Heq). }
  { destruct Hcase as (_ & -> & _). contradiction. }
  destruct Hcase as (_ & node & kc & vc & -> & _ & Hperm & _ & Hkf & Hvf & Hkv & Hm1 & Hkeq).
  pose proof (inv_strategies hm m (inv_table _ _ Hinv)) as Hs.
  assert (Hnode : node ∈ nodes hm1) by (rewrite Hperm; left).
  apply (hashmap_get_found hm1 m2 key' node).
  - apply (table_inv_heap hm1 m1 m2 Hinv1 Hown).
  - exact Hvalid'.
  - exact Hnode.
  - apply (key_eq_same hm hm1 _ _ Hsame).
    apply (compare_trans hm Hs _ (load m key)); [exact Hkey'|].
    replace (load m2 (node_key node)) with kc; [exact Hkeq|].
    symmetry. rewrite (owned_load hm1 m1 m2 Hown node Hnode).
    unfold load. rewrite Hm1, lookup_insert_ne by congruence.
    rewrite lookup_insert_eq. reflexivity.
Qed.

(** C2, as the code has it.  Let [hashmap_add] insert a pair whose key was
    absent, the caller's key and value buffers being live blocks of the
    caller's and the key a valid one (a key on which the hash agrees with the
    compare strategy).  Whatever happens to those two buffers afterwards,
    [hashmap_get] with any valid key that equals the inserted key (as it was
    when inserted) under the compare strategy returns the pointer
    [hashmap_add] returned; the block it addresses is the copy made at
    insertion, untouched; with the default copy strategy it holds the first
    [value_size] bytes the value buffer had at insertion. *)
Theorem add_then_get_round_trip hm m key value r hm1 m1 :
  hashmap_inv valid hm m →
  valid (load m key) →
  key ∉ owned hm → value ∉ owned hm →
  is_Some (heap m !! key) → is_Some (heap m !! value) →
  hashmap_get hm key m = NULL →
  hashmap_add hm key value m = (r, hm1, m1) → r ≠ NULL →
  ∀ m2 key',
    only_changed [key; value] m1 m2 →
    valid (load m2 key') →
    key_eq hm (load m2 key') (load m key) →
    hashmap_get hm1 key' m2 = r ∧
    load m2 r = load m1 r ∧
    (fn_alloc_copy_value hm = default_fn_alloc_copy →
     load m2 r = take (Z.to_nat (value_size hm)) (load m value)).
Proof.
  intros Hinv Hvalid Hko Hvo Hklive Hvlive Hget Hadd Hr m2 key' Hchg Hvalid' Hkey'.
  destruct (hashmap_add_spec hm key value m r hm1 m1 Hinv Hvalid Hadd)
    as ([Hinv1 _] & Hsame & [Hcase|[Hcase|Hcase]]).
  { destruct Hcase as (node & Hin & Heq & _).
    exfalso.
    apply (hashmap_get_NULL hm m key (inv_table _ _ Hinv) Hvalid Hget node Hin Heq). }
  { destruct Hcase as (_ & -> & _). contradiction. }
  destruct Hcase as (_ & node & kc & vc & -> & _ & Hperm & _ & Hkf & Hvf & Hkv & Hm1 & Hkeq).
  pose proof (inv_strategies hm m (inv_table _ _ Hinv)) as Hs.
  assert (Hne : ∀ p q, is_Some (heap m !! p) → heap m !! q = None → p ≠ q).
  { intros p q [x Hx] Hq ->. congruence. }
  assert (Hown : ∀ p, p ∈ owned hm1 → heap m2 !! p = heap m1 !! p).
  { intros p Hp. apply Hchg. rewrite (owned_cons hm hm1 node Hperm) in Hp.
    intros Hin. apply elem_of_cons in Hin as [->|Hin];
      [|apply list_elem_of_singleton in Hin as ->].
    - apply elem_of_cons in Hp as [Hp|Hp]; [apply (Hne _ _ Hklive Hkf Hp)|].
      apply elem_of_cons in Hp as [Hp|Hp]; [apply (Hne _ _ Hklive Hvf Hp)|].
      apply (Hko Hp).
    - apply elem_of_cons in Hp as [Hp|Hp]; [apply (Hne _ _ Hvlive Hkf Hp)|].
      apply elem_of_cons in Hp as [Hp|Hp]; [apply (Hne _ _ Hvlive Hvf Hp)|].
      apply (Hvo Hp). }
  assert (Hnode : node ∈ nodes hm1) by (rewrite Hperm; left).
  assert (Hval : load m2 (node_value node) = load m1 (node_value node)).
  { apply load_heap_eq, Hown, owned_elem. eauto. }
  split; [|split; [exact Hval|]].
  - apply (hashmap_get_inserted hm m key value _ hm1 m1 Hinv Hvalid Hget Hadd Hr
             m2 key' Hown Hvalid' Hkey').
  - intros Hdef. rewrite Hval.
    apply (hashmap_add_default_value hm key value m _ hm1 m1); try assumption.
Qed.

(** ** Removal of a key *)

(** C3, as the code has it.  On a well-formed table, with a valid key (a
    key on which the hash agrees with the compare strategy) in a buffer that
    is the caller's: [hashmap_remove] returns [true] exactly when the table
    holds an entry whose key equals [key], and then that entry is gone from
    the table and its buffers are released; [hashmap_get] with the same key
    then returns [NULL], and a second [hashmap_remove] returns [false] and
    changes nothing. *)
Theorem remove_deletes_the_key hm m key b hm1 m1 :
  hashmap_inv valid hm m →
  valid (load m key) →
  key ∉ owned hm →
  hashmap_remove hm key m = (b, hm1, m1) →
  (b = true ↔
   ∃ node, node ∈ nodes hm ∧ key_eq hm (load m key) (load m (node_key node))) ∧
  (b = true →
   (∃ node,
      key_eq hm (load m key) (load m (node_key node)) ∧
      nodes hm ≡ₚ node :: nodes hm1 ∧ (node ∉ nodes hm1) ∧
      heap m1 = delete (node_value node) (delete (node_key node) (heap m))) ∧
   hashmap_get hm1 key m1 = NULL ∧
   hashmap_remove hm1 key m1 = (false, hm1, m1)).
Proof.
  intros Hinv Hvalid Hko Hrem.
  destruct (hashmap_remove_spec hm key m b hm1 m1 Hinv Hvalid Hrem)
    as (Hinv1 & Hsame & [(-> & Habs & -> & ->)|(-> & current & Hin & Heq & Hperm & _ & Hm1)]).
  { split; [|discriminate]. split; [discriminate|].
    intros (node & Hn & Hk). exfalso. apply (Habs node Hn Hk). }
  split; [split; [eauto | reflexivity]|]. intros _.
  destruct Hinv as [Hinv _].
  pose proof (inv_strategies hm m Hinv) as Hs.
  pose proof (inv_owned_nodup hm m Hinv) as Hnd.
  pose proof (nodes_NoDup hm Hnd) as Hndn.
  rewrite (owned_cons hm1 hm current Hperm) in Hnd.
  apply NoDup_cons in Hnd as [Hk Hnd]. apply NoDup_cons in Hnd as [Hv _].
  rewrite Hperm in Hndn. apply NoDup_cons in Hndn as [Hcur _].
  assert (Hkey : load m1 key = load m key).
  { apply load_heap_eq. rewrite Hm1.
    rewrite !lookup_delete_ne; [reflexivity| |]; intros <-; apply Hko, owned_elem; eauto. }
  assert (Hold : ∀ p, p ∈ owned hm1 → heap m1 !! p = heap m !! p).
  { intros p Hp. rewrite Hm1. rewrite !lookup_delete_ne; [reflexivity| |].
    - intros <-. apply Hk. right. exact Hp.
    - intros <-. apply Hv. exact Hp. }
  assert (Habs : ∀ x, x ∈ nodes hm1 →
            ¬ key_eq hm1 (load m1 key) (load m1 (node_key x))).
  { intros x Hx Hc. apply (key_eq_same hm hm1 _ _ Hsame) in Hc.
    rewrite Hkey, (owned_load hm1 m m1 Hold x Hx) in Hc.
    assert (Hxin : x ∈ nodes hm) by (rewrite Hperm; right; exact Hx).
    assert (x = current) as ->; [|contradiction].
    apply (inv_unique hm m Hinv x current Hxin Hin).
    apply (compare_trans hm Hs _ (load m key)); [|exact Heq].
    apply (compare_sym hm Hs). exact Hc. }
  split; [exists current; auto|].
  split; [apply hashmap_get_absent, Habs|].
  destruct (hashmap_remove hm1 key m1) as [[b2 hm2] m2] eqn:Hrem2.
  assert (Hvalid1 : valid (load m1 key)) by (rewrite Hkey; exact Hvalid).
  destruct (hashmap_remove_spec hm1 key m1 b2 hm2 m2 Hinv1 Hvalid1 Hrem2)
    as (_ & _ & [(-> & _ & -> & ->)|(_ & x & Hx & Hxeq & _)]).
  - reflexivity.
  - exfalso. apply (Habs x Hx Hxeq).
Qed.

(** ** Resize keeps the entries *)


(** ** The resize policy *)

Lemma auto_grow_capacity hm m :
  capacity (fst (auto_grow hm m)) =
    if float_lt (load_balance_threshold_max hm) (load_balance hm) && fst (alloc_ok m)
    then clamp_capacity (get_auto_growth_new_capacity hm)
    else capacity hm.
Proof.
  unfold auto_grow.
  destruct (float_lt (load_balance_threshold_max hm) (load_balance hm)); [|reflexivity].
  destruct (fst (alloc_ok m)) eqn:Hok; simpl.
  - rewrite (resize_done _ _ _ Hok). reflexivity.
  - rewrite (resize_failed _ _ _ Hok). reflexivity.
Qed.

Lemma auto_shrink_capacity hm m :
  capacity (fst (auto_shrink hm m)) =
    if float_lt (load_balance hm) (load_balance_threshold_min hm) && fst (alloc_ok m)
    then clamp_capacity (get_auto_shrink_new_capacity hm)
    else capacity hm.
Proof.
  unfold auto_shrink.
  destruct (float_lt (load_balance hm) (load_balance_threshold_min hm)); [|reflexivity].
  destruct (fst (alloc_ok m)) eqn:Hok; simpl.
  - rewrite (resize_done _ _ _ Hok). reflexivity.
  - rewrite (resize_failed _ _ _ Hok). reflexivity.
Qed.

Lemma hashmap_add_capacity hm key value m :
  hashmap_get hm key m = NULL →
  capacity (snd (fst (hashmap_add hm key value m))) =
    capacity (fst (auto_grow (set_count hm (wrap (count hm + 1))) m)).
Proof.
  intros Hget. rewrite (hashmap_add_absent hm key value m Hget). simpl.
  destruct (node_create _ key value _) as [[node|] m2]; reflexivity.
Qed.

Lemma hashmap_remove_found hm key m current rest :
  chain_unlink hm m (load m key)
    (bucket hm (bucket_index hm (load m key) (capacity hm))) = Some (current, rest) →
  hashmap_remove hm key m =
    let index := bucket_index hm (load m key) (capacity hm) in
    let shrunk :=
      auto_shrink
        (set_count (set_table hm (<[Z.to_nat index := rest]> (table hm)))
                   (wrap (count hm - 1)))
        (node_destroy hm current m) in
    (true, fst shrunk, snd shrunk).
Proof.
  intros H. unfold hashmap_remove. rewrite H. unfold node_destroy. simpl.
  destruct (auto_shrink _ _) as [hm2 m2]. reflexivity.
Qed.

(** Under the invariant the walk of [hashmap_remove] stops at the one entry
    whose key matches. *)
Lemma chain_unlink_lookup hm m key current :
  table_inv valid hm m →
  valid (load m key) →
  lookup_entry hm m key = Some current →
  ∃ rest,
    chain_unlink hm m (load m key)
      (bucket hm (bucket_index hm (load m key) (capacity hm))) = Some (current, rest).
Proof.
  intros Hinv Hvalid Hl. unfold lookup_entry in Hl.
  apply chain_find_Some in Hl as [Hin Heq].
  pose proof (hashmap_get_found hm m key current Hinv Hvalid Hin Heq) as Hget.
  unfold hashmap_get in Hget.
  destruct (chain_unlink hm m (load m key) _) as [[found rest]|] eqn:Hun.
  - exists rest. apply chain_unlink_Some in Hun as (before & after & Hb & _ & Hfind).
    pose proof Hfind as Hfind'. apply chain_find_Some in Hfind' as [Hfin Hfeq].
    f_equal. f_equal.
    pose proof (inv_strategies hm m Hinv) as Hs.
    apply (inv_unique hm m Hinv); [|exact Hin|].
    + apply elem_of_nodes.
      pose proof (inv_capacity hm m Hinv) as Hcap. unfold HASHMAP_MINIMAL_CAPACITY in Hcap.
      exists (Z.to_nat (bucket_index hm (load m key) (capacity hm))), (before ++ found :: after).
      split; [|apply elem_of_app; right; left].
      rewrite <- Hb. apply bucket_lookup_lt. rewrite (inv_length hm m Hinv).
      apply bucket_index_lt. lia.
    + apply (compare_trans hm Hs _ (load m key)); [|exact Heq].
      apply (compare_sym hm Hs). exact Hfeq.
  - apply chain_unlink_None in Hun. rewrite Hun in Hget.
    exfalso. symmetry in Hget. apply (node_value_not_NULL hm m current Hinv Hin Hget).
Qed.

Lemma shiftr_1_half c : Z.shiftr c 1 = c / 2.
Proof. rewrite Z.shiftr_div_pow2 by lia. reflexivity. Qed.

(** C4, as the code has it.  An insertion of an absent key evaluates the grow
    rule alone, on the count it has just incremented: when the load balance
    [(float)count / capacity] exceeds the upper threshold and the new bucket
    array is obtained, the capacity becomes [capacity + capacity / 2]
    (wrapped to 64 bits), raised to the minimal capacity.  A removal of a
    present key evaluates the shrink rule alone, on the count it has just
    decremented: when the load balance is below the lower threshold and the
    new bucket array is obtained, the capacity becomes [capacity / 2], raised
    to the minimal capacity.  In every other case the capacity stays. *)
Theorem resize_policy_per_operation hm m key value :
  hashmap_inv valid hm m →
  valid (load m key) →
  (hashmap_get hm key m = NULL →
   capacity (snd (fst (hashmap_add hm key value m))) =
     if float_lt (load_balance_threshold_max hm)
          (float_div (float_of_size (wrap (count hm + 1))) (float_of_size (capacity hm)))
        && fst (alloc_ok m)
     then Z.max HASHMAP_MINIMAL_CAPACITY (wrap (capacity hm + capacity hm / 2))
     else capacity hm) ∧
  (hashmap_get hm key m ≠ NULL →
   capacity (snd (fst (hashmap_add hm key value m))) = capacity hm) ∧
  (∀ current, lookup_entry hm m key = Some current →
   capacity (snd (fst (hashmap_remove hm key m))) =
     if float_lt
          (float_div (float_of_size (wrap (count hm - 1))) (float_of_size (capacity hm)))
          (load_balance_threshold_min hm)
        && fst (alloc_ok (node_destroy hm current m))
     then Z.max HASHMAP_MINIMAL_CAPACITY (capacity hm / 2)
     else capacity hm) ∧
  (lookup_entry hm m key = None →
   capacity (snd (fst (hashmap_remove hm key m))) = capacity hm).
Proof.
  intros [Hinv _] Hvalid. split; [|split; [|split]].
  - intros Hget. rewrite (hashmap_add_capacity hm key value m Hget), auto_grow_capacity.
    unfold get_auto_growth_new_capacity. simpl. rewrite shiftr_1_half. reflexivity.
  - intros Hget. rewrite (hashmap_add_present hm key value m Hget). reflexivity.
  - intros current Hl.
    destruct (chain_unlink_lookup hm m key current Hinv Hvalid Hl) as [rest Hun].
    rewrite (hashmap_remove_found hm key m current rest Hun). simpl.
    rewrite auto_shrink_capacity. unfold get_auto_shrink_new_capacity. simpl.
    rewrite shiftr_1_half. reflexivity.
  - intros Hl. rewrite hashmap_remove_absent; [reflexivity|].
    unfold lookup_entry in Hl. rewrite chain_find_None in Hl.
    pose proof (hashmap_get_absent hm m key Hl) as Hget. unfold hashmap_get in Hget.
    destruct (chain_find hm m (load m key) _) as [node|] eqn:Hf; [|reflexivity].
    apply chain_find_Some in Hf as [Hin Heq]. exfalso.
    apply (Hl node); [|exact Heq].
    apply elem_of_nodes. unfold bucket in Hin.
    destruct (table hm !! Z.to_nat (bucket_index hm (load m key) (capacity hm)))
      as [chain|] eqn:Hc.
    + rewrite (list_lookup_total_correct _ _ _ Hc) in Hin. eauto.
    + rewrite list_lookup_total_alt, Hc in Hin. inversion Hin.
Qed.

(** ** Failure of entry creation *)


(** ** Failure of the bucket array allocation *)

Lemma auto_grow_alloc_failed hm m :
  float_lt (load_balance_threshold_max hm) (load_balance hm) = true →
  fst (alloc_ok m) = false →
  auto_grow hm m = (hm, snd (alloc_ok m)).
Proof. intros Hf Hok. unfold auto_grow. rewrite Hf. apply resize_failed, Hok. Qed.

Lemma auto_shrink_alloc_failed hm m :
  float_lt (load_balance hm) (load_balance_threshold_min hm) = true →
  fst (alloc_ok m) = false →
  auto_shrink hm m = (hm, snd (alloc_ok m)).
Proof. intros Hf Hok. unfold auto_shrink. rewrite Hf. apply resize_failed, Hok. Qed.

(** C7.  Let the resize triggered by an operation fail to obtain its new
    bucket array.  An insertion of an absent key whose entry can be created
    then returns the new value pointer: the entry is pushed on its bucket
    under the old capacity, the bucket array keeps its other chains, the count
    is incremented and the key is found.  A removal of a present key returns
    [true]: the entry is unlinked under the old capacity and the count is
    decremented. *)
Theorem resize_failure_is_absorbed hm m key value :
  hashmap_inv valid hm m →
  valid (load m key) →
  (hashmap_get hm key m = NULL →
   is_Some (heap m !! key) →
   float_lt (load_balance_threshold_max hm)
     (float_div (float_of_size (wrap (count hm + 1))) (float_of_size (capacity hm))) = true →
   fst (alloc_ok m) = false →
   ∀ node m2,
     node_create (set_count hm (wrap (count hm + 1))) key value (snd (alloc_ok m))
       = (Some node, m2) →
     let index := bucket_index hm (load m key) (capacity hm) in
     let hm' :=
       set_table (set_count hm (wrap (count hm + 1)))
         (<[Z.to_nat index := node :: bucket hm index]> (table hm)) in
     hashmap_add hm key value m = (node_value node, hm', m2) ∧
     node_value node ≠ NULL ∧
     capacity hm' = capacity hm ∧
     nodes hm' ≡ₚ node :: nodes hm ∧
     hashmap_get hm' key m2 = node_value node) ∧
  (∀ current,
     lookup_entry hm m key = Some current →
     float_lt
       (float_div (float_of_size (wrap (count hm - 1))) (float_of_size (capacity hm)))
       (load_balance_threshold_min hm) = true →
     fst (alloc_ok (node_destroy hm current m)) = false →
     ∃ rest,
       let index := bucket_index hm (load m key) (capacity hm) in
       let hm' :=
         set_count (set_table hm (<[Z.to_nat index := rest]> (table hm)))
                   (wrap (count hm - 1)) in
       hashmap_remove hm key m = (true, hm', snd (alloc_ok (node_destroy hm current m))) ∧
       capacity hm' = capacity hm ∧
       nodes hm ≡ₚ current :: nodes hm').
Proof.
  intros Hinv Hvalid. split.
  - intros Hget Hlive Hfire Hok node m2 Hnc index hm'.
    assert (Hadd : hashmap_add hm key value m = (node_value node, hm', m2)).
    { rewrite (hashmap_add_absent hm key value m Hget).
      rewrite (auto_grow_alloc_failed (set_count hm (wrap (count hm + 1))) m Hfire Hok).
      simpl. rewrite Hnc.
      unfold hm', index.
      rewrite (load_heap_eq m (snd (alloc_ok m)) key) by (rewrite alloc_ok_heap; reflexivity).
      reflexivity. }
    assert (Hpush : nodes hm' ≡ₚ node :: nodes hm).
    { unfold nodes, hm', index, bucket. simpl. apply concat_insert_cons.
      pose proof (inv_capacity hm m (inv_table _ _ Hinv)) as Hcap.
      unfold HASHMAP_MINIMAL_CAPACITY in Hcap.
      rewrite (inv_length hm m (inv_table _ _ Hinv)). apply bucket_index_lt. lia. }
    destruct (hashmap_add_spec hm key value m _ hm' m2 Hinv Hvalid Hadd)
      as (Hinv' & Hsame & [Hcase|[Hcase|Hcase]]).
    { destruct Hcase as (x & Hin & Heq & _). exfalso.
      apply (hashmap_get_NULL hm m key (inv_table _ _ Hinv) Hvalid Hget x Hin Heq). }
    { destruct Hcase as (_ & _ & Hperm & _). exfalso.
      rewrite Hpush in Hperm. apply Permutation_length in Hperm. simpl in Hperm. lia. }
    destruct Hcase as (_ & x & kc & vc & Hx & Hne & Hperm & _ & Hkf & Hvf & _ & Hm2 & Hkeq).
    pose proof (inv_strategies hm m (inv_table _ _ Hinv)) as Hs.
    split; [exact Hadd|]. split; [exact Hne|]. split; [reflexivity|].
    split; [exact Hpush|].
    + assert (Hkeep : load m2 key = load m key).
      { apply load_heap_eq. rewrite Hm2. destruct Hlive as [bs Hbs].
        rewrite !lookup_insert_ne; [reflexivity| |]; intros <-; congruence. }
      apply (hashmap_get_inserted hm m key value _ hm' m2 Hinv Hvalid Hget Hadd Hne m2 key).
      * reflexivity.
      * rewrite Hkeep. exact Hvalid.
      * rewrite Hkeep.
        apply (compare_trans hm Hs _ kc); [exact Hkeq|].
        apply (compare_sym hm Hs). exact Hkeq.
  - intros current Hl Hfire Hok.
    destruct (chain_unlink_lookup hm m key current (inv_table _ _ Hinv) Hvalid Hl)
      as [rest Hun].
    exists rest. intros index hm'.
    assert (Hrem : hashmap_remove hm key m
                   = (true, hm', snd (alloc_ok (node_destroy hm current m)))).
    { rewrite (hashmap_remove_found hm key m current rest Hun). cbv zeta.
      fold index. fold hm'.
      rewrite (auto_shrink_alloc_failed hm' (node_destroy hm current m) Hfire Hok).
      reflexivity. }
    split; [exact Hrem|]. split; [reflexivity|].
    unfold nodes, hm', index. simpl.
    apply chain_unlink_Some in Hun as (before & after & Hb & -> & _).
    apply concat_insert_unlink. rewrite <- Hb. apply bucket_lookup_lt.
    pose proof (inv_capacity hm m (inv_table _ _ Hinv)) as Hcap.
    unfold HASHMAP_MINIMAL_CAPACITY in Hcap.
    rewrite (inv_length hm m (inv_table _ _ Hinv)). apply bucket_index_lt. lia.
Qed.

(** ** When every allocation is granted *)

Lemma default_strategies_same hm hm' :
  same_settings hm hm' → default_strategies hm → default_strategies hm'.
Proof.
  intros (_ & _ & _ & _ & _ & Hc & Hdk & Hdv & Hck & Hcv) (H1 & H2 & H3 & H4 & H5).
  unfold default_strategies. rewrite Hc, Hdk, Hdv, Hck, Hcv. auto.
Qed.

Lemma alloc_ok_granted m : oracle m = [] → alloc_ok m = (true, m).
Proof. intros H. unfold alloc_ok. rewrite H. reflexivity. Qed.

Lemma resize_granted hm c m : oracle m = [] → snd (resize hm c m) = m.
Proof. intros H. unfold resize. rewrite (alloc_ok_granted m H). reflexivity. Qed.

Lemma auto_grow_granted hm m : oracle m = [] → snd (auto_grow hm m) = m.
Proof.
  intros H. unfold auto_grow. destruct (float_lt _ _); [|reflexivity].
  apply resize_granted, H.
Qed.

Lemma auto_shrink_granted hm m : oracle m = [] → snd (auto_shrink hm m) = m.
Proof.
  intros H. unfold auto_shrink. destruct (float_lt _ _); [|reflexivity].
  apply resize_granted, H.
Qed.

Lemma malloc_init_granted bs m :
  oracle m = [] →
  fst (malloc_init bs m) ≠ NULL ∧ oracle (snd (malloc_init bs m)) = [].
Proof.
  intros H. unfold malloc_init. rewrite (alloc_ok_granted m H). simpl.
  split; [apply fresh_ptr_fresh | exact H].
Qed.

Lemma node_create_granted hm key value m :
  default_strategies hm → oracle m = [] →
  ∃ node m', node_create hm key value m = (Some node, m') ∧ oracle m' = [].
Proof.
  intros (_ & Hck & Hcv & _) H. unfold node_create.
  rewrite (alloc_ok_granted m H), Hck, Hcv. unfold default_fn_alloc_copy.
  destruct (malloc_init_granted (take (Z.to_nat (key_size hm)) (load m key)) m H)
    as [Hk Hok].
  destruct (malloc_init _ m) as [k m1]. simpl in Hk, Hok.
  destruct (N.eqb_spec k NULL) as [|_]; [contradiction|].
  destruct (malloc_init_granted (take (Z.to_nat (value_size hm)) (load m1 value)) m1 Hok)
    as [Hv Hok2].
  destruct (malloc_init _ m1) as [v m2]. simpl in Hv, Hok2.
  destruct (N.eqb_spec v NULL) as [|_]; [contradiction|].
  eauto.
Qed.

Lemma hashmap_remove_granted hm key m :
  default_strategies hm → oracle m = [] →
  oracle (snd (hashmap_remove hm key m)) = [].
Proof.
  intros (_ & _ & _ & Hdk & Hdv) H. unfold hashmap_remove.
  destruct (chain_unlink hm m (load m key) _) as [[current rest]|]; [|exact H].
  unfold node_destroy. simpl. rewrite Hdk, Hdv.
  destruct (auto_shrink _ _) as [hm2 m2] eqn:E. simpl.
  change m2 with (snd (hm2, m2)). rewrite <- E.
  rewrite auto_shrink_granted; reflexivity || exact H.
Qed.

(** With the default strategies and every allocation granted, the insertion
    of a valid key that no entry equals succeeds.  The capacity follows the
    grow rule and the new entry joins the others. *)
Lemma hashmap_add_granted hm key value m :
  hashmap_inv valid hm m → default_strategies hm → oracle m = [] →
  valid (load m key) →
  (∀ x, x ∈ nodes hm → ¬ key_eq hm (load m key) (load m (node_key x))) →
  ∃ node hm' m',
    hashmap_add hm key value m = (node_value node, hm', m') ∧
    node_value node ≠ NULL ∧
    hashmap_inv valid hm' m' ∧ same_settings hm hm' ∧ oracle m' = [] ∧
    nodes hm' ≡ₚ node :: nodes hm ∧
    count hm' = wrap (count hm + 1) ∧
    capacity hm' =
      (if float_lt (load_balance_threshold_max hm)
            (float_div (float_of_size (wrap (count hm + 1))) (float_of_size (capacity hm)))
       then clamp_capacity (get_auto_growth_new_capacity hm)
       else capacity hm) ∧
    key_eq hm (load m key) (load m' (node_key node)) ∧
    heap m !! node_key node = None ∧ heap m !! node_value node = None ∧
    (∀ p, is_Some (heap m !! p) → heap m' !! p = heap m !! p).
Proof.
  intros Hinv Hdef Hor Hvalid Habs.
  assert (Hget : hashmap_get hm key m = NULL) by (apply hashmap_get_absent, Habs).
  pose proof (hashmap_add_capacity hm key value m Hget) as Hcap.
  rewrite auto_grow_capacity, (alloc_ok_granted m Hor), andb_true_r in Hcap.
  pose proof (hashmap_add_absent hm key value m Hget) as Hadd. simpl in Hadd.
  pose proof (auto_grow_granted (set_count hm (wrap (count hm + 1))) m Hor) as Hm1.
  destruct (auto_grow_inv _ m (table_inv_set_count hm m (wrap (count hm + 1))
                                  (inv_table _ _ Hinv))) as (Hinv1 & _ & _ & Hsame1 & _).
  destruct (auto_grow (set_count hm (wrap (count hm + 1))) m) as [hm1 m1].
  simpl in Hm1, Hsame1, Hinv1, Hadd. subst m1.
  assert (Hdef1 : default_strategies hm1).
  { apply (default_strategies_same (set_count hm (wrap (count hm + 1)))); assumption. }
  destruct (node_create_granted hm1 key value m Hdef1 Hor) as (node & m' & Hnc & Hor').
  pose proof (node_create_spec hm1 key value m (inv_strategies _ _ Hinv1)) as Hspec.
  rewrite Hnc in Hspec. destruct Hspec as (_ & Hvne & _).
  rewrite Hnc in Hadd.
  set (hm' := set_table hm1 _) in Hadd.
  rewrite Hadd in Hcap. simpl in Hcap.
  destruct (hashmap_add_spec hm key value m _ hm' m' Hinv Hvalid Hadd)
    as (Hinv' & Hsame & [Hcase|[Hcase|Hcase]]).
  { destruct Hcase as (x & Hin & Heq & _). exfalso. apply (Habs x Hin Heq). }
  { destruct Hcase as (_ & Hnull & _). contradiction. }
  destruct Hcase
    as (_ & x & kc & vc & Hx & _ & Hperm & Hcount & Hkf & Hvf & Hkv & Hm' & Hkeq).
  rewrite Hx in Hadd, Hvne. exists x, hm', m'.
  split; [exact Hadd|]. split; [exact Hvne|]. split; [exact Hinv'|].
  split; [exact Hsame|]. split; [exact Hor'|]. split; [exact Hperm|].
  split; [exact Hcount|]. split; [exact Hcap|]. split.
  { unfold load at 2. rewrite Hm', lookup_insert_ne by (symmetry; exact Hkv).
    rewrite lookup_insert_eq. exact Hkeq. }
  split; [exact Hkf|]. split; [exact Hvf|].
  intros p [bs Hp]. rewrite Hm', !lookup_insert_ne; [reflexivity| |]; intros <-; congruence.
Qed.

(** *** Following the caller's keys *)

Lemma tracks_absent hm0 m0 hm m bindings key :
  tracks valid hm0 m0 hm m bindings →
  is_Some (heap m0 !! key) →
  Forall (λ b, ¬ key_eq hm0 (load m0 key) (load m0 b.1)) bindings →
  ∀ x, x ∈ nodes hm → ¬ key_eq hm (load m key) (load m (node_key x)).
Proof.
  intros (Hinv & Hsame & _ & Hperm & Hlive & _ & Hkeys) Hkey Hdiff x Hx Heq.
  pose proof (inv_strategies _ _ (inv_table _ _ Hinv)) as Hs.
  rewrite Hperm in Hx. apply list_elem_of_fmap in Hx as ([k n] & -> & Hb).
  rewrite Forall_forall in Hdiff, Hkeys.
  apply (Hdiff _ Hb). specialize (Hkeys _ Hb). simpl in *.
  apply (key_eq_same hm0 hm _ _ Hsame).
  apply (key_eq_same hm0 hm _ _ Hsame) in Hkeys.
  rewrite (load_heap_eq m0 m key (Hlive key Hkey)) in Heq.
  apply (compare_trans hm Hs _ (load m (node_key n))); [exact Heq|].
  apply (compare_sym hm Hs). exact Hkeys.
Qed.

Lemma tracks_add hm0 m0 hm m bindings key value :
  tracks valid hm0 m0 hm m bindings →
  default_strategies hm0 →
  is_Some (heap m0 !! key) → valid (load m0 key) →
  Forall (λ b, ¬ key_eq hm0 (load m0 key) (load m0 b.1)) bindings →
  ∃ node hm' m',
    hashmap_add hm key value m = (node_value node, hm', m') ∧
    node_value node ≠ NULL ∧
    tracks valid hm0 m0 hm' m' ((key, node) :: bindings) ∧
    count hm' = wrap (count hm + 1) ∧
    capacity hm' =
      (if float_lt (load_balance_threshold_max hm0)
            (float_div (float_of_size (wrap (count hm + 1))) (float_of_size (capacity hm)))
       then clamp_capacity (get_auto_growth_new_capacity hm)
       else capacity hm).
Proof.
  intros Htr Hdef Hkey Hvalid Hdiff.
  pose proof (tracks_absent hm0 m0 hm m bindings key Htr Hkey Hdiff) as Habs.
  destruct Htr as (Hinv & Hsame & Hor & Hperm & Hlive & Hfresh & Hkeys).
  pose proof (load_heap_eq m0 m key (Hlive key Hkey)) as Hload.
  destruct (hashmap_add_granted hm key value m Hinv
              (default_strategies_same hm0 hm Hsame Hdef) Hor)
    as (node & hm' & m' & Hadd & Hne & Hinv' & Hsame' & Hor' & Hperm' & Hcount & Hcap
        & Hkeq & Hkf & Hvf & Hlive'); [rewrite Hload; exact Hvalid | exact Habs |].
  exists node, hm', m'.
  split; [exact Hadd|]. split; [exact Hne|]. split; [|split; [exact Hcount|]].
  2:{ rewrite Hcap. destruct Hsame as (_ & _ & _ & -> & _). reflexivity. }
  split; [exact Hinv'|]. split; [apply (same_settings_trans hm0 hm hm'); assumption|].
  split; [exact Hor'|]. split; [rewrite Hperm', Hperm; reflexivity|].
  assert (Hlive0 : ∀ p, is_Some (heap m0 !! p) → heap m' !! p = heap m0 !! p).
  { intros p Hp. rewrite <- (Hlive p Hp). apply Hlive'. rewrite (Hlive p Hp). exact Hp. }
  split; [exact Hlive0|]. split.
  - intros p Hp. rewrite (owned_cons hm hm' node Hperm') in Hp.
    destruct (heap m0 !! p) as [bs|] eqn:Hm0; [exfalso|reflexivity].
    assert (Hp0 : heap m !! p = Some bs) by (rewrite <- Hm0; apply Hlive; eauto).
    apply elem_of_cons in Hp as [->|Hp]; [congruence|].
    apply elem_of_cons in Hp as [->|Hp]; [congruence|].
    rewrite (Hfresh p Hp) in Hm0. discriminate Hm0.
  - constructor.
    + simpl. apply (key_eq_same hm0 hm _ _ Hsame). rewrite <- Hload. exact Hkeq.
    + rewrite Forall_forall in Hkeys |- *. intros [k n] Hb. specialize (Hkeys _ Hb).
      simpl in *. rewrite (load_heap_eq m m' (node_key n)); [exact Hkeys|].
      apply Hlive'. apply (inv_owned_live hm m (inv_table _ _ Hinv)).
      apply owned_elem. exists n. split; [|left; reflexivity].
      rewrite Hperm. apply list_elem_of_fmap. exists (k, n). auto.
Qed.

Lemma tracks_get hm0 m0 hm m bindings key node :
  tracks valid hm0 m0 hm m bindings →
  is_Some (heap m0 !! key) → valid (load m0 key) →
  (key, node) ∈ bindings →
  hashmap_get hm key m = node_value node ∧ node_value node ≠ NULL.
Proof.
  intros (Hinv & Hsame & _ & Hperm & Hlive & _ & Hkeys) Hkey Hvalid Hb.
  pose proof (load_heap_eq m0 m key (Hlive key Hkey)) as Hload.
  assert (Hin : node ∈ nodes hm).
  { rewrite Hperm. apply list_elem_of_fmap. exists (key, node). auto. }
  split; [|apply (node_value_not_NULL hm m node (inv_table _ _ Hinv) Hin)].
  apply hashmap_get_found; [apply Hinv | rewrite Hload; exact Hvalid | exact Hin |].
  rewrite Forall_forall in Hkeys. specialize (Hkeys _ Hb). simpl in Hkeys.
  rewrite Hload. apply (key_eq_same hm0 hm _ _ Hsame). exact Hkeys.
Qed.

Lemma tracks_get_absent hm0 m0 hm m bindings key :
  tracks valid hm0 m0 hm m bindings →
  is_Some (heap m0 !! key) →
  Forall (λ b, ¬ key_eq hm0 (load m0 key) (load m0 b.1)) bindings →
  hashmap_get hm key m = NULL.
Proof.
  intros Htr Hkey Hdiff. apply hashmap_get_absent.
  apply (tracks_absent hm0 m0 hm m bindings key Htr Hkey Hdiff).
Qed.

Lemma lookup_entry_found hm m key current :
  table_inv valid hm m → valid (load m key) → current ∈ nodes hm →
  key_eq hm (load m key) (load m (node_key current)) →
  lookup_entry hm m key = Some current.
Proof.
  intros Hinv Hvalid Hin Heq. unfold lookup_entry.
  pose proof (inv_strategies hm m Hinv) as Hs.
  destruct (chain_find hm m (load m key) (nodes hm)) as [x|] eqn:Hf.
  - apply chain_find_Some in Hf as [Hx Hxeq]. f_equal.
    apply (inv_unique hm m Hinv x current Hx Hin).
    apply (compare_trans hm Hs _ (load m key)); [|exact Heq].
    apply (compare_sym hm Hs). exact Hxeq.
  - exfalso. rewrite chain_find_None in Hf. apply (Hf current Hin Heq).
Qed.

(** The capacity after the removal of an entry, when the allocation of the
    shrunk bucket array is granted. *)
Lemma hashmap_remove_granted_capacity hm m key current :
  table_inv valid hm m → default_strategies hm → oracle m = [] →
  valid (load m key) → current ∈ nodes hm →
  key_eq hm (load m key) (load m (node_key current)) →
  fst (fst (hashmap_remove hm key m)) = true ∧
  capacity (snd (fst (hashmap_remove hm key m))) =
    if float_lt
         (float_div (float_of_size (wrap (count hm - 1))) (float_of_size (capacity hm)))
         (load_balance_threshold_min hm)
    then clamp_capacity (get_auto_shrink_new_capacity hm)
    else capacity hm.
Proof.
  intros Hinv (_ & _ & _ & Hdk & Hdv) Hor Hvalid Hin Heq.
  pose proof (lookup_entry_found hm m key current Hinv Hvalid Hin Heq) as Hl.
  destruct (chain_unlink_lookup hm m key current Hinv Hvalid Hl) as [rest Hun].
  rewrite (hashmap_remove_found hm key m current rest Hun). simpl.
  split; [reflexivity|].
  rewrite auto_shrink_capacity.
  unfold node_destroy. rewrite Hdk, Hdv.
  rewrite alloc_ok_granted by exact Hor. rewrite andb_true_r. reflexivity.
Qed.

Lemma tracks_remove hm0 m0 hm m bindings key node rest :
  tracks valid hm0 m0 hm m bindings →
  default_strategies hm0 →
  is_Some (heap m0 !! key) → valid (load m0 key) →
  bindings ≡ₚ (key, node) :: rest →
  ∃ hm' m',
    hashmap_remove hm key m = (true, hm', m') ∧
    tracks valid hm0 m0 hm' m' rest ∧
    count hm' = wrap (count hm - 1) ∧
    capacity hm' =
      (if float_lt
            (float_div (float_of_size (wrap (count hm - 1))) (float_of_size (capacity hm)))
            (load_balance_threshold_min hm0)
       then clamp_capacity (get_auto_shrink_new_capacity hm)
       else capacity hm).
Proof.
  intros Htr Hdef Hkey Hvalid Hb.
  assert (Hbin : (key, node) ∈ bindings) by (rewrite Hb; left).
  destruct (tracks_get hm0 m0 hm m bindings key node Htr Hkey Hvalid Hbin) as [_ _].
  destruct Htr as (Hinv & Hsame & Hor & Hperm & Hlive & Hfresh & Hkeys).
  pose proof (load_heap_eq m0 m key (Hlive key Hkey)) as Hload.
  pose proof (default_strategies_same hm0 hm Hsame Hdef) as Hdef'.
  pose proof (inv_strategies _ _ (inv_table _ _ Hinv)) as Hs.
  assert (Hin : node ∈ nodes hm).
  { rewrite Hperm. apply list_elem_of_fmap. exists (key, node). auto. }
  assert (Heq : key_eq hm (load m key) (load m (node_key node))).
  { rewrite Forall_forall in Hkeys. specialize (Hkeys _ Hbin). simpl in Hkeys.
    rewrite Hload. apply (key_eq_same hm0 hm _ _ Hsame). exact Hkeys. }
  assert (Hvalid' : valid (load m key)) by (rewrite Hload; exact Hvalid).
  destruct (hashmap_remove_granted_capacity hm m key node (inv_table _ _ Hinv)
              Hdef' Hor Hvalid' Hin Heq) as [Htrue Hcap].
  pose proof (hashmap_remove_granted hm key m Hdef' Hor) as Hor'.
  destruct (hashmap_remove hm key m) as [[b hm'] m'] eqn:Hrem.
  simpl in Htrue, Hcap, Hor'. subst b.
  destruct (hashmap_remove_spec hm key m true hm' m' Hinv Hvalid' Hrem)
    as (Hinv' & Hsame' & [[Hfalse _]|(_ & current & Hcin & Hceq & Hcperm & Hcount & Hm')]);
    [discriminate Hfalse|].
  assert (current = node) as ->.
  { apply (inv_unique hm m (inv_table _ _ Hinv) current node Hcin Hin).
    apply (compare_trans hm Hs _ (load m key)); [|exact Heq].
    apply (compare_sym hm Hs). exact Hceq. }
  assert (Hperm' : nodes hm' ≡ₚ rest.*2).
  { apply (Permutation_cons_inv (a := node)).
    rewrite <- Hcperm, Hperm, Hb. reflexivity. }
  exists hm', m'. split; [reflexivity|]. split; [|split; [exact Hcount|]].
  2:{ rewrite Hcap. destruct Hsame as (_ & _ & -> & _). reflexivity. }
  assert (Hsub : ∀ p, p ∈ owned hm' → p ∈ owned hm).
  { intros p Hp. apply owned_elem in Hp as (x & Hx & Hp). apply owned_elem.
    exists x. split; [|exact Hp]. rewrite Hcperm. right. exact Hx. }
  split; [exact Hinv'|]. split; [apply (same_settings_trans hm0 hm hm'); assumption|].
  split; [exact Hor'|]. split; [exact Hperm'|]. split; [|split].
  - intros p Hp. rewrite Hm', <- (Hlive p Hp).
    assert (Hown : ∀ q, q ∈ owned hm → q ≠ p).
    { intros q Hq ->. rewrite (Hfresh p Hq) in Hp. destruct Hp as [? Hp]. discriminate Hp. }
    rewrite !lookup_delete_ne; [reflexivity| |]; apply Hown, owned_elem; exists node; auto.
  - intros p Hp. apply Hfresh, Hsub, Hp.
  - rewrite Forall_forall in Hkeys |- *. intros [k n] Hkn.
    assert (Hkn' : (k, n) ∈ bindings) by (rewrite Hb; right; exact Hkn).
    specialize (Hkeys _ Hkn'). simpl in *.
    rewrite (load_heap_eq m m' (node_key n)); [exact Hkeys|].
    assert (Hn : node_key n ∈ owned hm').
    { apply owned_elem. exists n. split; [|left; reflexivity].
      rewrite Hperm'. apply list_elem_of_fmap. exists (k, n). auto. }
    destruct (inv_owned_live hm' m' (inv_table _ _ Hinv') _ Hn) as [_ [bs Hbs]].
    rewrite Hm' in Hbs |- *.
    apply lookup_delete_Some in Hbs as [Hv Hbs].
    apply lookup_delete_Some in Hbs as [Hk Hbs].
    rewrite !lookup_delete_ne by assumption. reflexivity.
Qed.

Lemma hashmap_create_granted c hash_fn ks vs m :
  0 < ks → 0 < vs → oracle m = [] →
  ∃ hm,
    hashmap_create c hash_fn ks vs m = Returned (Some hm, m) ∧
    default_strategies hm ∧
    load_balance_threshold_min hm = HASHMAP_DEFAULT_LOAD_BALANCE_THRESHOLD_MIN ∧
    load_balance_threshold_max hm = HASHMAP_DEFAULT_LOAD_BALANCE_THRESHOLD_MAX ∧
    key_size hm = ks.
Proof.
  intros Hks Hvs Hor. unfold hashmap_create.
  destruct (Z.ltb_spec 0 ks) as [_|]; [|lia].
  destruct (Z.ltb_spec 0 vs) as [_|]; [|lia]. simpl.
  rewrite (alloc_ok_granted m Hor). rewrite (alloc_ok_granted m Hor).
  eexists. split; [reflexivity|]. repeat split.
Qed.

Lemma with_oracle_inv hm m o :
  hashmap_inv valid hm m → hashmap_inv valid hm (with_oracle o m).
Proof.
  intros [Hinv Hc]. split; [|exact Hc].
  apply (table_inv_heap hm m _ Hinv). reflexivity.
Qed.

End Engine.

(** ** The djb2 hash *)

Lemma djb2_step hash c :
  wrap (wrap (wrap (Z.shiftl hash 5) + hash) + char_value c)
  = wrap (hash * 33 + char_value c).
Proof.
  unfold wrap. rewrite Z.shiftl_mul_pow2 by lia.
  rewrite Zplus_mod_idemp_l, <- Z.add_assoc, Zplus_mod_idemp_l. f_equal. lia.
Qed.

Lemma djb2_loop_spec str hash :
  djb2_loop str hash
  = (λ s, fold_left (λ hash c, wrap (hash * 33 + char_value c)) s hash) <$> c_string str.
Proof.
  revert hash. induction str as [|c str IH]; intros hash; simpl; [reflexivity|].
  destruct (is_nul c); [reflexivity|].
  rewrite IH, djb2_step. destruct (c_string str); reflexivity.
Qed.

Lemma djb2_c_string key size :
  hashmap_fn_hash_djb2 key size = djb2_fold <$> c_string key.
Proof.
  unfold hashmap_fn_hash_djb2, djb2_fold. rewrite djb2_loop_spec.
  destruct (c_string key); reflexivity.
Qed.

Lemma djb2_fold_range s : 0 ≤ djb2_fold s < 2 ^ size_bits.
Proof.
  unfold djb2_fold.
  assert (Hseed : 0 ≤ 5381 < 2 ^ size_bits) by (split; [lia | reflexivity]).
  revert Hseed. generalize 5381. induction s as [|c s IH]; intros h Hh; simpl.
  - exact Hh.
  - apply IH. apply wrap_range.
Qed.

(** C9, as the code has it.  [hashmap_fn_hash_djb2] starts from 5381 and folds
    [hash = hash * 33 + c], wrapping at 64 bits, over the characters that
    precede the first NUL byte of the key, whatever [size] is: the size
    argument is not read.  A key without a NUL byte has no defined hash. *)
Theorem djb2_hashes_up_to_the_terminator key size :
  hashmap_fn_hash_djb2 key size = djb2_fold <$> c_string key ∧
  (∀ size', hashmap_fn_hash_djb2 key size' = hashmap_fn_hash_djb2 key size) ∧
  (∀ hash, hashmap_fn_hash_djb2 key size = Some hash → 0 ≤ hash < 2 ^ size_bits).
Proof.
  split; [apply djb2_c_string|]. split; [reflexivity|].
  intros hash. rewrite djb2_c_string. destruct (c_string key) as [s|]; [|discriminate].
  simpl. intros [= <-]. apply djb2_fold_range.
Qed.

(** A fixed-width key with a zero byte inside is not hashed over its
    [key_size] bytes: the four bytes 41 00 42 00 hash as the text "A". *)
Lemma djb2_stops_inside_fixed_width_key :
  hashmap_fn_hash_djb2 ["A"; "000"; "B"; "000"]%byte 4
  ≠ Some (djb2_fold (take 4 ["A"; "000"; "B"; "000"]%byte)).
Proof. vm_compute. discriminate. Qed.

(** ** The default configuration on text keys *)

Lemma c_string_take n key s : c_string (take n key) = Some s → c_string key = Some s.
Proof.
  revert key s. induction n as [|n IH]; intros [|c key] s; simpl; try discriminate.
  destruct (is_nul c); [auto|].
  destruct (c_string (take n key)) as [t|] eqn:Ht; [|discriminate].
  rewrite (IH key t Ht). auto.
Qed.

Lemma text_key_take ks key : text_key ks key → text_key ks (take (Z.to_nat ks) key).
Proof. unfold text_key. rewrite take_take, Nat.min_id. auto. Qed.

(** On text keys that fit in [key_size] bytes, the djb2 hash only depends on
    these bytes: it agrees with the byte-wise compare. *)
Lemma djb2_text_key ks a b :
  text_key ks a → text_key ks b →
  take (Z.to_nat ks) a = take (Z.to_nat ks) b →
  HASH_FUNC_DEFAULT a ks = HASH_FUNC_DEFAULT b ks.
Proof.
  unfold text_key, HASH_FUNC_DEFAULT, HASH_FUNC_DJB2. intros [s Ha] [t Hb] Heq.
  rewrite !djb2_c_string.
  rewrite Heq in Ha. rewrite Ha in Hb. injection Hb as <-.
  rewrite (c_string_take _ b s Ha).
  rewrite <- Heq in Ha. rewrite (c_string_take _ a s Ha). reflexivity.
Qed.

(** A table just created with the default hash is well formed for text keys. *)
Lemma hashmap_create_default_inv c ks vs m hm m' :
  0 ≤ c < 2 ^ size_bits →
  hashmap_create c None ks vs m = Returned (Some hm, m') →
  hashmap_inv (text_key ks) hm m' ∧ nodes hm = [] ∧ count hm = 0 ∧
  capacity hm = clamp_capacity (if c =? 0 then HASHMAP_DEFAULT_CAPACITY else c).
Proof.
  intros Hc Hcreate.
  apply (hashmap_create_inv c None ks vs m hm m' Hc); [| |exact Hcreate].
  - intros a b. apply djb2_text_key.
  - apply text_key_take.
Qed.

(** ** The sample tables *)

Lemma sample_table_created c :
  HASHMAP_MINIMAL_CAPACITY ≤ c →
  hashmap_create c None 2 4 sample_mem = Returned (Some (sample_table c), sample_mem).
Proof.
  intros Hc. unfold hashmap_create, sample_table, HASHMAP_MINIMAL_CAPACITY in *. simpl.
  destruct (Z.eqb_spec c 0) as [|_]; [lia|].
  destruct (Z.ltb_spec c 2) as [|_]; [lia|]. reflexivity.
Qed.

Lemma sample_table_inv c :
  HASHMAP_MINIMAL_CAPACITY ≤ c < 2 ^ size_bits →
  hashmap_inv (text_key 2) (sample_table c) sample_mem.
Proof.
  intros Hc.
  apply (hashmap_create_default_inv c 2 4 sample_mem (sample_table c) sample_mem).
  - unfold HASHMAP_MINIMAL_CAPACITY in Hc. lia.
  - apply sample_table_created, Hc.
Qed.

Lemma sample_capacity_2 : HASHMAP_MINIMAL_CAPACITY ≤ 2 < 2 ^ size_bits.
Proof. unfold HASHMAP_MINIMAL_CAPACITY. split; [lia | reflexivity]. Qed.

Lemma sample_capacity_4 : HASHMAP_MINIMAL_CAPACITY ≤ 4 < 2 ^ size_bits.
Proof. unfold HASHMAP_MINIMAL_CAPACITY. split; [lia | reflexivity]. Qed.

Lemma sample_capacity_16 : HASHMAP_MINIMAL_CAPACITY ≤ 16 < 2 ^ size_bits.
Proof. unfold HASHMAP_MINIMAL_CAPACITY. split; [lia | reflexivity]. Qed.

Lemma sample_key_a : text_key 2 (load sample_mem 1%N).
Proof. vm_compute. eauto. Qed.

Lemma sample_one_inv : hashmap_inv (text_key 2) (snd (fst sample_one)) (snd sample_one).
Proof.
  pose proof (sample_table_inv 2 sample_capacity_2) as Hinv.
  destruct sample_one as [[r hm] m] eqn:E.
  apply (hashmap_add_spec _ _ _ _ _ _ _ Hinv sample_key_a E).
Qed.

Lemma sample_wide_inv : hashmap_inv (text_key 2) (snd (fst sample_wide)) (snd sample_wide).
Proof.
  pose proof (sample_table_inv 4 sample_capacity_4) as Hinv.
  destruct sample_wide as [[r hm] m] eqn:E.
  apply (hashmap_add_spec _ _ _ _ _ _ _ Hinv sample_key_a E).
Qed.

Lemma sample_one_eq : sample_one = (6%N, snd (fst sample_one), snd sample_one).
Proof.
  assert (E : fst (fst sample_one) = 6%N) by (vm_compute; reflexivity).
  destruct sample_one as [[r hm] m]. simpl in *. rewrite E. reflexivity.
Qed.

Lemma sample_one_key_a : text_key 2 (load (snd sample_one) 1%N).
Proof. vm_compute. eauto. Qed.

Lemma sample_one_key_b : text_key 2 (load (snd sample_one) 2%N).
Proof. vm_compute. eauto. Qed.

Lemma sample_wide_key_a : text_key 2 (load (snd sample_wide) 1%N).
Proof. vm_compute. eauto. Qed.

(** ** The theorems at work on the sample tables *)

Lemma add_existing_key_keeps_binding_witness :
  hashmap_add (snd (fst sample_one)) 1%N 4%N (snd sample_one)
    = (6%N, snd (fst sample_one), snd sample_one).
Proof.
  refine (proj1 (add_existing_key_keeps_binding (valid := text_key 2)
            (sample_table 2) sample_mem [(1%N, 4%N)]
            (snd (fst sample_one)) (snd sample_one) 1%N 4%N (Node 5 6) _ _ _ _ _ _)).
  - exact (sample_table_inv 2 sample_capacity_2).
  - constructor; [|constructor]. split; [vm_compute; eauto | exact sample_key_a].
  - unfold hashmap_add_all, sample_one.
    destruct (hashmap_add (sample_table 2) 1%N 4%N sample_mem) as [[r hm] m].
    reflexivity.
  - vm_compute. eauto.
  - assert (E : nodes (snd (fst sample_one)) = [Node 5 6]) by (vm_compute; reflexivity).
    rewrite E. left.
  - vm_compute. reflexivity.
Defined.

Lemma add_then_get_round_trip_witness :
  let m2 := store 1%N ["a"; "000"; "z"]%byte
              (store 4%N ["!"; "!"; "!"; "!"]%byte (snd sample_one)) in
  hashmap_get (snd (fst sample_one)) 1%N m2 = 6%N ∧
  load m2 6%N = ["*"; "000"; "000"; "000"]%byte.
Proof.
  intros m2.
  destruct (add_then_get_round_trip (valid := text_key 2) (sample_table 2) sample_mem
              1%N 4%N 6%N (snd (fst sample_one)) (snd sample_one))
    with (m2 := m2) (key' := 1%N) as (Hget & _ & Hval).
  - exact (sample_table_inv 2 sample_capacity_2).
  - exact sample_key_a.
  - apply not_elem_of_nil.
  - apply not_elem_of_nil.
  - vm_compute. eauto.
  - vm_compute. eauto.
  - vm_compute. reflexivity.
  - exact sample_one_eq.
  - discriminate.
  - intros p Hp. unfold m2, store. simpl.
    rewrite !lookup_insert_ne; [reflexivity | |]; intros <-; apply Hp.
    + right. left.
    + left.
  - vm_compute. eauto.
  - vm_compute. reflexivity.
  - split; [exact Hget|]. rewrite Hval by reflexivity. vm_compute. reflexivity.
Defined.

Lemma remove_deletes_the_key_witness :
  let removed := hashmap_remove (snd (fst sample_one)) 1%N (snd sample_one) in
  fst (fst removed) = true ∧
  hashmap_get (snd (fst removed)) 1%N (snd removed) = NULL ∧
  hashmap_remove (snd (fst removed)) 1%N (snd removed)
    = (false, snd (fst removed), snd removed).
Proof.
  intros removed.
  assert (Hb : fst (fst removed) = true) by (vm_compute; reflexivity).
  destruct (remove_deletes_the_key (valid := text_key 2)
              (snd (fst sample_one)) (snd sample_one) 1%N
              true (snd (fst removed)) (snd removed)) as [_ Hgone].
  - exact sample_one_inv.
  - vm_compute. eauto.
  - assert (E : owned (snd (fst sample_one)) = [5%N; 6%N]) by (vm_compute; reflexivity).
    rewrite E. intros Hin. apply list_elem_of_In in Hin.
    destruct Hin as [[=]|[[=]|[]]].
  - rewrite <- Hb. fold removed. destruct removed as [[b hm] m]. reflexivity.
  - destruct (Hgone eq_refl) as (_ & Hget & Hrem). auto.
Defined.


Lemma resize_policy_per_operation_witness :
  capacity (snd (fst (hashmap_add (snd (fst sample_one)) 2%N 4%N (snd sample_one)))) = 3 ∧
  capacity (snd (fst (hashmap_remove (snd (fst sample_one)) 1%N (snd sample_one)))) = 2.
Proof.
  split.
  - destruct (resize_policy_per_operation (valid := text_key 2)
                (snd (fst sample_one)) (snd sample_one) 2%N 4%N
                sample_one_inv sample_one_key_b) as (Hadd & _).
    rewrite Hadd by (vm_compute; reflexivity). vm_compute. reflexivity.
  - destruct (resize_policy_per_operation (valid := text_key 2)
                (snd (fst sample_one)) (snd sample_one) 1%N 4%N
                sample_one_inv sample_one_key_a) as (_ & _ & Hrem & _).
    rewrite (Hrem (Node 5 6)) by (vm_compute; reflexivity). vm_compute. reflexivity.
Defined.

(** The rule as the specification words it fails on the code: one insertion
    into an empty table of 16 buckets leaves a load balance of 1/16, below the
    lower threshold, and the capacity stays 16. *)
Lemma resize_policy_as_specified_fails :
  ¬ resize_policy_as_specified
      (count (snd (fst (hashmap_add (sample_table 16) 1%N 4%N sample_mem))))
      (capacity (sample_table 16))
      (capacity (snd (fst (hashmap_add (sample_table 16) 1%N 4%N sample_mem)))).
Proof.
  assert (Hn : count (snd (fst (hashmap_add (sample_table 16) 1%N 4%N sample_mem))) = 1)
    by (vm_compute; reflexivity).
  assert (Hc : capacity (snd (fst (hashmap_add (sample_table 16) 1%N 4%N sample_mem))) = 16)
    by (vm_compute; reflexivity).
  rewrite Hn, Hc. intros [_ H]. simpl in H.
  assert (Hlt : 4 * 1 < 16) by lia. specialize (H Hlt). vm_compute in H. discriminate H.
Qed.




Lemma resize_failure_is_absorbed_witness :
  fst (fst (hashmap_add (snd (fst sample_one)) 2%N 4%N
              (with_oracle [false] (snd sample_one)))) = 8%N ∧
  capacity (snd (fst (hashmap_add (snd (fst sample_one)) 2%N 4%N
              (with_oracle [false] (snd sample_one))))) = 2 ∧
  fst (fst (hashmap_remove (snd (fst sample_wide)) 1%N
              (with_oracle [false] (snd sample_wide)))) = true ∧
  capacity (snd (fst (hashmap_remove (snd (fst sample_wide)) 1%N
              (with_oracle [false] (snd sample_wide))))) = 4.
Proof.
  assert (Hget : hashmap_get (snd (fst sample_one)) 2%N
                   (with_oracle [false] (snd sample_one)) = NULL)
    by (vm_compute; reflexivity).
  assert (Hlive : is_Some (heap (with_oracle [false] (snd sample_one)) !! 2%N))
    by (vm_compute; eauto).
  assert (Hnc : node_create
            (set_count (snd (fst sample_one)) (wrap (count (snd (fst sample_one)) + 1)))
            2%N 4%N (snd (alloc_ok (with_oracle [false] (snd sample_one))))
          = (Some (Node 7 8),
             snd (node_create
                    (set_count (snd (fst sample_one))
                       (wrap (count (snd (fst sample_one)) + 1)))
                    2%N 4%N (snd (alloc_ok (with_oracle [false] (snd sample_one))))))).
  { assert (E : fst (node_create
                (set_count (snd (fst sample_one)) (wrap (count (snd (fst sample_one)) + 1)))
                2%N 4%N (snd (alloc_ok (with_oracle [false] (snd sample_one)))))
              = Some (Node 7 8)) by (vm_compute; reflexivity).
    destruct (node_create _ 2%N 4%N _) as [n m2]. simpl in E. rewrite E. reflexivity. }
  destruct (proj1 (resize_failure_is_absorbed (valid := text_key 2) (snd (fst sample_one))
             (with_oracle [false] (snd sample_one)) 2%N 4%N
             (with_oracle_inv _ _ [false] sample_one_inv) sample_one_key_b)
             Hget Hlive ltac:(vm_compute; reflexivity) ltac:(vm_compute; reflexivity)
             (Node 7 8) _ Hnc)
    as (Hadd & _ & Hcap & _).
  destruct (proj2 (resize_failure_is_absorbed (valid := text_key 2) (snd (fst sample_wide))
             (with_oracle [false] (snd sample_wide)) 1%N 4%N
             (with_oracle_inv _ _ [false] sample_wide_inv) sample_wide_key_a)
             (Node 5 6)
             ltac:(vm_compute; reflexivity) ltac:(vm_compute; reflexivity)
             ltac:(vm_compute; reflexivity))
    as (rest & Hrem & Hcapw & _).
  rewrite Hadd, Hrem. cbn [fst snd node_value].
  split; [reflexivity|]. split; [vm_compute; reflexivity|].
  split; [reflexivity | vm_compute; reflexivity].
Defined.

(** ** The scenario, evaluated *)

Lemma default_key_eq hm a b :
  default_strategies hm →
  key_eq hm a b ↔
  take (Z.to_nat (key_size hm)) a = take (Z.to_nat (key_size hm)) b.
Proof. intros [Hc _]. unfold key_eq. rewrite Hc. apply memcmp_loop_eq. Qed.

(** The run of the scenario on the sample memory, with the text keys a, b
    and c. *)
Lemma scenario_sample_run :
  scenario None 2 4 1%N 2%N 3%N 4%N sample_mem =
    Some {| capacity_after_second_add := 3;
            capacity_after_third_add := 4;
            found_after_third_add := [6%N; 8%N; 10%N];
            capacity_after_removals := 4;
            removed := [true; true];
            found_after_removals := [NULL; NULL; 10%N] |}.
Proof. vm_compute. reflexivity. Qed.

(** C8, as the code has it.  A table is created with capacity 2, the default
    hash and the default thresholds, every allocation is granted and three
    text keys that differ within their [key_size] bytes are added.  The grow
    rule already fires at the second insertion (load balance 2/2) and again
    at the third (3/3): the capacity is 3 after the second insertion and 4
    after the third, and the three keys are found.  The two removals succeed
    and leave a load balance of 2/4, then 1/4, neither below 0.25: the
    capacity stays 4; the removed keys are no longer found and the remaining
    key is found with the value it had. *)
Theorem scenario_grows_to_four_and_stays ks vs k1 k2 k3 v m :
  0 < ks → 0 < vs → oracle m = [] →
  Forall (λ k, is_Some (heap m !! k) ∧ text_key ks (load m k)) [k1; k2; k3] →
  take (Z.to_nat ks) (load m k1) ≠ take (Z.to_nat ks) (load m k2) →
  take (Z.to_nat ks) (load m k1) ≠ take (Z.to_nat ks) (load m k3) →
  take (Z.to_nat ks) (load m k2) ≠ take (Z.to_nat ks) (load m k3) →
  ∃ p1 p2 p3,
    scenario None ks vs k1 k2 k3 v m =
      Some {| capacity_after_second_add := 3;
              capacity_after_third_add := 4;
              found_after_third_add := [p1; p2; p3];
              capacity_after_removals := 4;
              removed := [true; true];
              found_after_removals := [NULL; NULL; p3] |} ∧
    p1 ≠ NULL ∧ p2 ≠ NULL ∧ p3 ≠ NULL.
Proof.
  intros Hks Hvs Hor Hkeys H12 H13 H23.
  apply Forall_cons in Hkeys as [[L1 V1] Hkeys].
  apply Forall_cons in Hkeys as [[L2 V2] Hkeys].
  apply Forall_cons in Hkeys as [[L3 V3] _].
  destruct (hashmap_create_granted 2 None ks vs m Hks Hvs Hor)
    as (hm0 & Hcreate & Hdef & Hmin & Hmax & Hksz).
  destruct (hashmap_create_default_inv 2 ks vs m hm0 m) as (Hinv0 & Hnodes0 & Hcount0 & Hcap0);
    [split; [lia | reflexivity] | exact Hcreate |].
  change (capacity hm0 = 2) in Hcap0.
  assert (Hne : ∀ a b, take (Z.to_nat ks) a ≠ take (Z.to_nat ks) b → ¬ key_eq hm0 a b).
  { intros a b Hab Heq. apply Hab. apply (default_key_eq hm0 a b Hdef) in Heq.
    rewrite Hksz in Heq. exact Heq. }
  assert (T0 : tracks (text_key ks) hm0 m hm0 m []).
  { split; [exact Hinv0|]. split; [apply same_settings_refl|]. split; [exact Hor|].
    split; [rewrite Hnodes0; reflexivity|]. split; [reflexivity|]. split; [|constructor].
    intros p Hp. unfold owned in Hp. rewrite Hnodes0 in Hp. inversion Hp. }
  (* the three insertions *)
  destruct (tracks_add hm0 m hm0 m [] k1 v T0 Hdef L1 V1)
    as (n1 & hm1 & m1 & A1 & N1 & T1 & C1 & P1); [constructor|].
  destruct (tracks_add hm0 m hm1 m1 [(k1, n1)] k2 v T1 Hdef L2 V2)
    as (n2 & hm2 & m2 & A2 & N2 & T2 & C2 & P2).
  { repeat constructor. simpl. apply Hne. congruence. }
  destruct (tracks_add hm0 m hm2 m2 [(k2, n2); (k1, n1)] k3 v T2 Hdef L3 V3)
    as (n3 & hm3 & m3 & A3 & N3 & T3 & C3 & P3).
  { repeat constructor; simpl; apply Hne; congruence. }
  (* the lookups *)
  destruct (tracks_get hm0 m hm3 m3 _ k1 n1 T3 L1 V1) as [G1 _]; [set_solver|].
  destruct (tracks_get hm0 m hm3 m3 _ k2 n2 T3 L2 V2) as [G2 _]; [set_solver|].
  destruct (tracks_get hm0 m hm3 m3 _ k3 n3 T3 L3 V3) as [G3 _]; [set_solver|].
  (* the two removals *)
  destruct (tracks_remove hm0 m hm3 m3 _ k1 n1 [(k3, n3); (k2, n2)] T3 Hdef L1 V1)
    as (hm4 & m4 & R4 & T4 & C4 & P4).
  { symmetry. apply (Permutation_cons_append [(k3, n3); (k2, n2)] (k1, n1)). }
  destruct (tracks_remove hm0 m hm4 m4 _ k2 n2 [(k3, n3)] T4 Hdef L2 V2)
    as (hm5 & m5 & R5 & T5 & C5 & P5).
  { apply perm_swap. }
  pose proof (tracks_get_absent hm0 m hm5 m5 _ k1 T5 L1) as G1'.
  pose proof (tracks_get_absent hm0 m hm5 m5 _ k2 T5 L2) as G2'.
  destruct (tracks_get hm0 m hm5 m5 _ k3 n3 T5 L3 V3) as [G3' _]; [set_solver|].
  (* counts and capacities *)
  rewrite Hcount0 in C1. rewrite C1 in C2. rewrite C2 in C3. rewrite C3 in C4.
  rewrite C4 in C5.
  unfold get_auto_growth_new_capacity in P1, P2, P3.
  unfold get_auto_shrink_new_capacity in P4, P5.
  rewrite Hmax, Hcount0, Hcap0 in P1.
  assert (E1 : capacity hm1 = 2) by (rewrite P1; vm_compute; reflexivity).
  rewrite Hmax, C1, E1 in P2.
  assert (E2 : capacity hm2 = 3) by (rewrite P2; vm_compute; reflexivity).
  rewrite Hmax, C2, E2 in P3.
  assert (E3 : capacity hm3 = 4) by (rewrite P3; vm_compute; reflexivity).
  rewrite Hmin, C3, E3 in P4.
  assert (E4 : capacity hm4 = 4) by (rewrite P4; vm_compute; reflexivity).
  rewrite Hmin, C4, E4 in P5.
  assert (E5 : capacity hm5 = 4) by (rewrite P5; vm_compute; reflexivity).
  exists (node_value n1), (node_value n2), (node_value n3).
  split; [|auto].
  unfold scenario. rewrite Hcreate, A1. cbv beta iota. rewrite A2. cbv beta iota.
  rewrite A3. cbv beta iota. rewrite R4. cbv beta iota. rewrite R5. cbv beta iota.
  unfold hashmap_capacity. rewrite E2, E3, E5, G1, G2, G3, G3', G1', G2'.
  - reflexivity.
  - repeat constructor. simpl. apply Hne. congruence.
  - repeat constructor. simpl. apply Hne. congruence.
Qed.

Lemma scenario_grows_to_four_and_stays_witness :
  ∃ p1 p2 p3,
    scenario None 2 4 1%N 2%N 3%N 4%N sample_mem =
      Some (Scenario 3 4 [p1; p2; p3] 4 [true; true] [NULL; NULL; p3]) ∧
    p1 ≠ NULL ∧ p2 ≠ NULL ∧ p3 ≠ NULL.
Proof.
  apply (scenario_grows_to_four_and_stays 2 4 1%N 2%N 3%N 4%N sample_mem).
  - lia.
  - lia.
  - reflexivity.
  - repeat constructor; vm_compute; eauto.
  - vm_compute. intros H. discriminate H.
  - vm_compute. intros H. discriminate H.
  - vm_compute. intros H. discriminate H.
Defined.

(** The outcome the specification states (capacity 3 after the third
    insertion, capacity 2 after the removals) is not the outcome of the code. *)
Lemma scenario_is_not_as_specified :
  ¬ ∃ r, scenario None 2 4 1%N 2%N 3%N 4%N sample_mem = Some r ∧ scenario_as_specified r.
Proof.
  intros (r & Hr & Hcap & _).
  rewrite scenario_sample_run in Hr. injection Hr as <-. simpl in Hcap. discriminate Hcap.
Qed.

(** ** Construction with a zero capacity *)

(** C10.  [hashmap_create] called with an initial capacity of 0, positive key
    and value sizes and both allocations granted returns a table of
    [HASHMAP_DEFAULT_CAPACITY] = 16 empty buckets, not one of the minimal
    capacity. *)
Theorem create_with_zero_capacity_uses_default hash_fn ks vs m :
  0 < ks → 0 < vs →
  fst (alloc_ok m) = true → fst (alloc_ok (snd (alloc_ok m))) = true →
  ∃ hm m',
    hashmap_create 0 hash_fn ks vs m = Returned (Some hm, m') ∧
    hashmap_capacity hm = HASHMAP_DEFAULT_CAPACITY ∧
    hashmap_capacity hm = 16 ∧
    hashmap_capacity hm ≠ HASHMAP_MINIMAL_CAPACITY ∧
    table hm = replicate 16 [] ∧
    hashmap_count hm = 0.
Proof.
  intros Hks Hvs Hok1 Hok2. unfold hashmap_create.
  destruct (Z.ltb_spec 0 ks) as [_|]; [|lia].
  destruct (Z.ltb_spec 0 vs) as [_|]; [|lia]. simpl.
  destruct (alloc_ok m) as [ok1 m1]. simpl in Hok1, Hok2. subst ok1.
  destruct (alloc_ok m1) as [ok2 m2]. simpl in Hok2. subst ok2.
  eexists _, _. split; [reflexivity|]. simpl.
  repeat split. discriminate.
Qed.

Lemma create_with_zero_capacity_uses_default_witness :
  ∃ hm m',
    hashmap_create 0 None 2 4 sample_mem = Returned (Some hm, m') ∧
    hashmap_capacity hm = 16.
Proof.
  destruct (create_with_zero_capacity_uses_default None 2 4 sample_mem)
    as (hm & m' & Hc & _ & Hcap & _).
  - reflexivity.
  - reflexivity.
  - reflexivity.
  - reflexivity.
  - exists hm, m'. split; assumption.
Defined.

(** * The table as a finite map *)

Section Refinement.

Context {valid : list byte → Prop}.

Lemma entry_keys_NoDup hm m :
  table_inv valid hm m → default_strategies hm →
  NoDup (entry_of hm m <$> nodes hm).*1.
Proof.
  intros Hinv Hdef. rewrite <- list_fmap_compose.
  apply NoDup_fmap_2_strong; [|apply nodes_NoDup, (inv_owned_nodup hm m Hinv)].
  intros x y Hx Hy Heq. simpl in Heq. apply (inv_unique hm m Hinv x y Hx Hy).
  apply (default_key_eq hm _ _ Hdef). exact Heq.
Qed.

Lemma abstraction_lookup hm m node :
  table_inv valid hm m → default_strategies hm → node ∈ nodes hm →
  abstraction hm m !! (entry_of hm m node).1 = Some (load m (node_value node)).
Proof.
  intros Hinv Hdef Hin. unfold abstraction.
  apply elem_of_list_to_map_1; [apply entry_keys_NoDup; assumption|].
  apply list_elem_of_fmap. exists node. split; [reflexivity | exact Hin].
Qed.

Lemma abstraction_lookup_inv hm m kb vb :
  abstraction hm m !! kb = Some vb →
  ∃ node, node ∈ nodes hm ∧ entry_of hm m node = (kb, vb).
Proof.
  intros H. apply elem_of_list_to_map_2 in H.
  apply list_elem_of_fmap in H as (node & Heq & Hin). eauto.
Qed.

Lemma abstraction_absent hm m key :
  default_strategies hm →
  abstraction hm m !! key_bytes hm m key = None ↔
  ∀ x, x ∈ nodes hm → ¬ key_eq hm (load m key) (load m (node_key x)).
Proof.
  intros Hdef. unfold abstraction. rewrite <- not_elem_of_list_to_map.
  rewrite <- list_fmap_compose. split.
  - intros Hnot x Hx Heq. apply Hnot. apply list_elem_of_fmap. exists x.
    split; [|exact Hx]. simpl. apply (default_key_eq hm _ _ Hdef) in Heq. exact Heq.
  - intros Habs Hin. apply list_elem_of_fmap in Hin as (x & Heq & Hx). simpl in Heq.
    apply (Habs x Hx). apply (default_key_eq hm _ _ Hdef). exact Heq.
Qed.

Lemma abstraction_get hm m key :
  table_inv valid hm m → default_strategies hm → valid (load m key) →
  match abstraction hm m !! key_bytes hm m key with
  | Some vb => hashmap_get hm key m ≠ NULL ∧ load m (hashmap_get hm key m) = vb
  | None => hashmap_get hm key m = NULL
  end.
Proof.
  intros Hinv Hdef Hvalid.
  destruct (abstraction hm m !! key_bytes hm m key) as [vb|] eqn:E.
  - apply abstraction_lookup_inv in E as (node & Hin & Heq).
    injection Heq as Hk Hv.
    assert (Hget : hashmap_get hm key m = node_value node).
    { apply (hashmap_get_found hm m key node Hinv Hvalid Hin).
      apply (default_key_eq hm _ _ Hdef). symmetry. exact Hk. }
    rewrite Hget. split; [|exact Hv].
    apply (node_value_not_NULL hm m node Hinv Hin).
  - apply hashmap_get_absent. apply (abstraction_absent hm m key Hdef). exact E.
Qed.

Lemma abstraction_ext hm m hm' m' :
  table_inv valid hm m → default_strategies hm →
  key_size hm' = key_size hm →
  nodes hm' ≡ₚ nodes hm →
  (∀ p, p ∈ owned hm → heap m' !! p = heap m !! p) →
  abstraction hm' m' = abstraction hm m.
Proof.
  intros Hinv Hdef Hks Hperm Hheap. unfold abstraction. symmetry.
  apply list_to_map_proper; [apply entry_keys_NoDup; assumption|].
  rewrite Hperm.
  assert (E : entry_of hm' m' <$> nodes hm = entry_of hm m <$> nodes hm);
    [|rewrite E; reflexivity].
  apply Forall_fmap_ext_1, Forall_forall. intros node Hin. unfold entry_of. rewrite Hks.
  rewrite (load_heap_eq m m' (node_key node)), (load_heap_eq m m' (node_value node));
    [reflexivity| |]; apply Hheap, owned_elem; eauto.
Qed.

Lemma abstraction_add hm key value m r hm' m' :
  hashmap_inv valid hm m → default_strategies hm →
  valid (load m key) → is_Some (heap m !! value) →
  hashmap_add hm key value m = (r, hm', m') →
  match abstraction hm m !! key_bytes hm m key with
  | Some vb => r ≠ NULL ∧ load m r = vb ∧ hm' = hm ∧ m' = m
  | None =>
      (r = NULL ∧ abstraction hm' m' = abstraction hm m) ∨
      (r ≠ NULL ∧ heap m !! r = None ∧
       load m' r = take (Z.to_nat (value_size hm)) (load m value) ∧
       abstraction hm' m' =
         <[key_bytes hm m key := take (Z.to_nat (value_size hm)) (load m value)]>
           (abstraction hm m))
  end.
Proof.
  intros Hinv Hdef Hvalid Hvlive Hadd.
  pose proof (inv_table _ _ Hinv) as Htab.
  destruct (hashmap_add_spec hm key value m r hm' m' Hinv Hvalid Hadd)
    as (Hinv' & Hsame & [Hcase|[Hcase|Hcase]]).
  - destruct Hcase as (node & Hin & Heq & -> & -> & ->).
    pose proof (abstraction_lookup hm m node Htab Hdef Hin) as Hl.
    apply (default_key_eq hm _ _ Hdef) in Heq. unfold entry_of in Hl. simpl in Hl.
    unfold key_bytes. rewrite Heq, Hl.
    split; [apply (node_value_not_NULL hm m node Htab Hin)|]. auto.
  - destruct Hcase as (Habs & -> & Hperm & _ & Hheap).
    rewrite (proj2 (abstraction_absent hm m key Hdef) Habs). left.
    split; [reflexivity|].
    apply (abstraction_ext hm m hm' m' Htab Hdef); [apply Hsame | exact Hperm |].
    intros p _. rewrite Hheap. reflexivity.
  - destruct Hcase
      as (Habs & node & kc & vc & -> & Hne & Hperm & _ & Hkf & Hvf & Hkv & Hm' & Hkeq).
    rewrite (proj2 (abstraction_absent hm m key Hdef) Habs). right.
    assert (Hget : hashmap_get hm key m = NULL) by (apply hashmap_get_absent, Habs).
    pose proof (hashmap_add_default_value hm key value m _ hm' m' Hinv Hget Hvlive
                  (proj1 (proj2 (proj2 Hdef))) Hadd Hne) as Hval.
    split; [exact Hne|]. split; [exact Hvf|]. split; [exact Hval|].
    pose proof (default_strategies_same hm hm' Hsame Hdef) as Hdef'.
    unfold abstraction at 1.
    rewrite (list_to_map_proper _ (entry_of hm' m' <$> node :: nodes hm));
      [|apply entry_keys_NoDup; [apply Hinv' | exact Hdef'] | rewrite Hperm; reflexivity].
    rewrite fmap_cons. simpl.
    assert (Hold : entry_of hm' m' <$> nodes hm = entry_of hm m <$> nodes hm).
    { apply Forall_fmap_ext_1, Forall_forall. intros x Hx. unfold entry_of.
      destruct Hsame as (-> & _).
      assert (Hp : ∀ p, p ∈ owned hm → heap m' !! p = heap m !! p).
      { intros p Hp. destruct (inv_owned_live hm m Htab p Hp) as [_ [bs Hbs]].
        rewrite Hm', !lookup_insert_ne; [reflexivity| |]; intros <-; congruence. }
      rewrite (load_heap_eq m m' (node_key x)), (load_heap_eq m m' (node_value x));
        [reflexivity| |]; apply Hp, owned_elem; eauto. }
    rewrite Hold. fold (abstraction hm m). rewrite Hval. f_equal.
    unfold key_bytes. destruct Hsame as (-> & _).
    apply (default_key_eq hm _ _ Hdef) in Hkeq. rewrite Hkeq. f_equal.
    unfold load. rewrite Hm', lookup_insert_ne by (symmetry; exact Hkv).
    rewrite lookup_insert_eq. reflexivity.
Qed.

Lemma abstraction_remove hm key m b hm' m' :
  hashmap_inv valid hm m → default_strategies hm →
  valid (load m key) →
  hashmap_remove hm key m = (b, hm', m') →
  abstraction hm' m' = delete (key_bytes hm m key) (abstraction hm m) ∧
  (b = true ↔ is_Some (abstraction hm m !! key_bytes hm m key)).
Proof.
  intros Hinv Hdef Hvalid Hrem.
  pose proof (inv_table _ _ Hinv) as Htab.
  destruct (hashmap_remove_spec hm key m b hm' m' Hinv Hvalid Hrem)
    as (Hinv' & Hsame & [Hcase|Hcase]).
  - destruct Hcase as (-> & Habs & -> & ->).
    pose proof (proj2 (abstraction_absent hm m key Hdef) Habs) as Hnone.
    rewrite Hnone, (delete_id _ _ Hnone). split; [reflexivity|].
    split; [discriminate|]. intros [? H]. discriminate H.
  - destruct Hcase as (-> & current & Hin & Heq & Hperm & _ & Hm').
    pose proof (abstraction_lookup hm m current Htab Hdef Hin) as Hl.
    apply (default_key_eq hm _ _ Hdef) in Heq. unfold entry_of in Hl. simpl in Hl.
    unfold key_bytes. rewrite Heq, Hl. split; [|split; eauto].
    pose proof (entry_keys_NoDup hm m Htab Hdef) as Hnd.
    assert (Hl1 : entry_of hm m <$> nodes hm ≡ₚ entry_of hm m <$> current :: nodes hm')
      by (rewrite Hperm; reflexivity).
    rewrite Hl1 in Hnd. rewrite fmap_cons in Hnd. simpl in Hnd.
    apply NoDup_cons in Hnd as [Hnotin _].
    unfold abstraction at 2.
    rewrite (list_to_map_proper _ (entry_of hm m <$> current :: nodes hm'));
      [|apply entry_keys_NoDup; assumption | exact Hl1].
    rewrite fmap_cons. simpl.
    rewrite delete_insert_id by (apply not_elem_of_list_to_map_1; exact Hnotin).
    unfold abstraction. f_equal.
    apply Forall_fmap_ext_1, Forall_forall. intros x Hx. unfold entry_of.
    destruct Hsame as (-> & _).
    assert (Hp : ∀ p, p ∈ owned hm' → heap m' !! p = heap m !! p).
    { intros p Hp.
      destruct (inv_owned_live hm' m' (inv_table _ _ Hinv') p Hp) as [_ [bs Hbs]].
      rewrite Hm' in Hbs |- *.
      apply lookup_delete_Some in Hbs as [Hv Hbs].
      apply lookup_delete_Some in Hbs as [Hk Hbs].
      rewrite !lookup_delete_ne by assumption. reflexivity. }
    rewrite (load_heap_eq m m' (node_key x)), (load_heap_eq m m' (node_value x));
      [reflexivity| |]; apply Hp, owned_elem; eauto.
Qed.

Lemma abstraction_size hm m :
  hashmap_inv valid hm m → default_strategies hm →
  count hm = wrap (Z.of_nat (size (abstraction hm m))).
Proof.
  intros Hinv Hdef. unfold abstraction.
  rewrite map_size_list_to_map by (apply entry_keys_NoDup; [apply Hinv | exact Hdef]).
  rewrite length_fmap. apply (inv_count _ _ Hinv).
Qed.

(** *** Caller blocks and table buffers stay apart *)

Lemma apart_live mb hm m p :
  apart mb hm m → is_Some (heap mb !! p) → heap m !! p = heap mb !! p.
Proof.
  intros [Hout Hown] Hp. apply Hout. intros Hin.
  rewrite (Hown p Hin) in Hp. destruct Hp as [? Hp]. discriminate Hp.
Qed.

Lemma apart_add mb hm key value m r hm' m' :
  hashmap_inv valid hm m → valid (load m key) →
  hashmap_add hm key value m = (r, hm', m') →
  apart mb hm m → apart mb hm' m'.
Proof.
  intros Hinv Hvalid Hadd [Hout Hown].
  destruct (hashmap_add_spec hm key value m r hm' m' Hinv Hvalid Hadd)
    as (Hinv' & Hsame & [Hcase|[Hcase|Hcase]]).
  - destruct Hcase as (_ & _ & _ & _ & -> & ->). split; assumption.
  - destruct Hcase as (_ & _ & Hperm & _ & Hheap).
    split; intros p Hp.
    + rewrite Hheap. apply Hout. rewrite <- (owned_perm hm hm' Hperm). exact Hp.
    + apply Hown. rewrite <- (owned_perm hm hm' Hperm). exact Hp.
  - destruct Hcase as (_ & node & kc & vc & _ & _ & Hperm & _ & Hkf & Hvf & _ & Hm' & _).
    pose proof (owned_cons hm hm' node Hperm) as Ho.
    assert (Hk : node_key node ∉ owned hm)
      by apply (not_owned_fresh hm m _ (inv_table _ _ Hinv) Hkf).
    assert (Hv : node_value node ∉ owned hm)
      by apply (not_owned_fresh hm m _ (inv_table _ _ Hinv) Hvf).
    split; intros p Hp.
    + rewrite Ho in Hp. rewrite !not_elem_of_cons in Hp. destruct Hp as (Hpk & Hpv & Hp).
      rewrite Hm', !lookup_insert_ne by congruence. apply Hout, Hp.
    + rewrite Ho in Hp. rewrite !elem_of_cons in Hp.
      destruct Hp as [->|[->|Hp]]; [| |apply Hown, Hp].
      * rewrite <- (Hout _ Hk). exact Hkf.
      * rewrite <- (Hout _ Hv). exact Hvf.
Qed.

Lemma apart_remove mb hm key m b hm' m' :
  hashmap_inv valid hm m → valid (load m key) →
  hashmap_remove hm key m = (b, hm', m') →
  apart mb hm m → apart mb hm' m'.
Proof.
  intros Hinv Hvalid Hrem [Hout Hown].
  destruct (hashmap_remove_spec hm key m b hm' m' Hinv Hvalid Hrem)
    as (Hinv' & Hsame & [Hcase|Hcase]).
  - destruct Hcase as (_ & _ & -> & ->). split; assumption.
  - destruct Hcase as (_ & current & Hin & _ & Hperm & _ & Hm').
    pose proof (owned_cons hm' hm current Hperm) as Ho.
    assert (Hk : node_key current ∈ owned hm) by (rewrite Ho; left).
    assert (Hv : node_value current ∈ owned hm) by (rewrite Ho; right; left).
    split; intros p Hp.
    + rewrite Hm'.
      destruct (decide (p = node_value current)) as [->|Hpv].
      { rewrite lookup_delete_eq. symmetry. apply Hown, Hv. }
      rewrite lookup_delete_ne by congruence.
      destruct (decide (p = node_key current)) as [->|Hpk].
      { rewrite lookup_delete_eq. symmetry. apply Hown, Hk. }
      rewrite lookup_delete_ne by congruence.
      apply Hout. rewrite Ho, !not_elem_of_cons. auto.
    + apply Hown. rewrite Ho. right. right. exact Hp.
Qed.

(** *** Destruction *)

Lemma destroy_chain_heap hm (chain : list node_t) m p :
  strategies_ok valid hm →
  heap (fold_left (λ m tmp, node_destroy hm tmp m) chain m) !! p =
    if decide (p ∈ chain ≫= λ node, [node_key node; node_value node])
    then None else heap m !! p.
Proof.
  intros Hs. revert m. induction chain as [|node chain IH]; intros m.
  - destruct (decide _) as [H|_]; [inversion H | reflexivity].
  - change (fold_left (λ m tmp, node_destroy hm tmp m) (node :: chain) m)
      with (fold_left (λ m tmp, node_destroy hm tmp m) chain (node_destroy hm node m)).
    rewrite IH, (node_destroy_heap hm node m Hs).
    change ((node :: chain) ≫= λ node, [node_key node; node_value node])
      with (node_key node :: node_value node ::
            (chain ≫= λ node, [node_key node; node_value node])).
    destruct (decide (p ∈ chain ≫= λ node, [node_key node; node_value node]))
      as [Hin|Hnot].
    { rewrite decide_True by (rewrite !elem_of_cons; auto). reflexivity. }
    destruct (decide (p = node_value node)) as [->|Hv].
    { rewrite lookup_delete_eq, decide_True by (rewrite !elem_of_cons; auto).
      reflexivity. }
    rewrite lookup_delete_ne by congruence.
    destruct (decide (p = node_key node)) as [->|Hk].
    { rewrite lookup_delete_eq, decide_True by (rewrite !elem_of_cons; auto).
      reflexivity. }
    rewrite lookup_delete_ne by congruence.
    rewrite decide_False; [reflexivity|].
    rewrite !elem_of_cons. intros [?|[?|?]]; congruence.
Qed.

Lemma buckets_in_order hm :
  length (table hm) = Z.to_nat (capacity hm) →
  (λ i : nat, bucket hm (Z.of_nat i)) <$> seq 0 (Z.to_nat (capacity hm)) = table hm.
Proof.
  intros Hlen. rewrite <- Hlen. apply list_eq. intros i.
  rewrite list_lookup_fmap.
  destruct (table hm !! i) as [chain|] eqn:Hi.
  - rewrite (lookup_seq_lt _ _ _ (lookup_lt_Some _ _ _ Hi)). simpl.
    f_equal. apply bucket_lookup. exact Hi.
  - rewrite lookup_seq_ge; [reflexivity|]. apply lookup_ge_None. exact Hi.
Qed.

Lemma hashmap_destroy_nodes hm m :
  length (table hm) = Z.to_nat (capacity hm) →
  hashmap_destroy hm m = fold_left (λ m tmp, node_destroy hm tmp m) (nodes hm) m.
Proof.
  intros Hlen. unfold hashmap_destroy, nodes.
  rewrite <- fold_left_concat. rewrite <- (buckets_in_order hm Hlen).
  generalize (seq 0 (Z.to_nat (capacity hm))). intros l. revert m.
  induction l as [|i l IH]; intros m; simpl; [reflexivity|]. apply IH.
Qed.

Lemma hashmap_destroy_heap hm m p :
  table_inv valid hm m →
  heap (hashmap_destroy hm m) !! p =
    if decide (p ∈ owned hm) then None else heap m !! p.
Proof.
  intros Hinv. rewrite (hashmap_destroy_nodes hm m (inv_length hm m Hinv)).
  apply destroy_chain_heap, (inv_strategies hm m Hinv).
Qed.

(** *** Runs of operations *)

Lemma readable_valid mb hm m o key :
  apart mb hm m → readable valid mb o →
  key = match o with Add key _ => key | Remove key => key end →
  valid (load m key) ∧ load m key = load mb key.
Proof.
  intros Hap Hr ->.
  assert (Hk : is_Some (heap mb !! match o with Add key _ => key | Remove key => key end)
               ∧ valid (load mb match o with Add key _ => key | Remove key => key end)).
  { destruct o; simpl in Hr; tauto. }
  destruct Hk as [Hlive Hvalid].
  pose proof (load_heap_eq mb m _ (apart_live mb hm m _ Hap Hlive)) as Hload.
  rewrite Hload. auto.
Qed.

Lemma step_inv mb hm o m :
  hashmap_inv valid hm m → apart mb hm m → readable valid mb o →
  hashmap_inv valid (step hm o m).1 (step hm o m).2 ∧
  apart mb (step hm o m).1 (step hm o m).2 ∧
  same_settings hm (step hm o m).1.
Proof.
  intros Hinv Hap Hr. destruct o as [key value|key]; simpl.
  - destruct (readable_valid mb hm m (Add key value) key Hap Hr eq_refl) as [Hvalid _].
    destruct (hashmap_add hm key value m) as [[r hm'] m'] eqn:Hadd. simpl.
    split; [apply (hashmap_add_spec _ _ _ _ _ _ _ Hinv Hvalid Hadd)|].
    split; [apply (apart_add mb hm key value m r hm' m' Hinv Hvalid Hadd Hap)|].
    apply (hashmap_add_spec _ _ _ _ _ _ _ Hinv Hvalid Hadd).
  - destruct (readable_valid mb hm m (Remove key) key Hap Hr eq_refl) as [Hvalid _].
    destruct (hashmap_remove hm key m) as [[b hm'] m'] eqn:Hrem. simpl.
    split; [apply (hashmap_remove_spec _ _ _ _ _ _ Hinv Hvalid Hrem)|].
    split; [apply (apart_remove mb hm key m b hm' m' Hinv Hvalid Hrem Hap)|].
    apply (hashmap_remove_spec _ _ _ _ _ _ Hinv Hvalid Hrem).
Qed.

Lemma run_inv mb hm ops m :
  hashmap_inv valid hm m → apart mb hm m → Forall (readable valid mb) ops →
  hashmap_inv valid (run hm ops m).1 (run hm ops m).2 ∧
  apart mb (run hm ops m).1 (run hm ops m).2 ∧
  same_settings hm (run hm ops m).1.
Proof.
  revert hm m. induction ops as [|o ops IH]; intros hm m Hinv Hap Hops; simpl.
  - split; [exact Hinv|]. split; [exact Hap | apply same_settings_refl].
  - apply Forall_cons in Hops as [Hr Hops].
    destruct (step_inv mb hm o m Hinv Hap Hr) as (Hinv' & Hap' & Hsame).
    destruct (step hm o m) as [hm' m']. simpl in *.
    destruct (IH hm' m' Hinv' Hap' Hops) as (Hinv2 & Hap2 & Hsame2).
    split; [exact Hinv2|]. split; [exact Hap2|].
    apply (same_settings_trans hm hm'); assumption.
Qed.

Lemma step_granted mb hm o m :
  hashmap_inv valid hm m → default_strategies hm → oracle m = [] →
  apart mb hm m → readable valid mb o →
  oracle (step hm o m).2 = [] ∧
  abstraction (step hm o m).1 (step hm o m).2 =
    model_step (key_size hm) (value_size hm) mb (abstraction hm m) o.
Proof.
  intros Hinv Hdef Hor Hap Hr. destruct o as [key value|key]; simpl.
  - destruct (readable_valid mb hm m (Add key value) key Hap Hr eq_refl)
      as [Hvalid Hload].
    destruct Hr as (_ & _ & Hvlive).
    pose proof (apart_live mb hm m value Hap Hvlive) as Hv.
    assert (Hvlive' : is_Some (heap m !! value)) by (rewrite Hv; exact Hvlive).
    destruct (hashmap_add hm key value m) as [[r hm'] m'] eqn:Hadd. simpl.
    pose proof (abstraction_add hm key value m r hm' m' Hinv Hdef Hvalid Hvlive' Hadd)
      as Habs.
    unfold key_bytes in Habs. rewrite Hload in Habs.
    rewrite (load_heap_eq mb m value Hv) in Habs.
    destruct (abstraction hm m !! take (Z.to_nat (key_size hm)) (load mb key))
      as [vb|] eqn:E.
    + destruct Habs as (_ & _ & -> & ->). auto.
    + assert (Hnone : ∀ x, x ∈ nodes hm →
                ¬ key_eq hm (load m key) (load m (node_key x))).
      { apply (abstraction_absent hm m key Hdef). unfold key_bytes.
        rewrite Hload. exact E. }
      destruct (hashmap_add_granted hm key value m Hinv Hdef Hor Hvalid Hnone)
        as (node & hm2 & m2 & Hadd2 & Hne & _ & _ & Hor2 & _).
      rewrite Hadd in Hadd2. injection Hadd2 as -> <- <-.
      split; [exact Hor2|].
      destruct Habs as [[Hnull _]|(_ & _ & _ & Habs)]; [contradiction | exact Habs].
  - destruct (readable_valid mb hm m (Remove key) key Hap Hr eq_refl) as [Hvalid Hload].
    pose proof (hashmap_remove_granted hm key m Hdef Hor) as Hor'.
    destruct (hashmap_remove hm key m) as [[b hm'] m'] eqn:Hrem. simpl in *.
    split; [exact Hor'|].
    destruct (abstraction_remove hm key m b hm' m' Hinv Hdef Hvalid Hrem) as [Habs _].
    unfold key_bytes in Habs. rewrite Hload in Habs. exact Habs.
Qed.

Lemma run_granted mb hm ops m :
  hashmap_inv valid hm m → default_strategies hm → oracle m = [] →
  apart mb hm m → Forall (readable valid mb) ops →
  abstraction (run hm ops m).1 (run hm ops m).2 =
    model (key_size hm) (value_size hm) mb ops (abstraction hm m).
Proof.
  revert hm m. induction ops as [|o ops IH]; intros hm m Hinv Hdef Hor Hap Hops; simpl.
  - reflexivity.
  - apply Forall_cons in Hops as [Hr Hops].
    destruct (step_inv mb hm o m Hinv Hap Hr) as (Hinv' & Hap' & Hsame).
    destruct (step_granted mb hm o m Hinv Hdef Hor Hap Hr) as [Hor' Habs].
    pose proof (default_strategies_same hm _ Hsame Hdef) as Hdef'.
    destruct (step hm o m) as [hm' m']. simpl in *.
    rewrite (IH hm' m' Hinv' Hdef' Hor' Hap' Hops), Habs.
    destruct Hsame as (-> & -> & _). reflexivity.
Qed.

End Refinement.

(** * The other hash functions *)

Lemma wrap_congr a b k : a = b + k * 2 ^ size_bits → wrap a = wrap b.
Proof. intros ->. unfold wrap. apply Z_mod_plus_full. Qed.

Lemma wrap_shape z : ∃ k, wrap z = z + k * 2 ^ size_bits.
Proof.
  exists (- (z / 2 ^ size_bits)). unfold wrap.
  rewrite Z.mod_eq by discriminate. lia.
Qed.

Lemma sdbm_step hash c :
  wrap (wrap (wrap (wrap (char_value c) + wrap (Z.shiftl hash 6))
              + wrap (Z.shiftl hash 16)) - hash)
  = wrap (hash * 65599 + char_value c).
Proof.
  rewrite !Z.shiftl_mul_pow2 by lia.
  destruct (wrap_shape (char_value c)) as [k1 ->].
  destruct (wrap_shape (hash * 2 ^ 6)) as [k2 ->].
  destruct (wrap_shape (hash * 2 ^ 16)) as [k3 ->].
  destruct (wrap_shape (char_value c + k1 * 2 ^ size_bits
                        + (hash * 2 ^ 6 + k2 * 2 ^ size_bits))) as [k4 ->].
  destruct (wrap_shape (char_value c + k1 * 2 ^ size_bits
                        + (hash * 2 ^ 6 + k2 * 2 ^ size_bits) + k4 * 2 ^ size_bits
                        + (hash * 2 ^ 16 + k3 * 2 ^ size_bits))) as [k5 ->].
  apply (wrap_congr _ _ (k1 + k2 + k3 + k4 + k5)).
  change (2 ^ 6) with 64. change (2 ^ 16) with 65536. lia.
Qed.

Lemma sdbm_loop_spec str hash :
  sdbm_loop str hash
  = (λ s, fold_left (λ hash c, wrap (hash * 65599 + char_value c)) s hash) <$> c_string str.
Proof.
  revert hash. induction str as [|c str IH]; intros hash; simpl; [reflexivity|].
  destruct (is_nul c); [reflexivity|].
  rewrite IH, sdbm_step. destruct (c_string str); reflexivity.
Qed.

Lemma sdbm_c_string key size :
  hashmap_fn_hash_sdbm key size = sdbm_fold <$> c_string key.
Proof.
  unfold hashmap_fn_hash_sdbm, sdbm_fold. rewrite sdbm_loop_spec.
  destruct (c_string key); reflexivity.
Qed.

Lemma sdbm_text_key ks a b :
  text_key ks a → text_key ks b →
  take (Z.to_nat ks) a = take (Z.to_nat ks) b →
  HASH_FUNC_SDBM a ks = HASH_FUNC_SDBM b ks.
Proof.
  unfold text_key, HASH_FUNC_SDBM. intros [s Ha] [t Hb] Heq.
  rewrite !sdbm_c_string.
  rewrite Heq in Ha. rewrite Ha in Hb. injection Hb as <-.
  rewrite (c_string_take _ b s Ha).
  rewrite <- Heq in Ha. rewrite (c_string_take _ a s Ha). reflexivity.
Qed.

(** X9.  [hashmap_fn_hash_sdbm] starts from 0 and folds [hash = hash * 65599 + c],
    wrapping at 64 bits, over the characters before the first NUL byte of
    the key; the size argument is not read.  Two text keys that the default
    compare finds equal over [key_size] bytes get the same hash. *)
Theorem sdbm_hashes_up_to_the_terminator key size :
  hashmap_fn_hash_sdbm key size = sdbm_fold <$> c_string key ∧
  (∀ size', hashmap_fn_hash_sdbm key size' = hashmap_fn_hash_sdbm key size) ∧
  (∀ other, text_key size key → text_key size other →
     default_fn_compare key other size = 0 →
     HASH_FUNC_SDBM key size = HASH_FUNC_SDBM other size).
Proof.
  split; [apply sdbm_c_string|]. split; [reflexivity|].
  intros other Ha Hb Heq. apply sdbm_text_key; [assumption..|].
  apply memcmp_loop_eq. exact Heq.
Qed.

Lemma uchar_range c : 0 ≤ uchar c < 256.
Proof.
  unfold uchar. pose proof (Byte.to_N_bounded c) as H. lia.
Qed.

Lemma le_value_range bs : 0 ≤ le_value bs < 256 ^ Z.of_nat (length bs).
Proof.
  induction bs as [|b bs IH]; simpl length; [simpl; lia|].
  rewrite Nat2Z.inj_succ, Z.pow_succ_r by lia.
  pose proof (uchar_range b). simpl le_value. lia.
Qed.

Lemma le_value_inj a b : length a = length b → le_value a = le_value b → a = b.
Proof.
  revert b. induction a as [|x a IH]; intros [|y b] Hlen Heq; try discriminate Hlen.
  - reflexivity.
  - simpl in Heq. injection Hlen as Hlen.
    pose proof (uchar_range x). pose proof (uchar_range y).
    assert (uchar x = uchar y ∧ le_value a = le_value b) as [Hx Hrest] by lia.
    f_equal; [apply uchar_inj, Hx | apply IH; assumption].
Qed.

Lemma hash_id_wide key size :
  wide_key 8 key → HASH_FUNC_ID key size = le_value (take size_bytes key).
Proof.
  intros Hk. unfold HASH_FUNC_ID, hashmap_fn_hash_id.
  rewrite decide_True by exact Hk. reflexivity.
Qed.

(** X10.  [hashmap_fn_hash_id] on keys that hold a [size_t]: the hash is the
    integer the first eight bytes store, so two keys get the same hash
    exactly when the default compare finds them equal over eight bytes; the
    size argument is not read. *)
Theorem hash_id_tells_size_t_keys_apart a b size size' :
  wide_key 8 a → wide_key 8 b →
  (HASH_FUNC_ID a size = HASH_FUNC_ID b size' ↔ default_fn_compare a b 8 = 0) ∧
  0 ≤ HASH_FUNC_ID a size < 2 ^ size_bits.
Proof.
  intros Ha Hb. rewrite (hash_id_wide a size Ha), (hash_id_wide b size' Hb).
  unfold default_fn_compare. rewrite memcmp_loop_eq.
  change (Z.to_nat 8) with size_bytes.
  unfold wide_key in Ha, Hb. change (Z.to_nat 8) with size_bytes in Ha, Hb.
  split; [split|].
  - apply le_value_inj. rewrite !length_take. lia.
  - intros ->. reflexivity.
  - pose proof (le_value_range (take size_bytes a)) as Hr.
    rewrite length_take, Nat.min_l in Hr by exact Ha. exact Hr.
Qed.

Lemma hash_id_tells_size_t_keys_apart_witness :
  (HASH_FUNC_ID ["001"; "002"; "000"; "000"; "000"; "000"; "000"; "000"]%byte 8
   = HASH_FUNC_ID ["001"; "002"; "000"; "000"; "000"; "000"; "000"; "000"; "x"]%byte 1
   ↔ default_fn_compare
       ["001"; "002"; "000"; "000"; "000"; "000"; "000"; "000"]%byte
       ["001"; "002"; "000"; "000"; "000"; "000"; "000"; "000"; "x"]%byte 8 = 0) ∧
  0 ≤ HASH_FUNC_ID ["001"; "002"; "000"; "000"; "000"; "000"; "000"; "000"]%byte 8
    < 2 ^ size_bits.
Proof.
  apply hash_id_tells_size_t_keys_apart; unfold wide_key; simpl; lia.
Defined.

Lemma hash_str_range key size : 0 ≤ hash_str key size < 2 ^ size_bits.
Proof.
  unfold hash_str.
  assert (H : ∀ s h, 0 ≤ h < 2 ^ size_bits →
            0 ≤ fold_left (λ hash c, wrap (wrap (hash * 31) + char_value c)) s h
              < 2 ^ size_bits).
  { intros s. induction s as [|c s IH]; intros h Hh; simpl.
    - exact Hh.
    - apply IH. apply wrap_range. }
  apply H. split; [lia | reflexivity].
Qed.

(** X11.  [hash_str] of [main.c] reads the first [size] bytes of the key and no
    more: two keys that the default compare finds equal over [size] bytes
    get the same hash, which fits a [size_t]. *)
Theorem hash_str_agrees_with_memcmp a b size :
  default_fn_compare a b size = 0 →
  hash_str a size = hash_str b size ∧
  hash_str a size = hash_str (take (Z.to_nat size) a) size ∧
  0 ≤ hash_str a size < 2 ^ size_bits.
Proof.
  intros Heq. apply memcmp_loop_eq in Heq. split; [apply hash_str_take, Heq|].
  split; [|apply hash_str_range].
  apply hash_str_take. rewrite take_take, Nat.min_id. reflexivity.
Qed.

Lemma hash_str_agrees_with_memcmp_witness :
  hash_str ["k"; "e"; "y"; "1"]%byte 3 = hash_str ["k"; "e"; "y"; "2"]%byte 3 ∧
  hash_str ["k"; "e"; "y"; "1"]%byte 3
    = hash_str (take (Z.to_nat 3) ["k"; "e"; "y"; "1"]%byte) 3 ∧
  0 ≤ hash_str ["k"; "e"; "y"; "1"]%byte 3 < 2 ^ size_bits.
Proof.
  apply hash_str_agrees_with_memcmp. reflexivity.
Defined.

(** * The interface, as operations on a finite map *)

Section Interface.

Context {valid : list byte → Prop}.

Lemma hashmap_create_settings c hash_fn ks vs m hm m' :
  hashmap_create c hash_fn ks vs m = Returned (Some hm, m') →
  default_strategies hm ∧ key_size hm = ks ∧ value_size hm = vs ∧ heap m' = heap m.
Proof.
  unfold hashmap_create. destruct ((0 <? ks) && (0 <? vs)); [|discriminate].
  pose proof (alloc_ok_heap m) as H1.
  destruct (alloc_ok m) as [[|] m1]; [|discriminate].
  pose proof (alloc_ok_heap m1) as H2.
  destruct (alloc_ok m1) as [[|] m2]; [|discriminate].
  intros [= <- <-]. simpl in *. repeat split. congruence.
Qed.

(** A table just created, its memory and the memory of the call. *)
Lemma hashmap_create_apart c hash_fn ks vs m hm m' :
  hashmap_create c hash_fn ks vs m = Returned (Some hm, m') →
  nodes hm = [] → apart m hm m'.
Proof.
  intros Hc Hn. destruct (hashmap_create_settings c hash_fn ks vs m hm m' Hc)
    as (_ & _ & _ & Hheap).
  split; intros p Hp.
  - rewrite Hheap. reflexivity.
  - unfold owned in Hp. rewrite Hn in Hp. inversion Hp.
Qed.


(** X2.  On a well-formed table with the default compare and copy
    strategies, for a valid key (one on which the hash agrees with the
    comparison of [key_size] bytes; for the default hash, a key whose NUL
    terminator lies within its first [key_size] bytes) and a live value
    block, [hashmap_add] is insertion unless the key is bound.  A bound key
    gives back the pointer to its value and changes nothing.  An unbound key
    is bound to a copy of the first [value_size] bytes of the value, in a
    block that did not exist, or the call returns NULL and the map is as
    before.  No block that existed is changed, and the table stays well
    formed.  For keys that are not valid this fails: see the part on
    keys wider than the key size. *)
Theorem add_is_insert_if_absent hm key value m r hm' m' :
  hashmap_inv valid hm m → default_strategies hm →
  valid (load m key) → is_Some (heap m !! value) →
  hashmap_add hm key value m = (r, hm', m') →
  hashmap_inv valid hm' m' ∧ default_strategies hm' ∧
  (∀ p, is_Some (heap m !! p) → heap m' !! p = heap m !! p) ∧
  match abstraction hm m !! key_bytes hm m key with
  | Some value_bytes =>
      r ≠ NULL ∧ load m r = value_bytes ∧ hm' = hm ∧ m' = m
  | None =>
      (r = NULL ∧ abstraction hm' m' = abstraction hm m) ∨
      (r ≠ NULL ∧ heap m !! r = None ∧
       load m' r = take (Z.to_nat (value_size hm)) (load m value) ∧
       abstraction hm' m' =
         <[key_bytes hm m key := take (Z.to_nat (value_size hm)) (load m value)]>
           (abstraction hm m))
  end.
Proof.
  intros Hinv Hdef Hvalid Hvlive Hadd.
  destruct (hashmap_add_spec hm key value m r hm' m' Hinv Hvalid Hadd)
    as (Hinv' & Hsame & _).
  split; [exact Hinv'|]. split; [apply (default_strategies_same hm hm' Hsame Hdef)|].
  split; [apply (hashmap_add_live hm key value m r hm' m' Hinv Hvalid Hadd)|].
  apply (abstraction_add hm key value m r hm' m' Hinv Hdef Hvalid Hvlive Hadd).
Qed.



(** X5.  [hashmap_destroy] releases the key and the value buffer of every entry
    and no other block. *)
Theorem destroy_releases_the_table_buffers hm m :
  hashmap_inv valid hm m →
  ∀ p, heap (hashmap_destroy hm m) !! p =
       if decide (p ∈ owned hm) then None else heap m !! p.
Proof. intros Hinv p. apply (hashmap_destroy_heap hm m p (inv_table _ _ Hinv)). Qed.

(** X6.  From creation on, whatever allocation is refused on the way, a run of
    insertions and removals of valid keys keeps the count equal to the
    number of bound keys, the capacity at 2 or more and equal to the length
    of the bucket array, and the blocks of the caller as they were. *)
Theorem count_and_capacity_hold_through_failures c hash_fn ks vs m0 hm0 m1 ops :
  0 ≤ c < 2 ^ size_bits →
  (∀ a b, valid a → valid b → take (Z.to_nat ks) a = take (Z.to_nat ks) b →
          default HASH_FUNC_DEFAULT hash_fn a ks = default HASH_FUNC_DEFAULT hash_fn b ks) →
  (∀ a, valid a → valid (take (Z.to_nat ks) a)) →
  hashmap_create c hash_fn ks vs m0 = Returned (Some hm0, m1) →
  Forall (readable valid m0) ops →
  hashmap_count (run hm0 ops m1).1
    = wrap (Z.of_nat (size (abstraction (run hm0 ops m1).1 (run hm0 ops m1).2))) ∧
  HASHMAP_MINIMAL_CAPACITY ≤ hashmap_capacity (run hm0 ops m1).1 < 2 ^ size_bits ∧
  length (table (run hm0 ops m1).1) = Z.to_nat (hashmap_capacity (run hm0 ops m1).1) ∧
  (∀ p, is_Some (heap m0 !! p) → heap (run hm0 ops m1).2 !! p = heap m0 !! p).
Proof.
  intros Hc Hhash Htake Hcreate Hops.
  destruct (hashmap_create_inv c hash_fn ks vs m0 hm0 m1 Hc Hhash Htake Hcreate)
    as (Hinv0 & Hn0 & _).
  destruct (hashmap_create_settings c hash_fn ks vs m0 hm0 m1 Hcreate) as (Hdef & _).
  pose proof (hashmap_create_apart c hash_fn ks vs m0 hm0 m1 Hcreate Hn0) as Hap0.
  destruct (run_inv m0 hm0 ops m1 Hinv0 Hap0 Hops) as (Hinv & Hap & Hsame).
  split; [apply (abstraction_size _ _ Hinv (default_strategies_same hm0 _ Hsame Hdef))|].
  split; [apply (inv_capacity _ _ (inv_table _ _ Hinv))|].
  split; [apply (inv_length _ _ (inv_table _ _ Hinv))|].
  intros p Hp. apply (apart_live m0 _ _ p Hap Hp).
Qed.

(** X7.  From creation on, with every allocation granted, and for runs of
    insertions and removals whose keys are valid (keys on which the hash
    agrees with the comparison of [key_size] bytes; for the default hash,
    keys whose NUL terminator lies within their first [key_size] bytes) and
    held in live blocks of the caller, the table is the finite map that the
    run describes: a lookup with a valid key returns NULL for a key the map
    does not bind, and otherwise a pointer to the bytes the key was first
    inserted with. *)
Theorem run_refines_model c hash_fn ks vs m0 hm0 m1 ops :
  0 ≤ c < 2 ^ size_bits →
  (∀ a b, valid a → valid b → take (Z.to_nat ks) a = take (Z.to_nat ks) b →
          default HASH_FUNC_DEFAULT hash_fn a ks = default HASH_FUNC_DEFAULT hash_fn b ks) →
  (∀ a, valid a → valid (take (Z.to_nat ks) a)) →
  hashmap_create c hash_fn ks vs m0 = Returned (Some hm0, m1) →
  oracle m1 = [] →
  Forall (readable valid m0) ops →
  abstraction (run hm0 ops m1).1 (run hm0 ops m1).2 = model ks vs m0 ops ∅ ∧
  ∀ key, is_Some (heap m0 !! key) → valid (load m0 key) →
    match model ks vs m0 ops ∅ !! take (Z.to_nat ks) (load m0 key) with
    | Some value_bytes =>
        hashmap_get (run hm0 ops m1).1 key (run hm0 ops m1).2 ≠ NULL ∧
        load (run hm0 ops m1).2 (hashmap_get (run hm0 ops m1).1 key (run hm0 ops m1).2)
          = value_bytes
    | None => hashmap_get (run hm0 ops m1).1 key (run hm0 ops m1).2 = NULL
    end.
Proof.
  intros Hc Hhash Htake Hcreate Hor Hops.
  destruct (hashmap_create_inv c hash_fn ks vs m0 hm0 m1 Hc Hhash Htake Hcreate)
    as (Hinv0 & Hn0 & _).
  destruct (hashmap_create_settings c hash_fn ks vs m0 hm0 m1 Hcreate)
    as (Hdef & Hks & Hvs & _).
  pose proof (hashmap_create_apart c hash_fn ks vs m0 hm0 m1 Hcreate Hn0) as Hap0.
  destruct (run_inv m0 hm0 ops m1 Hinv0 Hap0 Hops) as (Hinv & Hap & Hsame).
  pose proof (run_granted m0 hm0 ops m1 Hinv0 Hdef Hor Hap0 Hops) as Habs.
  assert (Hempty : abstraction hm0 m1 = ∅).
  { unfold abstraction. rewrite Hn0. reflexivity. }
  rewrite Hempty, Hks, Hvs in Habs.
  split; [exact Habs|].
  intros key Hlive Hvalid.
  pose proof (load_heap_eq m0 _ key (apart_live m0 _ _ key Hap Hlive)) as Hload.
  pose proof (abstraction_get _ _ key (inv_table _ _ Hinv)
                (default_strategies_same hm0 _ Hsame Hdef)) as Hget.
  unfold key_bytes in Hget. rewrite Hload, Habs in Hget.
  destruct Hsame as (Hks' & _). rewrite Hks', Hks in Hget.
  apply Hget. exact Hvalid.
Qed.

(** X8.  From creation on, whatever allocation is refused on the way: after a run
    of insertions and removals of valid keys, [hashmap_destroy] leaves the
    blocks the memory held when the table was created, each as it was, and
    no other. *)
Theorem create_run_destroy_leaves_no_block c hash_fn ks vs m0 hm0 m1 ops :
  0 ≤ c < 2 ^ size_bits →
  (∀ a b, valid a → valid b → take (Z.to_nat ks) a = take (Z.to_nat ks) b →
          default HASH_FUNC_DEFAULT hash_fn a ks = default HASH_FUNC_DEFAULT hash_fn b ks) →
  (∀ a, valid a → valid (take (Z.to_nat ks) a)) →
  hashmap_create c hash_fn ks vs m0 = Returned (Some hm0, m1) →
  Forall (readable valid m0) ops →
  heap (hashmap_destroy (run hm0 ops m1).1 (run hm0 ops m1).2) = heap m0.
Proof.
  intros Hc Hhash Htake Hcreate Hops.
  destruct (hashmap_create_inv c hash_fn ks vs m0 hm0 m1 Hc Hhash Htake Hcreate)
    as (Hinv0 & Hn0 & _).
  pose proof (hashmap_create_apart c hash_fn ks vs m0 hm0 m1 Hcreate Hn0) as Hap0.
  destruct (run_inv m0 hm0 ops m1 Hinv0 Hap0 Hops) as (Hinv & [Hout Hown] & _).
  apply map_eq. intros p.
  rewrite (hashmap_destroy_heap _ _ p (inv_table _ _ Hinv)).
  destruct (decide (p ∈ owned (run hm0 ops m1).1)) as [Hin|Hnot].
  - symmetry. apply Hown, Hin.
  - apply Hout, Hnot.
Qed.

End Interface.

(** ** The interface theorems on the sample tables *)

Lemma triple_eta {A B C} (x : A * B * C) : x = (x.1.1, x.1.2, x.2).
Proof. destruct x as [[a b] c]. reflexivity. Qed.

Lemma sample_table_default c : default_strategies (sample_table c).
Proof. repeat split. Qed.


Lemma sample_contract a b :
  text_key 2 a → text_key 2 b → take (Z.to_nat 2) a = take (Z.to_nat 2) b →
  default HASH_FUNC_DEFAULT None a 2 = default HASH_FUNC_DEFAULT None b 2.
Proof. apply djb2_text_key. Qed.

(** Insert "a", insert "b", remove "a". *)
Lemma sample_ops_readable :
  Forall (readable (text_key 2) sample_mem) [Add 1%N 4%N; Add 2%N 4%N; Remove 1%N].
Proof. repeat constructor; vm_compute; eauto. Qed.


Lemma add_is_insert_if_absent_witness :
  hashmap_inv (text_key 2) (snd (fst sample_one)) (snd sample_one) ∧
  default_strategies (snd (fst sample_one)) ∧
  (∀ p, is_Some (heap sample_mem !! p) → heap (snd sample_one) !! p = heap sample_mem !! p).
Proof.
  destruct (add_is_insert_if_absent (valid := text_key 2) (sample_table 2) 1%N 4%N
              sample_mem (fst (fst sample_one)) (snd (fst sample_one)) (snd sample_one))
    as (Hinv & Hdef & Hlive & _).
  - exact (sample_table_inv 2 sample_capacity_2).
  - apply sample_table_default.
  - exact sample_key_a.
  - vm_compute. eauto.
  - exact (triple_eta sample_one).
  - auto.
Defined.



Lemma destroy_releases_the_table_buffers_witness :
  heap (hashmap_destroy (snd (fst sample_one)) (snd sample_one)) !! 5%N =
    if decide (5%N ∈ owned (snd (fst sample_one))) then None
    else heap (snd sample_one) !! 5%N.
Proof.
  apply (destroy_releases_the_table_buffers (valid := text_key 2)).
  exact sample_one_inv.
Defined.

Lemma count_and_capacity_hold_through_failures_witness :
  hashmap_count (run (sample_table 2) [Add 1%N 4%N; Add 2%N 4%N; Remove 1%N] sample_mem).1
    = wrap (Z.of_nat (size (abstraction
        (run (sample_table 2) [Add 1%N 4%N; Add 2%N 4%N; Remove 1%N] sample_mem).1
        (run (sample_table 2) [Add 1%N 4%N; Add 2%N 4%N; Remove 1%N] sample_mem).2))) ∧
  HASHMAP_MINIMAL_CAPACITY
    ≤ hashmap_capacity
        (run (sample_table 2) [Add 1%N 4%N; Add 2%N 4%N; Remove 1%N] sample_mem).1
    < 2 ^ size_bits.
Proof.
  destruct (count_and_capacity_hold_through_failures (valid := text_key 2)
              2 None 2 4 sample_mem (sample_table 2) sample_mem
              [Add 1%N 4%N; Add 2%N 4%N; Remove 1%N])
    as (Hcount & Hcap & _).
  - split; [lia | reflexivity].
  - exact sample_contract.
  - apply text_key_take.
  - exact (sample_table_created 2 ltac:(unfold HASHMAP_MINIMAL_CAPACITY; lia)).
  - exact sample_ops_readable.
  - split; assumption.
Defined.

Lemma run_refines_model_witness :
  abstraction
    (run (sample_table 2) [Add 1%N 4%N; Add 2%N 4%N; Remove 1%N] sample_mem).1
    (run (sample_table 2) [Add 1%N 4%N; Add 2%N 4%N; Remove 1%N] sample_mem).2
  = model 2 4 sample_mem [Add 1%N 4%N; Add 2%N 4%N; Remove 1%N] ∅.
Proof.
  destruct (run_refines_model (valid := text_key 2)
              2 None 2 4 sample_mem (sample_table 2) sample_mem
              [Add 1%N 4%N; Add 2%N 4%N; Remove 1%N])
    as (Habs & _).
  - split; [lia | reflexivity].
  - exact sample_contract.
  - apply text_key_take.
  - exact (sample_table_created 2 ltac:(unfold HASHMAP_MINIMAL_CAPACITY; lia)).
  - reflexivity.
  - exact sample_ops_readable.
  - exact Habs.
Defined.

Lemma create_run_destroy_leaves_no_block_witness :
  heap (hashmap_destroy
          (run (sample_table 2) [Add 1%N 4%N; Add 2%N 4%N; Remove 1%N] sample_mem).1
          (run (sample_table 2) [Add 1%N 4%N; Add 2%N 4%N; Remove 1%N] sample_mem).2)
  = heap sample_mem.
Proof.
  apply (create_run_destroy_leaves_no_block (valid := text_key 2)
           2 None 2 4 sample_mem (sample_table 2) sample_mem).
  - split; [lia | reflexivity].
  - exact sample_contract.
  - apply text_key_take.
  - exact (sample_table_created 2 ltac:(unfold HASHMAP_MINIMAL_CAPACITY; lia)).
  - exact sample_ops_readable.
Defined.

(** * The string strategies *)

Lemma string_of_cons c bs :
  string_of (c :: bs) = if is_nul c then [] else c :: string_of bs.
Proof.
  unfold string_of. simpl. destruct (is_nul c); [reflexivity|].
  destruct (c_string bs); reflexivity.
Qed.

Lemma is_nul_uchar c : is_nul c = true ↔ uchar c = 0.
Proof. unfold is_nul. apply Z.eqb_eq. Qed.

Lemma strcmp_eq a b : strcmp a b = 0 ↔ string_of a = string_of b.
Proof.
  revert b. induction a as [|ca a IH]; intros [|cb b].
  - split; reflexivity.
  - rewrite string_of_cons. simpl.
    destruct (is_nul cb) eqn:Hb.
    + apply is_nul_uchar in Hb. split; [reflexivity | lia].
    + split; [|discriminate]. intros H.
      assert (Hz : uchar cb = 0) by lia. apply is_nul_uchar in Hz. congruence.
  - rewrite string_of_cons. simpl.
    destruct (is_nul ca) eqn:Ha.
    + apply is_nul_uchar in Ha. split; [reflexivity | lia].
    + split; [|discriminate]. intros H.
      apply is_nul_uchar in H. congruence.
  - rewrite !string_of_cons. simpl.
    destruct (Z.eqb_spec (uchar ca) (uchar cb)) as [Heq|Hne].
    + apply uchar_inj in Heq as <-.
      destruct (is_nul ca); [split; reflexivity|].
      rewrite IH. split; [intros ->; reflexivity | intros [= H]; exact H].
    + split; [lia|]. intros H. exfalso. apply Hne.
      destruct (is_nul ca) eqn:Ha, (is_nul cb) eqn:Hb; try discriminate H.
      * apply is_nul_uchar in Ha, Hb. lia.
      * injection H as -> _. reflexivity.
Qed.

Lemma c_string_terminated s :
  Forall (λ c, is_nul c = false) s → c_string (s ++ ["000"%byte]) = Some s.
Proof.
  induction 1 as [|c s Hc _ IH]; simpl; [reflexivity|].
  rewrite Hc, IH. reflexivity.
Qed.

Lemma c_string_no_nul bs s : c_string bs = Some s → Forall (λ c, is_nul c = false) s.
Proof.
  revert s. induction bs as [|c bs IH]; intros s; simpl; [discriminate|].
  destruct (is_nul c) eqn:Hc; [intros [= <-]; constructor|].
  destruct (c_string bs) as [t|]; [|discriminate].
  intros [= <-]. constructor; [exact Hc | apply IH; reflexivity].
Qed.

Lemma c_string_None bs : c_string bs = None → Forall (λ c, is_nul c = false) bs.
Proof.
  induction bs as [|c bs IH]; simpl; [constructor|].
  destruct (is_nul c) eqn:Hc; [discriminate|].
  destruct (c_string bs); [discriminate|]. intros _. constructor; auto.
Qed.

Lemma string_of_no_nul bs : Forall (λ c, is_nul c = false) (string_of bs).
Proof.
  unfold string_of. destruct (c_string bs) as [s|] eqn:E; simpl.
  - apply (c_string_no_nul bs s E).
  - apply c_string_None, E.
Qed.

Lemma strdup_same a :
  strcmp a (string_of a ++ ["000"%byte]) = 0 ∧
  string_key (string_of a ++ ["000"%byte]).
Proof.
  pose proof (c_string_terminated _ (string_of_no_nul a)) as E.
  split.
  - apply strcmp_eq. unfold string_of at 2. rewrite E. reflexivity.
  - unfold string_key. rewrite E. eauto.
Qed.

Lemma malloc_init_copy_ok (g : list byte → list byte) size
    (same : list byte → list byte → Prop) :
  (∀ a, same a (g a)) →
  copy_ok (λ src _ m, malloc_init (g (load m src)) m) size same.
Proof.
  intros Hsame src m r m'. unfold malloc_init.
  pose proof (alloc_ok_heap m) as Hm1.
  destruct (alloc_ok m) as [[|] m1]; simpl in Hm1; intros [= <- <-].
  - right. destruct (fresh_ptr_fresh m1) as [Hne Hf]. rewrite Hm1 in Hf.
    split; [exact Hne|]. split; [exact Hf|].
    exists (g (load m src)). simpl. rewrite Hm1.
    split; [reflexivity | apply Hsame].
  - left. split; [reflexivity | exact Hm1].
Qed.

(** A table that runs with the string strategies and one of the two string
    hashes honours the contract on every terminated string, whatever its
    [key_size] is. *)
Lemma string_strategies_ok hm :
  string_strategies hm →
  fn_hash hm = HASH_FUNC_DJB2 ∨ fn_hash hm = HASH_FUNC_SDBM →
  strategies_ok string_key hm.
Proof.
  intros (Hc & Hck & Hcv & Hdk & Hdv) Hh.
  assert (Heq : ∀ a b, key_eq hm a b ↔ string_of a = string_of b).
  { intros a b. unfold key_eq. rewrite Hc. apply strcmp_eq. }
  constructor.
  - intros a b. rewrite !Heq. congruence.
  - intros a b c. rewrite !Heq. congruence.
  - intros a b [s Ha] [t Hb]. rewrite Heq. unfold string_of. rewrite Ha, Hb. simpl.
    intros ->.
    destruct Hh as [-> | ->].
    + unfold HASH_FUNC_DJB2. rewrite !djb2_c_string, Ha, Hb. reflexivity.
    + unfold HASH_FUNC_SDBM. rewrite !sdbm_c_string, Ha, Hb. reflexivity.
  - rewrite Hck. unfold HASHMAP_ALLOC_COPY_STRING, hashmap_fn_alloc_copy_str.
    apply (malloc_init_copy_ok (λ a, string_of a ++ ["000"%byte])).
    intros a. destruct (strdup_same a) as [H1 H2].
    split; [|intros _; exact H2]. unfold key_eq. rewrite Hc. exact H1.
  - rewrite Hcv. apply default_copy_ok. auto.
  - rewrite Hdk. apply default_destroy_ok.
  - rewrite Hdv. apply default_destroy_ok.
Qed.

Lemma empty_table_inv (valid : list byte → Prop) hm m :
  HASHMAP_MINIMAL_CAPACITY ≤ capacity hm < 2 ^ size_bits →
  length (table hm) = Z.to_nat (capacity hm) →
  nodes hm = [] → count hm = 0 →
  strategies_ok valid hm →
  hashmap_inv valid hm m.
Proof.
  intros Hcap Hlen Hn Hcount Hs. split.
  - constructor; try assumption.
    + intros i chain node Hi Hnode. exfalso.
      assert (Hin : node ∈ nodes hm) by (apply elem_of_nodes; eauto).
      rewrite Hn in Hin. inversion Hin.
    + rewrite Hn. intros n1 n2 H1. inversion H1.
    + unfold owned. rewrite Hn. constructor.
    + unfold owned. rewrite Hn. intros p Hp. inversion Hp.
    + rewrite Hn. intros node Hnode. inversion Hnode.
  - rewrite Hn, Hcount. reflexivity.
Qed.

Lemma string_table_inv c hash_fn ks vs m0 hm0 m1 :
  0 ≤ c < 2 ^ size_bits →
  hash_fn = None ∨ hash_fn = Some HASH_FUNC_DJB2 ∨ hash_fn = Some HASH_FUNC_SDBM →
  hashmap_create c hash_fn ks vs m0 = Returned (Some hm0, m1) →
  hashmap_inv string_key (string_table hm0) m1 ∧ nodes (string_table hm0) = [].
Proof.
  intros Hc Hh Hcreate.
  assert (Hhash : fn_hash hm0 = default HASH_FUNC_DEFAULT hash_fn ∧
                  default_strategies hm0 ∧ count hm0 = 0 ∧
                  table hm0 = replicate (Z.to_nat (capacity hm0)) [] ∧
                  capacity hm0 = clamp_capacity
                                   (if c =? 0 then HASHMAP_DEFAULT_CAPACITY else c)).
  { revert Hcreate. unfold hashmap_create.
    destruct ((0 <? ks) && (0 <? vs)); [|discriminate].
    rewrite clamp_capacity_eq.
    destruct (alloc_ok m0) as [[|] m]; [|discriminate].
    destruct (alloc_ok m) as [[|] m']; [|discriminate].
    intros [= <- <-]. simpl. repeat split. }
  destruct Hhash as (Hfn & (_ & _ & Hcv & Hdk & Hdv) & Hcount & Htab & Hcap).
  assert (Hn : nodes (string_table hm0) = []).
  { unfold nodes, string_table. simpl. rewrite Htab. apply concat_replicate_nil. }
  split; [|exact Hn].
  apply empty_table_inv; [| | exact Hn | exact Hcount |].
  - change (capacity (string_table hm0)) with (capacity hm0). rewrite Hcap.
    unfold clamp_capacity, HASHMAP_MINIMAL_CAPACITY, HASHMAP_DEFAULT_CAPACITY.
    assert (16 < 2 ^ size_bits) by reflexivity.
    destruct (Z.eqb_spec c 0); lia.
  - change (table (string_table hm0)) with (table hm0).
    change (capacity (string_table hm0)) with (capacity hm0).
    rewrite Htab at 1. apply length_replicate.
  - apply string_strategies_ok.
    + repeat split; assumption.
    + change (fn_hash (string_table hm0)) with (fn_hash hm0). rewrite Hfn.
      destruct Hh as [-> | [-> | ->]]; simpl; auto.
Qed.

(** X12.  A table configured for string keys as in [demo.c] (string compare and
    string copy over one of the string hashes) is well formed for every
    terminated string, longer than [key_size] or not.  A key that was added
    is found again by every key that holds the same string, at the pointer
    [hashmap_add] returned, and the count is 1. *)
Theorem string_keys_round_trip c hash_fn ks vs m0 hm0 m1 key value r hm' m' key' :
  0 ≤ c < 2 ^ size_bits →
  hash_fn = None ∨ hash_fn = Some HASH_FUNC_DJB2 ∨ hash_fn = Some HASH_FUNC_SDBM →
  hashmap_create c hash_fn ks vs m0 = Returned (Some hm0, m1) →
  string_key (load m1 key) →
  hashmap_add (string_table hm0) key value m1 = (r, hm', m') → r ≠ NULL →
  string_key (load m' key') →
  string_of (load m' key') = string_of (load m1 key) →
  hashmap_inv string_key (string_table hm0) m1 ∧
  hashmap_inv string_key hm' m' ∧
  hashmap_get hm' key' m' = r ∧
  hashmap_count hm' = 1.
Proof.
  intros Hc Hh Hcreate Hkey Hadd Hr Hkey' Hsame.
  destruct (string_table_inv c hash_fn ks vs m0 hm0 m1 Hc Hh Hcreate) as [Hinv Hn].
  split; [exact Hinv|].
  destruct (hashmap_add_spec _ key value m1 r hm' m' Hinv Hkey Hadd)
    as (Hinv' & _ & Hcase).
  split; [exact Hinv'|].
  assert (Hget : hashmap_get (string_table hm0) key m1 = NULL).
  { apply hashmap_get_absent. rewrite Hn. intros x Hx. inversion Hx. }
  split.
  - apply (hashmap_get_inserted _ m1 key value r hm' m' Hinv Hkey Hget Hadd Hr m' key');
      [reflexivity | exact Hkey' |].
    unfold key_eq. apply strcmp_eq. exact Hsame.
  - destruct Hcase as [Hcase|[Hcase|Hcase]].
    + destruct Hcase as (x & Hx & _). rewrite Hn in Hx. inversion Hx.
    + destruct Hcase as (_ & Hnull & _). contradiction.
    + destruct Hcase as (_ & _ & _ & _ & _ & _ & _ & Hcount & _).
      unfold hashmap_count. rewrite Hcount.
      destruct Hinv as [_ Hc0]. rewrite Hc0, Hn. reflexivity.
Qed.

(** * Pinned thresholds *)

Lemma binary_round_aux_unsigned mx ex lx :
  unsigned_float (binary_round_aux float_prec float_emax false mx ex lx).
Proof.
  unfold binary_round_aux.
  destruct (shr_fexp float_prec float_emax mx ex lx) as [mrs' e'].
  destruct (shr_fexp float_prec float_emax _ e' loc_Exact) as [mrs'' e''].
  destruct (shr_m mrs''); simpl; [reflexivity| |exact I].
  destruct (e'' <=? float_emax - float_prec); reflexivity.
Qed.

Lemma float_of_size_unsigned n : 0 ≤ n → unsigned_float (float_of_size n).
Proof.
  intros Hn. unfold float_of_size, binary_normalize.
  destruct n as [|p|p]; [reflexivity| |lia].
  unfold binary_round.
  destruct (shl_align p 0 _) as [mz ez]. apply binary_round_aux_unsigned.
Qed.

Lemma float_div_unsigned x y :
  unsigned_float x → unsigned_float y → unsigned_float (float_div x y).
Proof.
  unfold float_div, SFdiv.
  destruct x as [sx|sx| |sx mx ex], y as [sy|sy| |sy my ey]; simpl;
    try (intros -> ->; reflexivity); try (intros; exact I).
  intros -> ->.
  destruct (SFdiv_core_binary float_prec float_emax (Z.pos mx) ex (Z.pos my) ey)
    as [[mz ez] lz].
  apply binary_round_aux_unsigned.
Qed.

Lemma float_lt_zero x : unsigned_float x → float_lt x float_zero = false.
Proof.
  unfold float_lt, SFltb, float_zero.
  destruct x as [s|s| |s mx ex]; simpl; try reflexivity; intros ->; reflexivity.
Qed.

Lemma float_lt_infinity x : float_lt float_infinity x = false.
Proof.
  unfold float_lt, SFltb, float_infinity.
  destruct x as [s|[|]| |s mx ex]; reflexivity.
Qed.

Lemma pinned_add hm key value m :
  pinned hm →
  pinned (snd (fst (hashmap_add hm key value m))) ∧
  capacity (snd (fst (hashmap_add hm key value m))) = capacity hm.
Proof.
  intros (Hmin & Hmax & Hcap). unfold hashmap_add.
  destruct (negb _); [repeat split; assumption|].
  unfold auto_grow. simpl. rewrite Hmax, float_lt_infinity.
  destruct (node_create _ key value m) as [[node|] m2]; repeat split; assumption.
Qed.

Lemma pinned_remove hm key m :
  pinned hm →
  pinned (snd (fst (hashmap_remove hm key m))) ∧
  capacity (snd (fst (hashmap_remove hm key m))) = capacity hm.
Proof.
  intros (Hmin & Hmax & Hcap). unfold hashmap_remove.
  destruct (chain_unlink hm m (load m key) _) as [[current rest]|];
    [|repeat split; assumption].
  unfold auto_shrink, load_balance. simpl. rewrite Hmin, float_lt_zero.
  - repeat split; assumption.
  - apply float_div_unsigned; apply float_of_size_unsigned; [apply wrap_range | exact Hcap].
Qed.

Lemma pinned_run hm ops m :
  pinned hm → capacity (run hm ops m).1 = capacity hm.
Proof.
  revert hm m. induction ops as [|o ops IH]; intros hm m Hp; simpl; [reflexivity|].
  destruct o as [key value|key]; simpl.
  - destruct (pinned_add hm key value m Hp) as [Hp' Hcap].
    destruct (hashmap_add hm key value m) as [[r hm'] m']. simpl in *.
    rewrite (IH hm' m' Hp'). exact Hcap.
  - destruct (pinned_remove hm key m Hp) as [Hp' Hcap].
    destruct (hashmap_remove hm key m) as [[b hm'] m']. simpl in *.
    rewrite (IH hm' m' Hp'). exact Hcap.
Qed.

(** X13.  After [hashmap_set_load_balance_threshold] with the thresholds 0 and
    infinity no insertion and no removal resizes the table: the capacity
    stays what it was through every run of operations, and the setter itself
    leaves the capacity, the count and the entries as they were. *)
Theorem zero_and_infinity_thresholds_pin_the_capacity hm ops m :
  0 ≤ capacity hm →
  capacity (run (hashmap_set_load_balance_threshold hm float_zero float_infinity) ops m).1
    = capacity hm ∧
  hashmap_capacity (hashmap_set_load_balance_threshold hm float_zero float_infinity)
    = hashmap_capacity hm ∧
  hashmap_count (hashmap_set_load_balance_threshold hm float_zero float_infinity)
    = hashmap_count hm ∧
  table (hashmap_set_load_balance_threshold hm float_zero float_infinity) = table hm.
Proof.
  intros Hcap. split; [|repeat split].
  apply (pinned_run (hashmap_set_load_balance_threshold hm float_zero float_infinity)).
  repeat split. exact Hcap.
Qed.

Lemma zero_and_infinity_thresholds_pin_the_capacity_witness :
  capacity
    (run (hashmap_set_load_balance_threshold (sample_table 2) float_zero float_infinity)
         [Add 1%N 4%N; Add 2%N 4%N; Add 3%N 4%N; Remove 1%N; Remove 2%N; Remove 3%N]
         sample_mem).1
  = 2.
Proof.
  apply (zero_and_infinity_thresholds_pin_the_capacity (sample_table 2)
           [Add 1%N 4%N; Add 2%N 4%N; Add 3%N 4%N; Remove 1%N; Remove 2%N; Remove 3%N]
           sample_mem).
  simpl. lia.
Defined.

(** * The first revision *)

Lemma initial_node_create_granted key value ks vs m :
  oracle m = [] → is_Some (heap m !! key) → is_Some (heap m !! value) →
  ∃ node m',
    Initial.node_create key value ks vs m = (Some node, m') ∧
    oracle m' = [] ∧
    node_key node ≠ node_value node ∧
    heap m !! node_key node = None ∧ heap m !! node_value node = None ∧
    heap m' = <[node_value node := take (Z.to_nat vs) (load m value)]>
                (<[node_key node := take (Z.to_nat ks) (load m key)]> (heap m)).
Proof.
  intros Hor [kb Hkey] [vb Hvalue]. unfold Initial.node_create.
  rewrite (alloc_ok_granted m Hor). unfold malloc_init.
  rewrite (alloc_ok_granted m Hor).
  destruct (fresh_ptr_fresh m) as [Hk0 Hkf].
  set (k := fresh_ptr m) in *.
  destruct (N.eqb_spec k NULL) as [|_]; [contradiction|].
  set (m1 := Mem (<[k := []]> (heap m)) (oracle m)).
  assert (Hor1 : oracle m1 = []) by exact Hor.
  rewrite (alloc_ok_granted m1 Hor1).
  destruct (fresh_ptr_fresh m1) as [Hv0 Hvf].
  set (v := fresh_ptr m1) in *.
  destruct (N.eqb_spec v NULL) as [|_]; [contradiction|].
  simpl in Hvf. apply lookup_insert_None in Hvf as [Hvf Hkv].
  assert (Hkk : key ≠ k) by (intros ->; congruence).
  assert (Hkv' : key ≠ v) by (intros ->; congruence).
  assert (Hvk : value ≠ k) by (intros ->; congruence).
  assert (Hvv : value ≠ v) by (intros ->; congruence).
  eexists (Node k v), _. split; [reflexivity|]. simpl.
  split; [exact Hor|]. split; [exact Hkv|]. split; [exact Hkf|]. split; [exact Hvf|].
  unfold load. simpl.
  rewrite !(lookup_insert_ne _ _ key), !(lookup_insert_ne _ _ value) by congruence.
  apply map_eq. intros p.
  destruct (decide (p = v)) as [->|Hpv]; [rewrite !lookup_insert_eq; reflexivity|].
  rewrite !(lookup_insert_ne _ v p) by congruence.
  destruct (decide (p = k)) as [->|Hpk]; [rewrite !lookup_insert_eq; reflexivity|].
  rewrite !lookup_insert_ne by congruence. reflexivity.
Qed.

Lemma initial_add_granted hm key value m :
  oracle m = [] → is_Some (heap m !! key) → is_Some (heap m !! value) →
  ∃ node m',
    Initial.hashmap_add hm key value m =
      (Initial.set_table hm
         (<[Z.to_nat (Initial.hash_fn hm (load m value) (Initial.key_size hm)
                      mod Initial.capacity hm) :=
              Initial.bucket hm (Initial.hash_fn hm (load m value) (Initial.key_size hm)
                                 mod Initial.capacity hm) ++ [node]]> (Initial.table hm))
         (wrap (Initial.count hm + 1)), m') ∧
    oracle m' = [] ∧
    heap m !! node_key node = None ∧ heap m !! node_value node = None ∧
    is_Some (heap m' !! node_key node) ∧
    load m' (node_key node) = take (Z.to_nat (Initial.key_size hm)) (load m key) ∧
    load m' (node_value node) = take (Z.to_nat (Initial.value_size hm)) (load m value) ∧
    (∀ p, is_Some (heap m !! p) → heap m' !! p = heap m !! p).
Proof.
  intros Hor Hkey Hvalue.
  destruct (initial_node_create_granted key value (Initial.key_size hm)
              (Initial.value_size hm) m Hor Hkey Hvalue)
    as (node & m' & Hnc & Hor' & Hkv & Hkf & Hvf & Hm').
  exists node, m'. unfold Initial.hashmap_add. rewrite Hnc.
  split; [reflexivity|]. split; [exact Hor'|]. split; [exact Hkf|]. split; [exact Hvf|].
  unfold load. rewrite Hm'.
  rewrite lookup_insert_ne by (symmetry; exact Hkv). rewrite !lookup_insert_eq.
  split; [eauto|]. split; [reflexivity|]. split; [reflexivity|].
  intros p [bs Hp]. rewrite !lookup_insert_ne; [reflexivity| |]; intros <-; congruence.
Qed.

Lemma initial_bucket_insert hm (i : Z) chain c :
  0 ≤ i → (Z.to_nat i < length (Initial.table hm))%nat →
  Initial.bucket (Initial.set_table hm (<[Z.to_nat i := chain]> (Initial.table hm)) c) i
  = chain.
Proof.
  intros Hi Hlt. unfold Initial.bucket. simpl.
  apply list_lookup_total_correct. apply list_lookup_insert_eq. exact Hlt.
Qed.

Lemma initial_bucket_insert_ne hm (i j : Z) chain c :
  Z.to_nat i ≠ Z.to_nat j →
  Initial.bucket (Initial.set_table hm (<[Z.to_nat i := chain]> (Initial.table hm)) c) j
  = Initial.bucket hm j.
Proof.
  intros Hne. unfold Initial.bucket. simpl.
  apply list_lookup_total_insert_ne. exact Hne.
Qed.

(** X15.  The first revision never looks for the key before it inserts: two calls
    of [hashmap_add] with the same key and value, the allocations granted,
    raise the count by two and leave two nodes with the same key bytes at the
    end of the chain, the older one first. *)
Theorem first_revision_add_inserts_duplicates hm key value m :
  oracle m = [] → is_Some (heap m !! key) → is_Some (heap m !! value) →
  0 < Initial.capacity hm →
  length (Initial.table hm) = Z.to_nat (Initial.capacity hm) →
  Initial.count
    (Initial.hashmap_add (Initial.hashmap_add hm key value m).1 key value
                         (Initial.hashmap_add hm key value m).2).1
    = wrap (Initial.count hm + 2) ∧
  ∃ n1 n2,
    Initial.bucket
      (Initial.hashmap_add (Initial.hashmap_add hm key value m).1 key value
                           (Initial.hashmap_add hm key value m).2).1
      (Initial.hash_fn hm (load m value) (Initial.key_size hm) mod Initial.capacity hm)
    = Initial.bucket hm
        (Initial.hash_fn hm (load m value) (Initial.key_size hm) mod Initial.capacity hm)
      ++ [n1; n2] ∧
    n1 ≠ n2 ∧
    load (Initial.hashmap_add (Initial.hashmap_add hm key value m).1 key value
                              (Initial.hashmap_add hm key value m).2).2 (node_key n1)
    = take (Z.to_nat (Initial.key_size hm)) (load m key) ∧
    load (Initial.hashmap_add (Initial.hashmap_add hm key value m).1 key value
                              (Initial.hashmap_add hm key value m).2).2 (node_key n2)
    = take (Z.to_nat (Initial.key_size hm)) (load m key).
Proof.
  intros Hor Hkey Hvalue Hcap Hlen.
  set (i := Initial.hash_fn hm (load m value) (Initial.key_size hm) mod Initial.capacity hm).
  assert (Hi : 0 ≤ i < Initial.capacity hm) by (apply Z.mod_pos_bound; exact Hcap).
  destruct (initial_add_granted hm key value m Hor Hkey Hvalue)
    as (n1 & m1 & Hadd1 & Hor1 & Hk1 & Hv1 & Hlive & Hlk1 & Hlv1 & Hlive1).
  fold i in Hadd1. rewrite Hadd1. simpl.
  set (hm1 := Initial.set_table hm _ _).
  assert (Hkey1 : is_Some (heap m1 !! key)) by (rewrite (Hlive1 key Hkey); exact Hkey).
  assert (Hvalue1 : is_Some (heap m1 !! value))
    by (rewrite (Hlive1 value Hvalue); exact Hvalue).
  destruct (initial_add_granted hm1 key value m1 Hor1 Hkey1 Hvalue1)
    as (n2 & m2 & Hadd2 & Hor2 & Hk2 & Hv2 & _ & Hlk2 & Hlv2 & Hlive2).
  rewrite (load_heap_eq m m1 value (Hlive1 value Hvalue)) in Hadd2.
  rewrite (load_heap_eq m m1 key (Hlive1 key Hkey)) in Hlk2.
  change (Initial.hash_fn hm1) with (Initial.hash_fn hm) in Hadd2.
  change (Initial.key_size hm1) with (Initial.key_size hm) in Hadd2, Hlk2.
  change (Initial.capacity hm1) with (Initial.capacity hm) in Hadd2.
  fold i in Hadd2. rewrite Hadd2. simpl.
  split.
  { rewrite wrap_succ. f_equal. lia. }
  exists n1, n2.
  assert (Hb1 : Initial.bucket hm1 i = Initial.bucket hm i ++ [n1]).
  { apply initial_bucket_insert; [lia|]. rewrite Hlen. lia. }
  split.
  { rewrite initial_bucket_insert.
    - rewrite Hb1, <- app_assoc. reflexivity.
    - lia.
    - unfold hm1. simpl. rewrite length_insert, Hlen. lia. }
  split.
  { intros ->. destruct Hlive as [bs Hbs]. congruence. }
  split; [|exact Hlk2].
  rewrite (load_heap_eq m1 m2 (node_key n1) (Hlive2 _ Hlive)). exact Hlk1.
Qed.

Lemma first_revision_add_inserts_duplicates_witness :
  Initial.count
    (Initial.hashmap_add (Initial.hashmap_add initial_sample 1%N 4%N sample_mem).1
       1%N 4%N (Initial.hashmap_add initial_sample 1%N 4%N sample_mem).2).1
  = wrap (Initial.count initial_sample + 2).
Proof.
  apply (first_revision_add_inserts_duplicates initial_sample 1%N 4%N sample_mem).
  - reflexivity.
  - vm_compute. eauto.
  - vm_compute. eauto.
  - reflexivity.
  - reflexivity.
Defined.

(** X16.  The first revision files a new node under the hash of the bytes at
    [value], while [hashmap_get] searches the bucket of the hash of the key:
    in a table without entries, the key just added is found exactly when the
    two hashes pick the same bucket. *)
Theorem first_revision_add_files_under_the_value_hash hm key value m :
  oracle m = [] → is_Some (heap m !! key) → is_Some (heap m !! value) →
  0 < Initial.capacity hm →
  Initial.table hm = replicate (Z.to_nat (Initial.capacity hm)) [] →
  is_Some (Initial.hashmap_get (Initial.hashmap_add hm key value m).1 key
                               (Initial.hashmap_add hm key value m).2)
  ↔ Initial.hash_fn hm (load m value) (Initial.key_size hm) mod Initial.capacity hm
    = Initial.hash_fn hm (load m key) (Initial.key_size hm) mod Initial.capacity hm.
Proof.
  intros Hor Hkey Hvalue Hcap Htab.
  set (iv := Initial.hash_fn hm (load m value) (Initial.key_size hm) mod Initial.capacity hm).
  set (ik := Initial.hash_fn hm (load m key) (Initial.key_size hm) mod Initial.capacity hm).
  assert (Hiv : 0 ≤ iv < Initial.capacity hm) by (apply Z.mod_pos_bound; exact Hcap).
  assert (Hik : 0 ≤ ik < Initial.capacity hm) by (apply Z.mod_pos_bound; exact Hcap).
  destruct (initial_add_granted hm key value m Hor Hkey Hvalue)
    as (node & m' & Hadd & _ & _ & _ & _ & Hlk & _ & Hlive).
  fold iv in Hadd. rewrite Hadd. simpl.
  unfold Initial.hashmap_get. simpl.
  rewrite (load_heap_eq m m' key (Hlive key Hkey)). fold ik.
  assert (Hempty : ∀ i, Initial.bucket hm i = []).
  { intros i. unfold Initial.bucket. rewrite Htab, list_lookup_total_alt.
    destruct (replicate _ _ !! Z.to_nat i) as [chain|] eqn:E; [|reflexivity].
    apply lookup_replicate in E as [-> _]. reflexivity. }
  assert (Hlen : length (Initial.table hm) = Z.to_nat (Initial.capacity hm))
    by (rewrite Htab; apply length_replicate).
  destruct (decide (iv = ik)) as [Heq|Hne].
  - rewrite <- Heq.
    rewrite (initial_bucket_insert hm iv) by (rewrite ?Hlen; lia).
    rewrite Hempty. simpl. rewrite Hlk.
    unfold default_fn_compare.
    rewrite (proj2 (memcmp_loop_eq _ _ _)) by (rewrite take_take, Nat.min_id; reflexivity).
    simpl. split; eauto.
  - rewrite (initial_bucket_insert_ne hm iv ik) by lia.
    rewrite (Hempty ik). simpl.
    split; [intros [? H]; discriminate H | intros H; contradiction].
Qed.

Lemma first_revision_add_files_under_the_value_hash_witness :
  is_Some (Initial.hashmap_get (Initial.hashmap_add initial_sample 1%N 4%N sample_mem).1
             1%N (Initial.hashmap_add initial_sample 1%N 4%N sample_mem).2)
  ↔ Initial.hash_fn initial_sample (load sample_mem 4%N) (Initial.key_size initial_sample)
      mod Initial.capacity initial_sample
    = Initial.hash_fn initial_sample (load sample_mem 1%N) (Initial.key_size initial_sample)
      mod Initial.capacity initial_sample.
Proof.
  apply (first_revision_add_files_under_the_value_hash initial_sample 1%N 4%N sample_mem).
  - reflexivity.
  - vm_compute. eauto.
  - vm_compute. eauto.
  - reflexivity.
  - reflexivity.
Defined.

(** * Keys that compare equal but hash apart *)

Section Contract.

Context {valid : list byte → Prop}.

Lemma node_value_inj (l : list node_t) n1 n2 :
  NoDup (l ≫= λ node, [node_key node; node_value node]) →
  n1 ∈ l → n2 ∈ l → node_value n1 = node_value n2 → n1 = n2.
Proof.
  induction l as [|n l IH]; intros Hnd H1 H2 Heq; [inversion H1|].
  change ((n :: l) ≫= λ node, [node_key node; node_value node])
    with (node_key n :: node_value n :: (l ≫= λ node, [node_key node; node_value node]))
    in Hnd.
  apply NoDup_cons in Hnd as [Hk Hnd]. apply NoDup_cons in Hnd as [Hv Hnd].
  assert (Hfar : ∀ x, x ∈ l → node_value x ≠ node_value n).
  { intros x Hx Hxv. apply Hv. rewrite <- Hxv. apply list_elem_of_bind.
    exists x. split; [right; left | exact Hx]. }
  apply elem_of_cons in H1 as [->|H1], H2 as [->|H2].
  - reflexivity.
  - exfalso. apply (Hfar n2 H2). congruence.
  - exfalso. apply (Hfar n1 H1). congruence.
  - apply IH; assumption.
Qed.

(** X14.  The lookup reads one bucket only.  A key that compares equal to the key
    of an entry but hashes to another bucket does not find this entry:
    [hashmap_get] does not return its value, and [hashmap_add] does not
    return it either (it fails, or returns the value of another entry). *)
Theorem equal_keys_in_different_buckets_are_missed hm m key value node :
  hashmap_inv valid hm m → node ∈ nodes hm →
  key_eq hm (load m key) (load m (node_key node)) →
  bucket_index hm (load m key) (capacity hm)
    ≠ bucket_index hm (load m (node_key node)) (capacity hm) →
  hashmap_get hm key m ≠ node_value node ∧
  fst (fst (hashmap_add hm key value m)) ≠ node_value node.
Proof.
  intros [Hinv Hcount] Hin Heq Hidx.
  pose proof (inv_capacity hm m Hinv) as Hcap. unfold HASHMAP_MINIMAL_CAPACITY in Hcap.
  assert (Hget : hashmap_get hm key m ≠ node_value node).
  { unfold hashmap_get.
    destruct (chain_find hm m (load m key) _) as [found|] eqn:Hf.
    - apply chain_find_Some in Hf as [Hfin _]. intros Hv. apply Hidx.
      assert (Hlook : table hm !! Z.to_nat (bucket_index hm (load m key) (capacity hm))
                      = Some (bucket hm (bucket_index hm (load m key) (capacity hm)))).
      { apply bucket_lookup_lt. rewrite (inv_length hm m Hinv).
        apply bucket_index_lt. lia. }
      assert (Hfn : found ∈ nodes hm) by (apply elem_of_nodes; eauto).
      assert (found = node) as ->
        by apply (node_value_inj (nodes hm) found node (inv_owned_nodup hm m Hinv)
                    Hfn Hin Hv).
      pose proof (inv_bucket hm m Hinv _ _ node Hlook Hfin) as Hplaced.
      pose proof (bucket_index_range hm (load m key) (capacity hm) ltac:(lia)).
      pose proof (bucket_index_range hm (load m (node_key node)) (capacity hm) ltac:(lia)).
      lia.
    - intros Hnull. symmetry in Hnull.
      apply (node_value_not_NULL hm m node Hinv Hin Hnull). }
  split; [exact Hget|].
  destruct (decide (hashmap_get hm key m = NULL)) as [Hnull|Hfound].
  2:{ rewrite (hashmap_add_present hm key value m Hfound). exact Hget. }
  rewrite (hashmap_add_absent hm key value m Hnull). simpl.
  destruct (auto_grow_inv _ m (table_inv_set_count hm m (wrap (count hm + 1)) Hinv))
    as (Hinv1 & _ & Hheap1 & _ & _).
  destruct (auto_grow (set_count hm (wrap (count hm + 1))) m) as [hm1 m1].
  simpl in Hinv1, Hheap1. simpl.
  pose proof (node_create_spec hm1 key value m1 (inv_strategies _ _ Hinv1)) as Hspec.
  destruct (node_create hm1 key value m1) as [[created|] m2]; simpl.
  - destruct Hspec as (_ & _ & _ & _ & Hvf & _). intros Hv.
    rewrite Hv, Hheap1 in Hvf.
    destruct (inv_owned_live hm m Hinv (node_value node)) as [_ [bs Hbs]];
      [apply owned_elem; eauto | congruence].
  - intros Hnull'. symmetry in Hnull'.
    apply (node_value_not_NULL hm m node Hinv Hin Hnull').
Qed.

End Contract.

Lemma odd_table_inv : hashmap_inv one_byte_key odd_table odd_mem.
Proof.
  apply (hashmap_create_inv 2 (Some second_byte_hash) 1 4 odd_mem odd_table odd_mem).
  - split; [lia | reflexivity].
  - intros [|x [|c a]] [|y [|d b]] Ha Hb _; simpl in *; try reflexivity.
    + apply is_nul_uchar in Hb. congruence.
    + apply is_nul_uchar in Hb. congruence.
    + apply is_nul_uchar in Ha. exact Ha.
    + apply is_nul_uchar in Ha. exact Ha.
    + apply is_nul_uchar in Ha, Hb. congruence.
  - intros [|x [|c a]] _; exact I.
  - reflexivity.
Qed.

Lemma odd_one_inv : hashmap_inv one_byte_key (snd (fst odd_one)) (snd odd_one).
Proof.
  apply (hashmap_add_spec _ _ _ _ _ _ _ odd_table_inv
           (ltac:(vm_compute; reflexivity) : one_byte_key (load odd_mem 1%N))
           (triple_eta odd_one)).
Qed.

Lemma equal_keys_in_different_buckets_are_missed_witness :
  hashmap_get (snd (fst odd_one)) 2%N (snd odd_one) ≠ 6%N ∧
  fst (fst (hashmap_add (snd (fst odd_one)) 2%N 4%N (snd odd_one))) ≠ 6%N.
Proof.
  apply (equal_keys_in_different_buckets_are_missed (valid := one_byte_key)
           (snd (fst odd_one)) (snd odd_one) 2%N 4%N (Node 5%N 6%N)).
  - exact odd_one_inv.
  - assert (E : nodes (snd (fst odd_one)) = [Node 5%N 6%N]) by (vm_compute; reflexivity).
    rewrite E. left.
  - vm_compute. reflexivity.
  - vm_compute. intros H. discriminate H.
Defined.

Lemma narrow_table_created :
  hashmap_create 2 None 1 4 sample_mem = Returned (Some narrow_table, sample_mem).
Proof. reflexivity. Qed.

Lemma string_keys_round_trip_witness :
  hashmap_get (snd (fst narrow_one)) 1%N (snd narrow_one) = fst (fst narrow_one) ∧
  hashmap_count (snd (fst narrow_one)) = 1.
Proof.
  destruct (string_keys_round_trip 2 None 1 4 sample_mem narrow_table sample_mem
              1%N 4%N (fst (fst narrow_one)) (snd (fst narrow_one)) (snd narrow_one) 1%N)
    as (_ & _ & Hget & Hcount).
  - split; [lia | reflexivity].
  - left. reflexivity.
  - exact narrow_table_created.
  - vm_compute. eauto.
  - exact (triple_eta narrow_one).
  - assert (E : fst (fst narrow_one) = 6%N) by (vm_compute; reflexivity).
    rewrite E. discriminate.
  - vm_compute. eauto.
  - assert (E : load (snd narrow_one) 1%N = load sample_mem 1%N)
      by (vm_compute; reflexivity).
    rewrite E. reflexivity.
  - split; assumption.
Defined.

(** * The thresholds in integers *)

Lemma thresholds_agree_small : thresholds_agree_upto small_size = true.
Proof. vm_compute. reflexivity. Qed.

Lemma thresholds_agree_upto_spec b n c :
  thresholds_agree_upto b = true → (n ≤ b)%nat → (1 ≤ c ≤ b)%nat →
  thresholds_agree (Z.of_nat n) (Z.of_nat c) = true.
Proof.
  unfold thresholds_agree_upto. intros H Hn Hc.
  rewrite forallb_forall in H.
  assert (Hin : In n (seq 0 (S b))) by (apply in_seq; lia).
  specialize (H n Hin). rewrite forallb_forall in H.
  apply H. apply in_seq. lia.
Qed.

Lemma small_size_Z : Z.of_nat small_size = 127.
Proof. reflexivity. Qed.

Lemma thresholds_exact n c :
  0 ≤ n ≤ 127 → 1 ≤ c ≤ 127 →
  float_lt HASHMAP_DEFAULT_LOAD_BALANCE_THRESHOLD_MAX
    (float_div (float_of_size n) (float_of_size c)) = (3 * c <? 4 * n) ∧
  float_lt (float_div (float_of_size n) (float_of_size c))
    HASHMAP_DEFAULT_LOAD_BALANCE_THRESHOLD_MIN = (4 * n <? c).
Proof.
  intros Hn Hc. rewrite <- small_size_Z in Hn, Hc.
  pose proof (thresholds_agree_upto_spec small_size (Z.to_nat n) (Z.to_nat c)
                thresholds_agree_small) as H.
  rewrite !Z2Nat.id in H by lia.
  assert (H' : thresholds_agree n c = true) by (apply H; lia).
  unfold thresholds_agree in H'.
  apply andb_true_iff in H' as [H1 H2].
  apply Bool.eqb_prop in H1, H2. split; assumption.
Qed.

(** X17.  The tests of [auto_grow] and [auto_shrink] in integers.  For a table of
    at most 127 entries and 127 buckets that runs with the default
    thresholds, the float comparison of [auto_grow] holds exactly when
    [4 * count > 3 * capacity], and the one of [auto_shrink] exactly when
    [4 * count < capacity]; the capacity they end with follows. *)
Theorem default_thresholds_are_exact_on_small_tables hm m :
  default_thresholds hm →
  0 ≤ count hm ≤ 127 → 1 ≤ capacity hm ≤ 127 →
  float_lt (load_balance_threshold_max hm) (load_balance hm)
    = (3 * capacity hm <? 4 * count hm) ∧
  float_lt (load_balance hm) (load_balance_threshold_min hm)
    = (4 * count hm <? capacity hm) ∧
  capacity (fst (auto_grow hm m))
    = (if (3 * capacity hm <? 4 * count hm) && fst (alloc_ok m)
       then Z.max HASHMAP_MINIMAL_CAPACITY (capacity hm + capacity hm / 2)
       else capacity hm) ∧
  capacity (fst (auto_shrink hm m))
    = (if (4 * count hm <? capacity hm) && fst (alloc_ok m)
       then Z.max HASHMAP_MINIMAL_CAPACITY (capacity hm / 2)
       else capacity hm).
Proof.
  intros [Hmin Hmax] Hn Hc.
  destruct (thresholds_exact (count hm) (capacity hm) Hn Hc) as [Hg Hs].
  fold (load_balance hm) in Hg, Hs. rewrite <- Hmax in Hg. rewrite <- Hmin in Hs.
  split; [exact Hg|]. split; [exact Hs|]. split.
  - rewrite auto_grow_capacity, Hg. unfold get_auto_growth_new_capacity, clamp_capacity.
    rewrite shiftr_1_half, wrap_small; [reflexivity|].
    assert (127 + 127 / 2 < 2 ^ size_bits) by reflexivity.
    pose proof (Z.div_le_mono (capacity hm) 127 2 ltac:(lia) ltac:(lia)).
    pose proof (Z.div_pos (capacity hm) 2 ltac:(lia) ltac:(lia)). lia.
  - rewrite auto_shrink_capacity, Hs. unfold get_auto_shrink_new_capacity, clamp_capacity.
    rewrite shiftr_1_half. reflexivity.
Qed.

Lemma default_thresholds_are_exact_on_small_tables_witness :
  float_lt (load_balance_threshold_max (snd (fst sample_one)))
           (load_balance (snd (fst sample_one)))
    = (3 * capacity (snd (fst sample_one)) <? 4 * count (snd (fst sample_one))).
Proof.
  apply (default_thresholds_are_exact_on_small_tables (snd (fst sample_one)) sample_mem).
  - split; vm_compute; reflexivity.
  - vm_compute. split; discriminate.
  - vm_compute. split; discriminate.
Defined.

(** * The load balance over a run *)

Section LoadBalance.

Context {valid : list byte → Prop}.

Lemma default_thresholds_same hm hm' :
  same_settings hm hm' → default_thresholds hm → default_thresholds hm'.
Proof.
  intros (_ & _ & Hmin & Hmax & _) [H1 H2]. unfold default_thresholds.
  rewrite Hmin, Hmax. auto.
Qed.

Lemma light_add hm key value m budget :
  hashmap_inv valid hm m → default_strategies hm → oracle m = [] →
  valid (load m key) → 1 ≤ budget → light hm budget →
  light (snd (fst (hashmap_add hm key value m))) (budget - 1) ∧
  oracle (snd (hashmap_add hm key value m)) = [].
Proof.
  intros Hinv Hdef Hor Hvalid Hb (Hth & Hlen & Hroom & Hcap & Hload).
  pose proof (inv_capacity _ _ (inv_table _ _ Hinv)) as Hc2.
  unfold HASHMAP_MINIMAL_CAPACITY in Hc2.
  assert (Hn0 : 0 ≤ count hm) by lia.
  destruct (decide (hashmap_get hm key m = NULL)) as [Hnull|Hfound].
  2:{ rewrite (hashmap_add_present hm key value m Hfound). simpl.
      split; [|exact Hor]. split; [exact Hth|]. split; [exact Hlen|].
      split; [lia|]. split; assumption. }
  pose proof (hashmap_get_NULL hm m key (inv_table _ _ Hinv) Hvalid Hnull) as Habs.
  destruct (hashmap_add_granted hm key value m Hinv Hdef Hor Hvalid Habs)
    as (node & hm' & m' & Hadd & _ & _ & Hsame & Hor' & Hperm & Hcount & Hcap' & _).
  rewrite Hadd. simpl. split; [|exact Hor'].
  assert (Hw : wrap (count hm + 1) = count hm + 1).
  { apply wrap_small. assert (64 < 2 ^ size_bits) by reflexivity. lia. }
  rewrite Hw in Hcount, Hcap'.
  destruct Hth as [Hmin Hmax]. rewrite Hmax in Hcap'.
  destruct (thresholds_exact (count hm + 1) (capacity hm)) as [Hg _]; [lia | lia |].
  rewrite Hg in Hcap'.
  split; [apply (default_thresholds_same hm hm' Hsame); split; assumption|].
  split; [rewrite Hcount, Hperm, Hlen; simpl length; lia|].
  split; [lia|].
  unfold get_auto_growth_new_capacity, clamp_capacity, HASHMAP_MINIMAL_CAPACITY in Hcap'.
  rewrite shiftr_1_half in Hcap'.
  assert (Hhalf : capacity hm / 2 * 2 ≤ capacity hm < capacity hm / 2 * 2 + 2).
  { pose proof (Z.div_mod (capacity hm) 2 ltac:(lia)).
    pose proof (Z.mod_pos_bound (capacity hm) 2 ltac:(lia)). lia. }
  destruct (Z.ltb_spec (3 * capacity hm) (4 * (count hm + 1))) as [Hgrow|Hstay].
  - rewrite wrap_small in Hcap'
      by (assert (200 < 2 ^ size_bits) by reflexivity; lia).
    rewrite Hcap', Hcount. lia.
  - rewrite Hcap', Hcount. lia.
Qed.

Lemma light_remove hm key m budget :
  hashmap_inv valid hm m → default_strategies hm → oracle m = [] →
  valid (load m key) → 0 ≤ budget → light hm budget →
  light (snd (fst (hashmap_remove hm key m))) budget ∧
  oracle (snd (hashmap_remove hm key m)) = [].
Proof.
  intros Hinv Hdef Hor Hvalid Hb (Hth & Hlen & Hroom & Hcap & Hload).
  pose proof (inv_capacity _ _ (inv_table _ _ Hinv)) as Hc2.
  unfold HASHMAP_MINIMAL_CAPACITY in Hc2.
  split; [|apply (hashmap_remove_granted hm key m Hdef Hor)].
  destruct (hashmap_remove hm key m) as [[b hm'] m'] eqn:Hrem. simpl.
  destruct (hashmap_remove_spec hm key m b hm' m' Hinv Hvalid Hrem)
    as (_ & Hsame & [Hcase|Hcase]).
  { destruct Hcase as (_ & _ & -> & _). split; [exact Hth|]. split; [exact Hlen|].
    split; [exact Hroom|]. split; assumption. }
  destruct Hcase as (_ & current & Hin & Heq & Hperm & Hcount & _).
  destruct (hashmap_remove_granted_capacity hm m key current (inv_table _ _ Hinv)
              Hdef Hor Hvalid Hin Heq) as [_ Hcap'].
  rewrite Hrem in Hcap'. simpl in Hcap'.
  assert (Hpos : 1 ≤ count hm).
  { rewrite Hlen, Hperm. simpl length. lia. }
  assert (Hw : wrap (count hm - 1) = count hm - 1).
  { apply wrap_small. assert (64 < 2 ^ size_bits) by reflexivity. lia. }
  rewrite Hw in Hcount, Hcap'.
  destruct Hth as [Hmin Hmax]. rewrite Hmin in Hcap'.
  destruct (thresholds_exact (count hm - 1) (capacity hm)) as [_ Hs]; [lia | lia |].
  rewrite Hs in Hcap'.
  split; [apply (default_thresholds_same hm hm' Hsame); split; assumption|].
  split.
  { rewrite Hcount, Hlen, Hperm. simpl length. lia. }
  split; [lia|].
  unfold get_auto_shrink_new_capacity, clamp_capacity, HASHMAP_MINIMAL_CAPACITY in Hcap'.
  rewrite shiftr_1_half in Hcap'.
  assert (Hhalf : capacity hm / 2 * 2 ≤ capacity hm < capacity hm / 2 * 2 + 2).
  { pose proof (Z.div_mod (capacity hm) 2 ltac:(lia)).
    pose proof (Z.mod_pos_bound (capacity hm) 2 ltac:(lia)). lia. }
  destruct (Z.ltb_spec (4 * (count hm - 1)) (capacity hm)) as [Hshrink|Hstay];
    rewrite Hcap', Hcount; lia.
Qed.

Lemma light_run mb hm ops m :
  hashmap_inv valid hm m → default_strategies hm → oracle m = [] →
  apart mb hm m → Forall (readable valid mb) ops →
  light hm (Z.of_nat (length ops)) →
  light (run hm ops m).1 0.
Proof.
  revert hm m. induction ops as [|o ops IH]; intros hm m Hinv Hdef Hor Hap Hops Hl.
  - exact Hl.
  - apply Forall_cons in Hops as [Hr Hops].
    destruct (step_inv mb hm o m Hinv Hap Hr) as (Hinv' & Hap' & Hsame).
    pose proof (default_strategies_same hm _ Hsame Hdef) as Hdef'.
    assert (Hstep : light (step hm o m).1 (Z.of_nat (length ops)) ∧
                    oracle (step hm o m).2 = []).
    { simpl length in Hl. rewrite Nat2Z.inj_succ in Hl.
      destruct o as [key value|key].
      - destruct (readable_valid mb hm m (Add key value) key Hap Hr eq_refl)
          as [Hvalid _].
        destruct (light_add hm key value m (Z.succ (Z.of_nat (length ops)))
                    Hinv Hdef Hor Hvalid ltac:(lia) Hl) as [Hl' Hor'].
        replace (Z.succ (Z.of_nat (length ops)) - 1) with (Z.of_nat (length ops))
          in Hl' by lia.
        simpl. destruct (hashmap_add hm key value m) as [[r hm'] m']. auto.
      - destruct (readable_valid mb hm m (Remove key) key Hap Hr eq_refl)
          as [Hvalid _].
        destruct (light_remove hm key m (Z.of_nat (length ops))
                    Hinv Hdef Hor Hvalid ltac:(lia)) as [Hl' Hor'].
        { destruct Hl as (H1 & H2 & H3 & H4 & H5). split; [exact H1|].
          split; [exact H2|]. split; [lia|]. split; assumption. }
        simpl. destruct (hashmap_remove hm key m) as [[b hm'] m']. auto. }
    destruct Hstep as [Hl' Hor'].
    simpl. destruct (step hm o m) as [hm' m']. simpl in *.
    apply (IH hm' m' Hinv' Hdef' Hor' Hap' Hops Hl').
Qed.

(** X18.  The table is never overloaded.  A table is created with at most 127
    buckets and the default thresholds, every allocation is granted, and at
    most 63 insertions and removals of valid keys follow: after the run the
    count is the number of entries and [4 * count <= 3 * capacity], that is,
    the load balance is at most 0.75. *)
Theorem load_balance_stays_at_most_three_quarters c hash_fn ks vs m0 hm0 m1 ops :
  0 ≤ c ≤ 127 →
  (∀ a b, valid a → valid b → take (Z.to_nat ks) a = take (Z.to_nat ks) b →
          default HASH_FUNC_DEFAULT hash_fn a ks = default HASH_FUNC_DEFAULT hash_fn b ks) →
  (∀ a, valid a → valid (take (Z.to_nat ks) a)) →
  hashmap_create c hash_fn ks vs m0 = Returned (Some hm0, m1) →
  oracle m1 = [] →
  Forall (readable valid m0) ops → (length ops ≤ 63)%nat →
  4 * hashmap_count (run hm0 ops m1).1 ≤ 3 * hashmap_capacity (run hm0 ops m1).1 ∧
  hashmap_count (run hm0 ops m1).1 = Z.of_nat (length (nodes (run hm0 ops m1).1)) ∧
  hashmap_capacity (run hm0 ops m1).1 ≤ 127.
Proof.
  intros Hc Hhash Htake Hcreate Hor Hops Hlen.
  assert (Hc' : 0 ≤ c < 2 ^ size_bits).
  { assert (127 < 2 ^ size_bits) by reflexivity. lia. }
  destruct (hashmap_create_inv c hash_fn ks vs m0 hm0 m1 Hc' Hhash Htake Hcreate)
    as (Hinv0 & Hn0 & Hcount0 & Hcap0).
  destruct (hashmap_create_settings c hash_fn ks vs m0 hm0 m1 Hcreate) as (Hdef & _).
  pose proof (hashmap_create_apart c hash_fn ks vs m0 hm0 m1 Hcreate Hn0) as Hap0.
  assert (Hth : default_thresholds hm0).
  { revert Hcreate. unfold hashmap_create.
    destruct ((0 <? ks) && (0 <? vs)); [|discriminate].
    destruct (alloc_ok m0) as [[|] m]; [|discriminate].
    destruct (alloc_ok m) as [[|] m']; [|discriminate].
    intros [= <- <-]. split; reflexivity. }
  assert (Hl0 : light hm0 (Z.of_nat (length ops))).
  { split; [exact Hth|]. rewrite Hcount0, Hn0, Hcap0.
    unfold clamp_capacity, HASHMAP_MINIMAL_CAPACITY, HASHMAP_DEFAULT_CAPACITY.
    simpl length. destruct (Z.eqb_spec c 0); (split; [reflexivity|]); repeat split; lia. }
  destruct (light_run m0 hm0 ops m1 Hinv0 Hdef Hor Hap0 Hops Hl0)
    as (_ & Hcount & _ & Hcap & Hload).
  unfold hashmap_count, hashmap_capacity. auto.
Qed.

End LoadBalance.

Lemma load_balance_stays_at_most_three_quarters_witness :
  4 * hashmap_count
        (run (sample_table 2) [Add 1%N 4%N; Add 2%N 4%N; Remove 1%N] sample_mem).1
  ≤ 3 * hashmap_capacity
          (run (sample_table 2) [Add 1%N 4%N; Add 2%N 4%N; Remove 1%N] sample_mem).1.
Proof.
  apply (load_balance_stays_at_most_three_quarters (valid := text_key 2)
           2 None 2 4 sample_mem (sample_table 2) sample_mem
           [Add 1%N 4%N; Add 2%N 4%N; Remove 1%N]).
  - lia.
  - exact sample_contract.
  - apply text_key_take.
  - exact (sample_table_created 2 ltac:(unfold HASHMAP_MINIMAL_CAPACITY; lia)).
  - reflexivity.
  - exact sample_ops_readable.
  - simpl. lia.
Defined.

(** * Keys wider than the key size *)

Lemma fixed_width_table_created :
  hashmap_create 16 None 4 4 fixed_width_mem
  = Returned (Some fixed_width_table, fixed_width_mem).
Proof. reflexivity. Qed.

(** The first key is stored in bucket 14; the second key, which equals it
    over the four bytes the compare reads, is looked for in bucket 15. *)
Lemma fixed_width_buckets :
  bucket_index fixed_width_table (load fixed_width_mem 1%N) 16 = 14 ∧
  bucket_index fixed_width_table (load fixed_width_mem 2%N) 16 = 15 ∧
  default_fn_compare (load fixed_width_mem 2%N) (load fixed_width_mem 1%N) 4 = 0.
Proof. vm_compute. auto. Qed.

Lemma fixed_width_one_nodes :
  nodes (snd (fst fixed_width_one)) = [Node 5%N 6%N] ∧
  fst (fst fixed_width_one) = 6%N ∧
  count (snd (fst fixed_width_one)) = 1 ∧
  capacity (snd (fst fixed_width_one)) = 16.
Proof. vm_compute. auto. Qed.

Lemma fixed_width_one_equal_key :
  key_eq (snd (fst fixed_width_one)) (load (snd fixed_width_one) 2%N)
         (load (snd fixed_width_one) 5%N).
Proof. vm_compute. reflexivity. Qed.

Lemma fixed_width_one_run :
  hashmap_add_all fixed_width_table [(1%N, 3%N)] fixed_width_mem
  = (snd (fst fixed_width_one), snd fixed_width_one).
Proof.
  unfold hashmap_add_all, fixed_width_one.
  destruct (hashmap_add fixed_width_table 1%N 3%N fixed_width_mem) as [[r hm] m].
  reflexivity.
Qed.

(** The second insertion: a new entry, not the stored one. *)
Lemma fixed_width_two :
  fst (fst (hashmap_add (snd (fst fixed_width_one)) 2%N 4%N (snd fixed_width_one))) = 8%N ∧
  count (snd (fst (hashmap_add (snd (fst fixed_width_one)) 2%N 4%N (snd fixed_width_one))))
    = 2 ∧
  capacity (snd (fst (hashmap_add (snd (fst fixed_width_one)) 2%N 4%N
                        (snd fixed_width_one)))) = 16.
Proof. vm_compute. auto. Qed.

(** Insert-if-absent does not hold for every key.  In a table created for
    keys of four bytes with the default hash, the key 01 01 01 01 05 00 is
    inserted; the key 01 01 01 01 06 00 equals it over the four bytes the
    compare reads, but an insertion with it does not return the stored value:
    the hash reads up to the NUL byte, picks another bucket, and a second
    entry is made. *)
Lemma add_of_equal_key_inserts_again :
  ¬ add_keeps_binding_as_specified fixed_width_table [(1%N, 3%N)] fixed_width_mem
      2%N 4%N.
Proof.
  intros H. unfold add_keeps_binding_as_specified in H.
  rewrite fixed_width_one_run in H. cbn [fst snd] in H.
  destruct fixed_width_one_nodes as (Hn & _).
  assert (Hin : Node 5%N 6%N ∈ nodes (snd (fst fixed_width_one)))
    by (rewrite Hn; left).
  specialize (H (Node 5%N 6%N) Hin fixed_width_one_equal_key).
  apply (f_equal (λ x, fst (fst x))) in H. cbn [fst snd node_value] in H.
  destruct fixed_width_two as (E & _). rewrite E in H. discriminate H.
Qed.

(** The round trip does not hold for every key: after the insertion of
    01 01 01 01 05 00, the lookup of 01 01 01 01 06 00, equal to it under the
    compare strategy, returns NULL. *)
Lemma get_misses_equal_key :
  ¬ round_trip_as_specified fixed_width_table 1%N 3%N fixed_width_mem 2%N.
Proof.
  intros H. destruct fixed_width_one_nodes as (_ & Hr & _).
  specialize (H _ _ _ (triple_eta fixed_width_one)). rewrite Hr in H.
  assert (Hget : hashmap_get (snd (fst fixed_width_one)) 2%N (snd fixed_width_one) = NULL)
    by (vm_compute; reflexivity).
  rewrite Hget in H.
  assert (Hnull : NULL = 6%N); [|discriminate Hnull].
  apply H; [discriminate|]. vm_compute. reflexivity.
Qed.

(** Removal does not find every equal key: after the insertion of
    01 01 01 01 05 00, the removal of 01 01 01 01 06 00 returns false,
    although the entry's key equals it under the compare strategy. *)
Lemma remove_misses_equal_key :
  ¬ remove_finds_key_as_specified (snd (fst fixed_width_one)) 2%N (snd fixed_width_one).
Proof.
  intros [_ H].
  assert (Hrem : fst (fst (hashmap_remove (snd (fst fixed_width_one)) 2%N
                             (snd fixed_width_one))) = false)
    by (vm_compute; reflexivity).
  rewrite Hrem in H.
  assert (Hfalse : false = true); [|discriminate Hfalse].
  apply H. exists (Node 5%N 6%N). split; [|exact fixed_width_one_equal_key].
  destruct fixed_width_one_nodes as (Hn & _). rewrite Hn. left.
Qed.
